(** * A two-layer graph convolutional network over IEEE binary32 tensors

    Shallow embedding of the classes [SimpleGCNLayer] and [SimpleGCN] of
    [notebooks/01_GNN_intro.ipynb] together with the PyTorch tensor
    operations their [forward] methods call, and of the loops of the
    example cell that build the adjacency of the toy graph.

    Scalars are IEEE 754 binary32 numbers (PyTorch's default dtype), given
    by the parametric specification [SpecFloat] of the standard library at
    precision 24 and maximal exponent 128.  Tensors are two-dimensional,
    carry their shape, and every operation that PyTorch rejects with a
    shape error returns [None].

    Conventions of the embedding:
    - [SpecFloat] has a single NaN, so payloads and the sign of a NaN are
      not distinguished;
    - reductions ([torch.sum] along a row, the dot products of [torch.mm])
      accumulate from left to right starting at [0.0], each addition and
      each product being rounded to nearest, ties to even.  PyTorch's
      kernels may add in another order, which can depend on the shape, and
      may fuse a product with an addition; for this reason rows are
      compared between tensors of the same shape only, and a sum is said
      to be exact only where every partial sum is;
    - [torch.pow(x, -0.5)] is [1 / sqrt x], two correctly rounded
      operations;
    - [F.relu] is [max(x, 0)] and propagates NaN;
    - the weights drawn at random by [nn.Linear] are parameters of the
      constructors;
    - the functional embedding comes first; a second embedding over a store
      of tensors follows the same statements with their allocations and
      the one in-place assignment, and is used to state what a call may
      change. *)

From Stdlib Require Import ZArith List Bool Lia PeanoNat.
From Stdlib Require Import Floats.SpecFloat.
Import ListNotations.

Local Open Scope Z_scope.

(** ** Binary32 scalars *)

Definition prec : Z := 24.
Definition emax : Z := 128.

Definition f32 : Type := spec_float.

Definition fadd : f32 -> f32 -> f32 := SFadd prec emax.
Definition fmul : f32 -> f32 -> f32 := SFmul prec emax.
Definition fdiv : f32 -> f32 -> f32 := SFdiv prec emax.
Definition fsqrt : f32 -> f32 := SFsqrt prec emax.

(** The literals [0.0] and [1.0]. *)
Definition f0 : f32 := S754_zero false.
Definition f1 : f32 := S754_finite false 8388608 (-23).

(** Bitwise equality (all NaNs are identified). *)
Definition f32_eqb (x y : f32) : bool :=
  match x, y with
  | S754_zero a, S754_zero b => Bool.eqb a b
  | S754_infinity a, S754_infinity b => Bool.eqb a b
  | S754_nan, S754_nan => true
  | S754_finite a m e, S754_finite b m' e' =>
      Bool.eqb a b && Pos.eqb m m' && Z.eqb e e'
  | _, _ => false
  end.

(** Classification predicates. *)
Definition is_nan (x : f32) : bool :=
  match x with S754_nan => true | _ => false end.

Definition is_inf (x : f32) : bool :=
  match x with S754_infinity _ => true | _ => false end.

Definition is_zero (x : f32) : bool :=
  match x with S754_zero _ => true | _ => false end.

(** Neither NaN nor an infinity. *)
Definition is_finite (x : f32) : bool :=
  match x with S754_zero _ | S754_finite _ _ _ => true | _ => false end.

(** A binary32 datum: the mantissa and exponent of a finite number are in
    canonical form and in range. *)
Definition valid (x : f32) : bool := valid_binary prec emax x.

(** Sign bit clear or the value is a zero: [x >= 0] for a non-NaN [x]. *)
Definition nonneg (x : f32) : bool :=
  match x with
  | S754_zero _ => true
  | S754_infinity s => negb s
  | S754_finite s _ _ => negb s
  | S754_nan => false
  end.

(** [torch.pow(x, -0.5)] on one element.  The CPU kernel dispatches the
    exponent [-0.5] to the reciprocal square root, computed as
    [1 / sqrt x] with two correctly rounded operations. *)
Definition pow_neg_half (x : f32) : f32 := fdiv f1 (fsqrt x).

(** [F.relu] on one element: [max(x, 0)], NaN is propagated. *)
Definition relu1 (x : f32) : f32 :=
  match SFcompare x f0 with
  | Some Lt => f0
  | _ => x
  end.

(** ** Two-dimensional tensors *)

Record tensor : Type := mkT {
  nrows : nat;
  ncols : nat;
  elems : list (list f32)
}.

(** Entry [t[i, j]]. *)
Definition get (t : tensor) (i j : nat) : f32 :=
  nth j (nth i (elems t) []) f0.

(** The [r x c] tensor whose entry [(i, j)] is [f i j]. *)
Definition tab (r c : nat) (f : nat -> nat -> f32) : tensor :=
  mkT r c (map (fun i => map (fun j => f i j) (seq 0 c)) (seq 0 r)).

(** Every entry within the shape satisfies [p]. *)
Definition check_entries (p : f32 -> bool) (t : tensor) : bool :=
  forallb (fun i => forallb (fun j => p (get t i j)) (seq 0 (ncols t)))
          (seq 0 (nrows t)).

(** Broadcasting of one dimension: equal sizes, or one of them is 1. *)
Definition bdim (n m : nat) : option nat :=
  if Nat.eqb n m then Some n
  else if Nat.eqb n 1 then Some m
  else if Nat.eqb m 1 then Some n
  else None.

(** Index into a dimension of size [n] that may have been broadcast. *)
Definition bidx (n i : nat) : nat := if Nat.eqb n 1 then 0%nat else i.

(** Elementwise binary operation with PyTorch broadcasting. *)
Definition broadcast2 (op : f32 -> f32 -> f32) (a b : tensor) : option tensor :=
  match bdim (nrows a) (nrows b), bdim (ncols a) (ncols b) with
  | Some r, Some c =>
      Some (tab r c (fun i j =>
        op (get a (bidx (nrows a) i) (bidx (ncols a) j))
           (get b (bidx (nrows b) i) (bidx (ncols b) j))))
  | _, _ => None
  end.

(** [a * b] and [a + b] on tensors. *)
Definition torch_mul : tensor -> tensor -> option tensor := broadcast2 fmul.
Definition torch_add : tensor -> tensor -> option tensor := broadcast2 fadd.

(** Elementwise unary operation. *)
Definition tmap (f : f32 -> f32) (t : tensor) : tensor :=
  tab (nrows t) (ncols t) (fun i j => f (get t i j)).

(** Sum of the entries [f 0, ..., f (n-1)], accumulated from left to right
    starting at [0.0]. *)
Definition fsum (n : nat) (f : nat -> f32) : f32 :=
  fold_left (fun acc k => fadd acc (f k)) (seq 0 n) f0.

(** [torch.sum(t, dim=1, keepdim=True)]: an [(N, 1)] column of row sums. *)
Definition torch_sum_dim1_keepdim (t : tensor) : tensor :=
  tab (nrows t) 1 (fun i _ => fsum (ncols t) (get t i)).

(** [torch.pow(t, -0.5)]. *)
Definition torch_pow_neg_half (t : tensor) : tensor := tmap pow_neg_half t.

(** [t[torch.isinf(t)] = v]: entries that are infinite are overwritten. *)
Definition setitem_isinf (t : tensor) (v : f32) : tensor :=
  tmap (fun x => if is_inf x then v else x) t.

(** [t.transpose(0, 1)]. *)
Definition transpose (t : tensor) : tensor :=
  tab (ncols t) (nrows t) (fun i j => get t j i).

(** [torch.mm(a, b)]: each entry is a dot product accumulated from left to
    right starting at [0.0]. *)
Definition torch_mm (a b : tensor) : option tensor :=
  if Nat.eqb (ncols a) (nrows b) then
    Some (tab (nrows a) (ncols b) (fun i j =>
            fsum (ncols a) (fun k => fmul (get a i k) (get b k j))))
  else None.

(** [F.relu(t)]. *)
Definition F_relu (t : tensor) : tensor := tmap relu1 t.

(** [torch.eye(n)] and [torch.zeros(n, m)]. *)
Definition torch_eye (n : nat) : tensor :=
  tab n n (fun i j => if Nat.eqb i j then f1 else f0).

Definition torch_zeros (n m : nat) : tensor := tab n m (fun _ _ => f0).

(** ** [nn.Linear] *)

(** The parameters of a linear layer: [weight] has shape
    [(out_features, in_features)]; [bias] is absent when the layer is
    built with [bias=False]. *)
Record Linear : Type := mkLinear {
  weight : tensor;
  bias : option tensor
}.

(** [F.linear(x, weight, bias)]: [x @ weight.T], plus the bias row when
    there is one. *)
Definition F_linear (x : tensor) (l : Linear) : option tensor :=
  match torch_mm x (transpose (weight l)) with
  | Some y =>
      match bias l with
      | None => Some y
      | Some b => torch_add y b
      end
  | None => None
  end.

(** ** [SimpleGCNLayer] *)

Record SimpleGCNLayer : Type := mkLayer {
  linear : Linear
}.

(** [SimpleGCNLayer.__init__]: the linear map is created without bias.
    The randomly drawn initial weight is a parameter [w] of shape
    [(out_features, in_features)]. *)
Definition SimpleGCNLayer_init (w : tensor) : SimpleGCNLayer :=
  mkLayer (mkLinear w None).

(** [SimpleGCNLayer.forward(x, adj)], statement by statement. *)
Definition SimpleGCNLayer_forward
    (self : SimpleGCNLayer) (x adj : tensor) : option tensor :=
  let degree := torch_sum_dim1_keepdim adj in
  let degree_inv_sqrt := torch_pow_neg_half degree in
  let degree_inv_sqrt := setitem_isinf degree_inv_sqrt f0 in
  match torch_mul degree_inv_sqrt adj with
  | Some scaled =>
      match torch_mul scaled (transpose degree_inv_sqrt) with
      | Some adj_norm =>
          match torch_mm adj_norm x with
          | Some x => F_linear x (linear self)
          | None => None
          end
      | None => None
      end
  | None => None
  end.

(** The locals of [forward] as functions of [adj]: [degree],
    [degree_inv_sqrt] after the masked assignment, and [adj_norm]. *)
Definition degree (adj : tensor) : tensor := torch_sum_dim1_keepdim adj.

Definition degree_inv_sqrt (adj : tensor) : tensor :=
  setitem_isinf (torch_pow_neg_half (degree adj)) f0.

Definition adj_norm (adj : tensor) : option tensor :=
  match torch_mul (degree_inv_sqrt adj) adj with
  | Some scaled => torch_mul scaled (transpose (degree_inv_sqrt adj))
  | None => None
  end.

(** ** [SimpleGCN] *)

Record SimpleGCN : Type := mkGCN {
  gcn1 : SimpleGCNLayer;
  gcn2 : SimpleGCNLayer
}.

Definition SimpleGCN_init (w1 w2 : tensor) : SimpleGCN :=
  mkGCN (SimpleGCNLayer_init w1) (SimpleGCNLayer_init w2).

(** [SimpleGCN.forward(x, adj)]. *)
Definition SimpleGCN_forward
    (self : SimpleGCN) (x adj : tensor) : option tensor :=
  match SimpleGCNLayer_forward (gcn1 self) x adj with
  | Some h =>
      SimpleGCNLayer_forward (gcn2 self) (F_relu h) adj
  | None => None
  end.

(** ** The same methods over a store of tensors

    PyTorch tensors are mutable objects handled by reference.  To state
    which tensors a call may change, the methods are given a second time as
    programs over a store: every operation reads its operands from the
    store and allocates its result, and the masked assignment overwrites
    its target in place. *)

Definition ref : Type := nat.
Definition heap : Type := list tensor.

(** A computation that may raise (the result is [None]) and otherwise
    returns a value and the new store. *)
Definition Torch (A : Type) : Type := heap -> option (A * heap).

Definition ret {A : Type} (a : A) : Torch A := fun h => Some (a, h).

Definition bind {A B : Type} (c : Torch A) (k : A -> Torch B) : Torch B :=
  fun h => match c h with
           | Some (a, h') => k a h'
           | None => None
           end.

Notation "x <- c ;; k" := (bind c (fun x => k))
  (at level 61, c at next level, right associativity).

(** Allocation of a fresh tensor, read and in-place write. *)
Definition new (t : tensor) : Torch ref :=
  fun h => Some (length h, h ++ [t]).

Definition load (r : ref) : Torch tensor :=
  fun h => match nth_error h r with
           | Some t => Some (t, h)
           | None => None
           end.

Definition store (r : ref) (t : tensor) : Torch unit :=
  fun h => if Nat.ltb r (length h)
           then Some (tt, firstn r h ++ t :: skipn (S r) h)
           else None.

(** The result of an operation that may fail on shapes. *)
Definition new_or_raise (o : option tensor) : Torch ref :=
  match o with
  | Some t => new t
  | None => fun _ => None
  end.

Definition st_sum_dim1_keepdim (a : ref) : Torch ref :=
  t <- load a ;; new (torch_sum_dim1_keepdim t).

Definition st_pow_neg_half (a : ref) : Torch ref :=
  t <- load a ;; new (torch_pow_neg_half t).

(** [a[torch.isinf(a)] = v] writes into the tensor [a] itself. *)
Definition st_setitem_isinf (a : ref) (v : f32) : Torch unit :=
  t <- load a ;; store a (setitem_isinf t v).

Definition st_mul (a b : ref) : Torch ref :=
  ta <- load a ;; tb <- load b ;; new_or_raise (torch_mul ta tb).

(** The transposed view is only read, so it is given a cell of its own. *)
Definition st_transpose (a : ref) : Torch ref :=
  t <- load a ;; new (transpose t).

Definition st_mm (a b : ref) : Torch ref :=
  ta <- load a ;; tb <- load b ;; new_or_raise (torch_mm ta tb).

Definition st_relu (a : ref) : Torch ref :=
  t <- load a ;; new (F_relu t).

(** Module objects hold references to their parameters. *)
Record LinearObj : Type := mkLinearObj {
  weight_ref : ref;
  bias_ref : option ref
}.

Record SimpleGCNLayerObj : Type := mkLayerObj {
  linear_obj : LinearObj
}.

Record SimpleGCNObj : Type := mkGCNObj {
  gcn1_obj : SimpleGCNLayerObj;
  gcn2_obj : SimpleGCNLayerObj
}.

Definition st_linear (x : ref) (l : LinearObj) : Torch ref :=
  tx <- load x ;;
  w <- load (weight_ref l) ;;
  match bias_ref l with
  | None => new_or_raise (F_linear tx (mkLinear w None))
  | Some b => tb <- load b ;; new_or_raise (F_linear tx (mkLinear w (Some tb)))
  end.

Definition st_SimpleGCNLayer_forward
    (self : SimpleGCNLayerObj) (x adj : ref) : Torch ref :=
  degree <- st_sum_dim1_keepdim adj ;;
  degree_inv_sqrt <- st_pow_neg_half degree ;;
  _ <- st_setitem_isinf degree_inv_sqrt f0 ;;
  scaled <- st_mul degree_inv_sqrt adj ;;
  degree_inv_sqrt_t <- st_transpose degree_inv_sqrt ;;
  adj_norm <- st_mul scaled degree_inv_sqrt_t ;;
  x1 <- st_mm adj_norm x ;;
  st_linear x1 (linear_obj self).

Definition st_SimpleGCN_forward
    (self : SimpleGCNObj) (x adj : ref) : Torch ref :=
  h1 <- st_SimpleGCNLayer_forward (gcn1_obj self) x adj ;;
  a1 <- st_relu h1 ;;
  st_SimpleGCNLayer_forward (gcn2_obj self) a1 adj.

(** ** The design of the specification

    Definitions that follow the words of the specification: a normalizer
    given entry by entry, a layer that receives the normalized adjacency,
    and a stack that adds the self-loops, normalizes once and applies two
    layers.  Weights are in the orientation [(d_in, d_out)] of the
    specification, the transpose of [nn.Linear]'s. *)

(** [d[i]]: the sum of row [i]. *)
Definition spec_d (A : tensor) (i : nat) : f32 := fsum (ncols A) (get A i).

(** [d_inv_sqrt[i]]: [d[i]^(-0.5)], and [0.0] wherever [d[i] = 0]. *)
Definition spec_d_inv_sqrt (A : tensor) (i : nat) : f32 :=
  if is_zero (spec_d A i) then f0 else pow_neg_half (spec_d A i).

(** [A_norm[i,j] = d_inv_sqrt[i] * A[i,j] * d_inv_sqrt[j]]. *)
Definition spec_normalizer (A : tensor) : tensor :=
  tab (nrows A) (ncols A) (fun i j =>
    fmul (fmul (spec_d_inv_sqrt A i) (get A i j)) (spec_d_inv_sqrt A j)).

(** One layer: aggregate [A_norm . X], then project with [W]. *)
Definition spec_layer (X A_norm W : tensor) : option tensor :=
  match torch_mm A_norm X with
  | Some X_agg => torch_mm X_agg W
  | None => None
  end.

(** Two layers on an adjacency that is normalized once. *)
Definition spec_two_layers (W1 W2 X A_norm : tensor) : option tensor :=
  match spec_layer X A_norm W1 with
  | Some layer1_out => spec_layer (F_relu layer1_out) A_norm W2
  | None => None
  end.

(** The two-layer stack: [A] is raw, the self-loops are added here. *)
Definition spec_forward (W1 W2 X A : tensor) : option tensor :=
  match torch_add A (torch_eye (nrows A)) with
  | Some A_tilde => spec_two_layers W1 W2 X (spec_normalizer A_tilde)
  | None => None
  end.

(** The forward pass with [adj_norm] computed once and handed to both
    layers, instead of once in each call of [SimpleGCNLayer.forward]. *)
Definition forward_normalize_once
    (self : SimpleGCN) (x adj : tensor) : option tensor :=
  match adj_norm adj with
  | Some an =>
      match torch_mm an x with
      | Some x1 =>
          match F_linear x1 (linear (gcn1 self)) with
          | Some h =>
              match torch_mm an (F_relu h) with
              | Some x2 => F_linear x2 (linear (gcn2 self))
              | None => None
              end
          | None => None
          end
      | None => None
      end
  | None => None
  end.

(** The two projections with the rectifier in between and no aggregation,
    [relu(X . W1) . W2], on the whole feature matrix: the same linear maps
    as in [forward], applied to a tensor of the same shape. *)
Definition forward_without_aggregation
    (self : SimpleGCN) (x : tensor) : option tensor :=
  match F_linear x (linear (gcn1 self)) with
  | Some h => F_linear (F_relu h) (linear (gcn2 self))
  | None => None
  end.

(** ** Properties of tensors *)

(** The propositional form of [check_entries]. *)
Definition entries (p : f32 -> bool) (t : tensor) : Prop :=
  forall i j, (i < nrows t)%nat -> (j < ncols t)%nat -> p (get t i j) = true.

(** An unweighted adjacency matrix: every entry is [0.0] or [1.0]. *)
Definition is_01 (x : f32) : bool := f32_eqb x f0 || f32_eqb x f1.

Definition square (n : nat) (t : tensor) : Prop :=
  nrows t = n /\ ncols t = n.

Definition symmetric (t : tensor) : Prop :=
  forall i j, (i < nrows t)%nat -> (j < nrows t)%nat -> get t i j = get t j i.

(** [+0.0] or a positive finite binary32 number. *)
Definition fin_nonneg (x : f32) : bool :=
  match x with
  | S754_zero false => true
  | S754_finite false m e => bounded prec emax m e
  | _ => false
  end.

(** The binade of a finite number: [2^(mag x - 1) <= |x| < 2^(mag x)]. *)
Definition mag (x : f32) : Z :=
  match x with
  | S754_finite _ m e => Zpos (digits2_pos m) + e
  | _ => 0
  end.

(** [+0.0], [+inf], or a positive finite number that is at least 1. *)
Definition zero_or_ge1 (x : f32) : bool :=
  match x with
  | S754_zero false => true
  | S754_infinity false => true
  | S754_finite false _ _ => 1 <=? mag x
  | _ => false
  end.

(** [+0.0] or a positive finite binary32 number below 4. *)
Definition fin_small (x : f32) : bool :=
  fin_nonneg x && (mag x <=? 2).

(** Equal, or two zeros that differ in sign at most. *)
Definition eq_mod_zero_sign (x y : f32) : Prop :=
  x = y \/ (is_zero x = true /\ is_zero y = true).

(** ** Example inputs *)

(** The adjacency matrix [adj_toy] of the notebook: five nodes in a chain,
    with self-loops. *)
Definition adj_toy : tensor :=
  tab 5 5 (fun i j =>
    if Nat.eqb i j || Nat.eqb (S i) j || Nat.eqb i (S j) then f1 else f0).

(** The number [-1.0]. *)
Definition fm1 : f32 := S754_finite true 8388608 (-23).

(** A [1 x 1] tensor. *)
Definition scalar (x : f32) : tensor := tab 1 1 (fun _ _ => x).

(** Two nodes, the first one isolated and without self-loop. *)
Definition adj_isolated : tensor :=
  tab 2 2 (fun i j => if Nat.eqb i 1 && Nat.eqb j 1 then f1 else f0).

(** Features and weights with the shapes of the notebook: five nodes, four
    input features, eight hidden features, two outputs. *)
Definition f2 : f32 := S754_finite false 8388608 (-22).

Definition x_toy : tensor :=
  tab 5 4 (fun i j => if Nat.eqb i j then f2 else if Nat.even (i + j) then f1 else fm1).

Definition w1_toy : tensor :=
  tab 8 4 (fun i j => if Nat.eqb i (2 * j) then f1 else if Nat.even i then fm1 else f2).

Definition w2_toy : tensor :=
  tab 2 8 (fun i j => if Nat.even (i + j) then f1 else fm1).

(** A store that holds the features, the adjacency and the two weights, and
    a model whose layers refer to the weights. *)
Definition store_toy : heap := [x_toy; adj_toy; w1_toy; w2_toy].

Definition model_toy : SimpleGCNObj :=
  mkGCNObj (mkLayerObj (mkLinearObj 2%nat None))
           (mkLayerObj (mkLinearObj 3%nat None)).

(** The numbers [2^100], [2^127], [-2^127] and [2^-149], all binary32. *)
Definition f_2p100 : f32 := S754_finite false 8388608 77.
Definition f_2p127 : f32 := S754_finite false 8388608 104.
Definition fm_2p127 : f32 := S754_finite true 8388608 104.
Definition f_2m149 : f32 := S754_finite false 1 (-149).

(** Two nodes with one feature, [2^100] and [1.0], and a model with the
    weights [W1 = [[2^100]]] and [W2 = [[1.0]]]. *)
Definition x_large : tensor :=
  tab 2 1 (fun i _ => if Nat.eqb i 0 then f_2p100 else f1).

Definition model_large : SimpleGCN := SimpleGCN_init (scalar f_2p100) (scalar f1).

(** Two nodes with the feature [1.0] each. *)
Definition x_ones : tensor := tab 2 1 (fun _ _ => f1).

(** Two nodes with one feature, [+inf] and [1.0], and a model with the
    weights [W1 = [[-1.0]]] and [W2 = [[1.0]]]. *)
Definition x_inf : tensor :=
  tab 2 1 (fun i _ => if Nat.eqb i 0 then S754_infinity false else f1).

Definition model_neg : SimpleGCN := SimpleGCN_init (scalar fm1) (scalar f1).

(** Three nodes; the first row is [2^127, -2^127, 2^-149], the others are
    zero. *)
Definition adj_cancel : tensor :=
  tab 3 3 (fun i j =>
    match i, j with
    | O, O => f_2p127
    | O, S O => fm_2p127
    | O, S (S O) => f_2m149
    | _, _ => f0
    end).

(** A symmetric weighted adjacency: [[2, 3], [3, 4]]. *)
Definition f3 : f32 := S754_finite false 12582912 (-22).
Definition f4 : f32 := S754_finite false 8388608 (-21).

Definition adj_weighted : tensor :=
  tab 2 2 (fun i j =>
    match i, j with
    | O, O => f2
    | S O, S O => f4
    | _, _ => f3
    end).

(** ** The toy graph of the example cell *)

(** [t[i, j] = v] on a two-dimensional tensor, with non-negative indices:
    an index outside the shape raises [IndexError]. *)
Definition setitem (t : tensor) (i j : nat) (v : f32) : option tensor :=
  if Nat.ltb i (nrows t) && Nat.ltb j (ncols t) then
    Some (tab (nrows t) (ncols t) (fun a b =>
            if Nat.eqb a i && Nat.eqb b j then v else get t a b))
  else None.

(** [for i in range(n): body], where the body updates one tensor and may
    raise. *)
Definition for_range (n : nat) (body : nat -> tensor -> option tensor)
    (t : tensor) : option tensor :=
  fold_left (fun acc i => match acc with
                          | Some t => body i t
                          | None => None
                          end)
            (seq 0 n) (Some t).

(** The construction of [adj_toy] for [N] nodes, first loop: the edges of
    a chain, written into a tensor of zeros.  The integer [1] is stored as
    [1.0].  [range(N - 1)] is empty for [N = 0], as is [seq 0 (N - 1)]. *)
Definition toy_edges (N : nat) : option tensor :=
  let adj_toy := torch_zeros N N in
  for_range (N - 1)
    (fun i adj_toy =>
       match setitem adj_toy i (i + 1) f1 with
       | Some adj_toy => setitem adj_toy (i + 1) i f1
       | None => None
       end) adj_toy.

(** Second loop: the self-loops. *)
Definition build_adj_toy (N : nat) : option tensor :=
  match toy_edges N with
  | Some adj_toy => for_range N (fun i adj_toy => setitem adj_toy i i f1) adj_toy
  | None => None
  end.

(** The chain of [N] nodes with self-loops, entry by entry. *)
Definition chain_adj (N : nat) : tensor :=
  tab N N (fun i j =>
    if Nat.eqb i j || Nat.eqb (S i) j || Nat.eqb i (S j) then f1 else f0).

(** ** Counting *)

(** The binary32 number whose value is the integer [z], for
    [0 <= z <= 2^24]: the 24-bit mantissa is [z] shifted to the left. *)
Definition f32_of_count (z : Z) : f32 :=
  if z <=? 0 then f0
  else S754_finite false (Z.to_pos (Z.shiftl z (24 - Zdigits2 z)))
                   (Zdigits2 z - 24).

(** The integer that a binary32 number equals, when it is one. *)
Definition Z_of_f32 (x : f32) : option Z :=
  match x with
  | S754_zero _ => Some 0
  | S754_finite s m e =>
      if 0 <=? e then Some (cond_Zopp s (Zpos m * 2 ^ e))
      else if Zpos m mod 2 ^ (- e) =? 0
           then Some (cond_Zopp s (Zpos m / 2 ^ (- e)))
           else None
  | _ => None
  end.

(** The number of indices [k < n] with [f k = 1.0]. *)
Definition count_ones (n : nat) (f : nat -> f32) : nat :=
  length (filter (fun k => f32_eqb (f k) f1) (seq 0 n)).

(** ** Magnitudes *)

(** [x] is finite and [|x| < 2^p]. *)
Definition within (p : Z) (x : f32) : bool :=
  match x with
  | S754_zero _ => true
  | S754_finite _ m e => Zpos (digits2_pos m) + e <=? p
  | _ => false
  end.

(** ** The unit interval *)

(** [x] is a positive number with [1 <= x]. *)
Definition ge_one (x : f32) : bool :=
  match x with
  | S754_finite false m e => if 0 <=? e then true else 2 ^ (- e) <=? Zpos m
  | _ => false
  end.

(** [0 <= x <= 1], and [x] is not [-0.0]. *)
Definition in_unit (x : f32) : bool :=
  match x with
  | S754_zero false => true
  | S754_finite false m e => (e <=? 0) && (Zpos m <=? 2 ^ (- e))
  | _ => false
  end.

(** ** More example inputs *)

(** The features of the example with the row of the last node replaced by
    zeros. *)
Definition x_toy' : tensor :=
  tab 5 4 (fun i j => if Nat.eqb i 4 then f0 else get x_toy i j).

(** Two nodes with the features of the first two nodes of the example. *)
Definition x_two : tensor := tab 2 4 (fun i j => get x_toy i j).

(** The features of the example with a NaN in the row of the last node. *)
Definition x_nan : tensor :=
  tab 5 4 (fun i j =>
    if Nat.eqb i 4 && Nat.eqb j 0 then S754_nan else get x_toy i j).

(** * Binary32 arithmetic

    Facts about [SpecFloat] at the binary32 format: how rounding acts on
    the binade of a number, and what follows for the four operations of
    the layer. *)

(** ** Classification *)

Lemma f32_eqb_eq (x y : f32) : f32_eqb x y = true -> x = y.
Proof.
  destruct x as [a|a| |a m e], y as [b|b| |b m' e']; cbn; try discriminate;
    try reflexivity.
  - intros H. apply eqb_prop in H. congruence.
  - intros H. apply eqb_prop in H. congruence.
  - intros H. apply andb_prop in H. destruct H as [H He].
    apply andb_prop in H. destruct H as [Hs Hm].
    apply eqb_prop in Hs. apply Pos.eqb_eq in Hm. apply Z.eqb_eq in He.
    congruence.
Qed.

Lemma is_01_cases (x : f32) : is_01 x = true -> x = f0 \/ x = f1.
Proof.
  unfold is_01. intros H. apply orb_prop in H.
  destruct H as [H|H]; apply f32_eqb_eq in H; auto.
Qed.

Lemma is_01_nonneg (x : f32) : is_01 x = true -> nonneg x = true.
Proof. intros H. destruct (is_01_cases x H) as [-> | ->]; reflexivity. Qed.

Lemma is_01_valid (x : f32) : is_01 x = true -> valid x = true.
Proof. intros H. destruct (is_01_cases x H) as [-> | ->]; reflexivity. Qed.

Lemma fin_nonneg_valid (x : f32) : fin_nonneg x = true -> valid x = true.
Proof. destruct x as [[]|[]| |[] m e]; cbn; try discriminate; auto. Qed.

Lemma fin_nonneg_finite (x : f32) : fin_nonneg x = true -> is_finite x = true.
Proof. destruct x as [[]|[]| |[] m e]; cbn; try discriminate; auto. Qed.

Lemma fin_small_nonneg (x : f32) : fin_small x = true -> fin_nonneg x = true.
Proof. unfold fin_small. intros H. apply andb_prop in H. tauto. Qed.

Lemma is_zero_inv (x : f32) : is_zero x = true -> exists s, x = S754_zero s.
Proof. destruct x as [s| | |]; cbn; try discriminate. eauto. Qed.

Lemma is_zero_finite (x : f32) : is_zero x = true -> is_finite x = true.
Proof. destruct x; cbn; congruence. Qed.

Lemma not_nan_not_inf_finite (x : f32) :
  is_nan x = false -> is_inf x = false -> is_finite x = true.
Proof. destruct x; cbn; congruence. Qed.

(** ** Digits *)

Lemma digits2_pos_bounds (p : positive) :
  2 ^ (Zpos (digits2_pos p) - 1) <= Zpos p < 2 ^ Zpos (digits2_pos p).
Proof.
  induction p as [p IH|p IH|]; cbn [digits2_pos].
  - rewrite Pos2Z.inj_succ.
    replace (Z.succ (Zpos (digits2_pos p)) - 1) with (Z.succ (Zpos (digits2_pos p) - 1)) by lia.
    rewrite !Z.pow_succ_r by lia. lia.
  - rewrite Pos2Z.inj_succ.
    replace (Z.succ (Zpos (digits2_pos p)) - 1) with (Z.succ (Zpos (digits2_pos p) - 1)) by lia.
    rewrite !Z.pow_succ_r by lia. lia.
  - cbn. lia.
Qed.

Lemma Zdigits2_log2 (m : Z) : 0 < m -> Zdigits2 m = Z.log2 m + 1.
Proof.
  destruct m as [|p|p]; try lia. intros _. cbn [Zdigits2].
  pose proof (digits2_pos_bounds p) as H.
  assert (Z.log2 (Zpos p) = Zpos (digits2_pos p) - 1); [|lia].
  apply Z.log2_unique; [lia|].
  replace (Z.succ (Zpos (digits2_pos p) - 1)) with (Zpos (digits2_pos p)) by lia.
  exact H.
Qed.

Lemma Zdigits2_nonneg (m : Z) : 0 <= Zdigits2 m.
Proof. destruct m; cbn; lia. Qed.

Lemma Zdigits2_pos (m : Z) : 0 < m -> 0 < Zdigits2 m.
Proof. destruct m; cbn; lia. Qed.

Lemma Zdigits2_le (a b : Z) : 0 <= a -> a <= b -> Zdigits2 a <= Zdigits2 b.
Proof.
  intros Ha Hab. destruct (Z.eq_dec a 0) as [->|Hne].
  - apply Zdigits2_nonneg.
  - rewrite !Zdigits2_log2 by lia.
    pose proof (Z.log2_le_mono a b Hab). lia.
Qed.

(** Shifting right by [n] bits drops [n] digits. *)
Lemma Zdigits2_shiftr (m n : Z) :
  0 < m -> 0 <= n -> n < Zdigits2 m ->
  0 < m / 2 ^ n /\ Zdigits2 (m / 2 ^ n) = Zdigits2 m - n.
Proof.
  intros Hm Hn Hlt. rewrite Zdigits2_log2 in Hlt by lia.
  rewrite <- Z.shiftr_div_pow2 by lia.
  assert (Hq : 0 < Z.shiftr m n).
  { assert (0 <= Z.shiftr m n) by (apply Z.shiftr_nonneg; lia).
    assert (Z.shiftr m n <> 0); [|lia].
    rewrite Z.shiftr_eq_0_iff. lia. }
  split; [exact Hq|].
  rewrite !Zdigits2_log2 by lia.
  rewrite Z.log2_shiftr by lia. lia.
Qed.

Lemma Zdigits2_shiftr_zero (m n : Z) :
  0 <= m -> 0 <= n -> Zdigits2 m <= n -> m / 2 ^ n = 0.
Proof.
  intros Hm Hn Hle. destruct (Z.eq_dec m 0) as [->|Hne].
  - apply Z.div_0_l. apply Z.pow_nonzero; lia.
  - rewrite Zdigits2_log2 in Hle by lia.
    rewrite <- Z.shiftr_div_pow2 by lia.
    apply Z.shiftr_eq_0; lia.
Qed.

Lemma Zdigits2_shiftl (m n : Z) :
  0 < m -> 0 <= n -> Zdigits2 (m * 2 ^ n) = Zdigits2 m + n.
Proof.
  intros Hm Hn.
  assert (0 < 2 ^ n) by (apply Z.pow_pos_nonneg; lia).
  rewrite !Zdigits2_log2 by nia.
  rewrite <- Z.shiftl_mul_pow2 by lia.
  rewrite Z.log2_shiftl by lia. lia.
Qed.

Lemma Zdigits2_pow2 (k : Z) : 0 <= k -> Zdigits2 (2 ^ k) = k + 1.
Proof.
  intros Hk. rewrite <- (Z.mul_1_l (2 ^ k)).
  rewrite Zdigits2_shiftl by lia. change (Zdigits2 1) with 1. lia.
Qed.

Lemma Zdigits2_succ (m : Z) :
  0 <= m -> Zdigits2 m <= Zdigits2 (m + 1) <= Zdigits2 m + 1.
Proof.
  intros Hm. destruct (Z.eq_dec m 0) as [->|Hne]; [cbn; lia|].
  rewrite !Zdigits2_log2 by lia.
  pose proof (Z.log2_succ_le m). pose proof (Z.log2_le_mono m (m + 1)).
  unfold Z.succ in *. lia.
Qed.

Lemma Zdigits2_mul (a b : Z) :
  0 < a -> 0 < b ->
  Zdigits2 a + Zdigits2 b - 1 <= Zdigits2 (a * b) <= Zdigits2 a + Zdigits2 b.
Proof.
  intros Ha Hb. rewrite !Zdigits2_log2 by nia.
  pose proof (Z.log2_mul_below a b Ha Hb).
  pose proof (Z.log2_mul_above a b). lia.
Qed.

Lemma log2_sqrt (a : Z) : 0 < a -> Z.log2 (Z.sqrt a) = Z.log2 a / 2.
Proof.
  intros Ha.
  pose proof (Z.log2_spec a Ha) as [Hlo Hhi].
  pose proof (Z.log2_nonneg a) as Hk.
  set (k := Z.log2 a) in *. set (j := k / 2).
  assert (Hj : 2 * j <= k < 2 * j + 2).
  { subst j. pose proof (Z.div_mod k 2). pose proof (Z.mod_pos_bound k 2). lia. }
  assert (Hj0 : 0 <= j) by lia.
  apply Z.log2_unique; [exact Hj0|].
  assert (Hsq : forall t, 0 <= t -> 2 ^ t * 2 ^ t = 2 ^ (2 * t)).
  { intros t Ht. rewrite <- Z.pow_add_r by lia. f_equal. lia. }
  split.
  - apply Z.sqrt_le_square; [lia|apply Z.pow_nonneg; lia|].
    rewrite Hsq by lia.
    apply Z.le_trans with (2 ^ k); [apply Z.pow_le_mono_r; lia|exact Hlo].
  - apply Z.sqrt_lt_square; [lia|apply Z.pow_nonneg; lia|].
    rewrite Hsq by lia.
    apply Z.lt_le_trans with (2 ^ Z.succ k); [exact Hhi|].
    apply Z.pow_le_mono_r; lia.
Qed.

Lemma Zdigits2_sqrt (a : Z) :
  0 < a -> 0 < Z.sqrt a /\ Zdigits2 (Z.sqrt a) = (Zdigits2 a + 1) / 2.
Proof.
  intros Ha.
  assert (Hs : 0 < Z.sqrt a) by (apply Z.sqrt_pos; exact Ha).
  split; [exact Hs|].
  rewrite !Zdigits2_log2, log2_sqrt by lia.
  replace (Z.log2 a + 1 + 1) with (Z.log2 a + 1 * 2) by lia.
  rewrite Z.div_add by lia. reflexivity.
Qed.

(** Digits of the quotient of a power of two by a positive number. *)
Lemma Zdigits2_div_pow2 (t b : Z) :
  0 <= t -> 0 < b ->
  let q := 2 ^ t / b in
  0 <= q /\
  (Zdigits2 b <= t -> t + 1 - Zdigits2 b <= Zdigits2 q) /\
  Zdigits2 q <= Z.max (t + 2 - Zdigits2 b) 0.
Proof.
  intros Ht Hb q.
  assert (Hpt : 0 < 2 ^ t) by (apply Z.pow_pos_nonneg; lia).
  assert (Hq0 : 0 <= q) by (apply Z.div_pos; lia).
  pose proof (Zdigits2_pos b Hb) as Hdb.
  assert (Hbb : 2 ^ (Zdigits2 b - 1) <= b < 2 ^ Zdigits2 b).
  { rewrite Zdigits2_log2 by lia.
    pose proof (Z.log2_spec b Hb) as Hs.
    replace (Z.log2 b + 1 - 1) with (Z.log2 b) by lia.
    unfold Z.succ in Hs. exact Hs. }
  split; [exact Hq0|]. split.
  - intros Hle.
    assert (Hlow : 2 ^ (t - Zdigits2 b) <= q).
    { apply Z.div_le_lower_bound; [lia|].
      apply Z.le_trans with (2 ^ Zdigits2 b * 2 ^ (t - Zdigits2 b)).
      - apply Z.mul_le_mono_nonneg_r; [apply Z.pow_nonneg; lia|lia].
      - rewrite <- Z.pow_add_r by lia.
        replace (Zdigits2 b + (t - Zdigits2 b)) with t by lia. lia. }
    pose proof (Zdigits2_le (2 ^ (t - Zdigits2 b)) q) as Hmono.
    rewrite Zdigits2_pow2 in Hmono by lia.
    assert (0 <= 2 ^ (t - Zdigits2 b)) by (apply Z.pow_nonneg; lia).
    lia.
  - destruct (Z.eq_dec q 0) as [->|Hq]; [cbn; lia|].
    assert (Hqb : q * b <= 2 ^ t).
    { subst q. rewrite Z.mul_comm. apply Z.mul_div_le. lia. }
    assert (Hle : q * 2 ^ (Zdigits2 b - 1) <= 2 ^ t) by nia.
    pose proof (Zdigits2_le (q * 2 ^ (Zdigits2 b - 1)) (2 ^ t)) as Hmono.
    rewrite Zdigits2_shiftl, Zdigits2_pow2 in Hmono by lia.
    assert (0 <= q * 2 ^ (Zdigits2 b - 1)).
    { apply Z.mul_nonneg_nonneg; [lia|apply Z.pow_nonneg; lia]. }
    lia.
Qed.

(** ** Shifts *)

Lemma iter_pos_nat {A : Type} (f : A -> A) (p : positive) (x : A) :
  iter_pos f p x = Nat.iter (Pos.to_nat p) f x.
Proof.
  revert x. induction p as [p IH|p IH|]; intros x; cbn [iter_pos].
  - rewrite !IH, Pos2Nat.inj_xI.
    replace (S (2 * Pos.to_nat p))%nat with (Pos.to_nat p + (Pos.to_nat p + 1))%nat by lia.
    rewrite !Nat.iter_add. reflexivity.
  - rewrite !IH, Pos2Nat.inj_xO.
    replace (2 * Pos.to_nat p)%nat with (Pos.to_nat p + Pos.to_nat p)%nat by lia.
    rewrite Nat.iter_add. reflexivity.
  - reflexivity.
Qed.

Lemma shr_1_m (r : shr_record) :
  0 <= shr_m r -> shr_m (shr_1 r) = shr_m r / 2.
Proof.
  destruct r as [m r s]. cbn [shr_m]. intros Hm.
  destruct m as [|[p|p|]|p]; cbn [shr_1 shr_m]; try lia.
  - reflexivity.
  - apply Z.div_unique with (r := 1); lia.
  - apply Z.div_unique with (r := 0); lia.
  - reflexivity.
Qed.

Lemma shr_iter_m (n : nat) (r : shr_record) :
  0 <= shr_m r -> shr_m (Nat.iter n shr_1 r) = shr_m r / 2 ^ Z.of_nat n.
Proof.
  intros Hm. induction n as [|n IH].
  - cbn. rewrite Z.div_1_r. reflexivity.
  - change (Nat.iter (S n) shr_1 r) with (shr_1 (Nat.iter n shr_1 r)).
    rewrite shr_1_m.
    + rewrite IH, Nat2Z.inj_succ, Z.pow_succ_r by lia.
      rewrite Z.div_div by (try apply Z.pow_pos_nonneg; lia).
      f_equal. lia.
    + rewrite IH. apply Z.div_pos; [lia|apply Z.pow_pos_nonneg; lia].
Qed.

(** Shifting out [n] zero bits is exact. *)
Lemma shr_iter_exact (n : nat) (m : Z) :
  0 <= m ->
  Nat.iter n shr_1 (Build_shr_record (m * 2 ^ Z.of_nat n) false false)
  = Build_shr_record m false false.
Proof.
  intros Hm. induction n as [|n IH].
  - cbn. f_equal. lia.
  - rewrite Nat.iter_succ_r.
    replace (shr_1 (Build_shr_record (m * 2 ^ Z.of_nat (S n)) false false))
      with (Build_shr_record (m * 2 ^ Z.of_nat n) false false); [exact IH|].
    rewrite Nat2Z.inj_succ, Z.pow_succ_r by lia.
    assert (0 < 2 ^ Z.of_nat n) by (apply Z.pow_pos_nonneg; lia).
    remember (m * 2 ^ Z.of_nat n) as k eqn:Hk.
    replace (m * (2 * 2 ^ Z.of_nat n)) with (2 * k) by lia.
    assert (0 <= k) by nia.
    destruct k as [|p|p]; cbn; try reflexivity; lia.
Qed.

(** The mantissa and exponent that [shr] returns on a non-negative mantissa. *)
Lemma shr_spec (r : shr_record) (e n : Z) :
  0 <= shr_m r ->
  shr_m (fst (shr r e n)) = (if 0 <? n then shr_m r / 2 ^ n else shr_m r)
  /\ snd (shr r e n) = (if 0 <? n then e + n else e).
Proof.
  intros Hm. destruct n as [|p|p]; cbn [shr fst snd Z.ltb Z.compare]; auto.
  rewrite iter_pos_nat, shr_iter_m by assumption.
  rewrite positive_nat_Z. auto.
Qed.

Lemma pos_iter_xO (m d : positive) :
  Zpos (Pos.iter xO m d) = Zpos m * 2 ^ Zpos d.
Proof.
  induction d as [|d IH] using Pos.peano_ind.
  - cbn [Pos.iter]. rewrite Pos2Z.inj_xO. lia.
  - rewrite Pos.iter_succ, Pos2Z.inj_xO, IH, Pos2Z.inj_succ, Z.pow_succ_r by lia.
    lia.
Qed.

Lemma shl_align_spec (m : positive) (e e' : Z) :
  Zpos (fst (shl_align m e e')) = Zpos m * 2 ^ (e - snd (shl_align m e e'))
  /\ snd (shl_align m e e') = Z.min e e'.
Proof.
  unfold shl_align. destruct (e' - e) as [|d|d] eqn:E; cbn [fst snd].
  - rewrite Z.sub_diag. split; lia.
  - rewrite Z.sub_diag. split; lia.
  - rewrite pos_iter_xO. split; [|lia]. f_equal. f_equal. lia.
Qed.

Lemma shl_align_digits (m : positive) (e e' : Z) :
  Zdigits2 (Zpos (fst (shl_align m e e'))) + snd (shl_align m e e')
  = Zpos (digits2_pos m) + e.
Proof.
  destruct (shl_align_spec m e e') as [Hm He]. rewrite Hm.
  rewrite Zdigits2_shiftl by lia. cbn [Zdigits2]. lia.
Qed.

(** ** Rounding *)

Lemma fexp_eq (e : Z) : fexp prec emax e = Z.max (e - 24) (-149).
Proof. reflexivity. Qed.

Lemma bounded_inv (m : positive) (e : Z) :
  bounded prec emax m e = true ->
  e = Z.max (Zpos (digits2_pos m) + e - 24) (-149) /\ e <= 104.
Proof.
  unfold bounded, canonical_mantissa. rewrite fexp_eq. intros H.
  apply andb_prop in H. destruct H as [H1 H2].
  apply Z.eqb_eq in H1. apply Z.leb_le in H2.
  change (emax - prec) with 104 in H2. lia.
Qed.

Lemma shr_record_of_loc_m (m : Z) (l : location) :
  shr_m (shr_record_of_loc m l) = m.
Proof. destruct l as [|[]]; reflexivity. Qed.

Lemma round_nearest_even_cases (m : Z) (l : location) :
  round_nearest_even m l = m \/ round_nearest_even m l = m + 1.
Proof.
  destruct l as [|[]]; cbn [round_nearest_even]; auto.
  destruct (Z.even m); auto.
Qed.

(** What [shr_fexp] returns on a non-negative mantissa whose exponent does
    not exceed the target exponent. *)
Lemma shr_fexp_spec (m e : Z) (l : location) :
  0 <= m -> e <= fexp prec emax (Zdigits2 m + e) ->
  let M := Zdigits2 m + e in
  let q := shr_m (fst (shr_fexp prec emax m e l)) in
  snd (shr_fexp prec emax m e l) = fexp prec emax M
  /\ ((0 < q /\ Zdigits2 q + fexp prec emax M = M /\ -148 <= M)
      \/ (q = 0 /\ M <= -149)).
Proof.
  intros Hm Hpre M q. subst q. unfold shr_fexp.
  pose proof (shr_spec (shr_record_of_loc m l) e (fexp prec emax M - e)) as S.
  rewrite shr_record_of_loc_m in S. specialize (S Hm). destruct S as [Sm Se].
  fold M. rewrite Sm, Se. clear Sm Se.
  pose proof (Zdigits2_nonneg m) as Hd.
  rewrite fexp_eq in *. fold M in Hpre.
  destruct (Z.ltb_spec 0 (Z.max (M - 24) (-149) - e)) as [Hn|Hn].
  - split; [lia|].
    destruct (Z_lt_le_dec (Z.max (M - 24) (-149) - e) (Zdigits2 m)) as [Hlt|Hge].
    + left. assert (0 < m) by (destruct m; cbn in *; lia).
      destruct (Zdigits2_shiftr m (Z.max (M - 24) (-149) - e)) as [Hq Hdq];
        unfold M in *; lia.
    + right. split; [apply Zdigits2_shiftr_zero; lia|unfold M in *; lia].
  - split; [lia|].
    destruct (Z.eq_dec m 0) as [->|Hne].
    + right. cbn in M. unfold M in *. lia.
    + left. assert (0 < Zdigits2 m) by (apply Zdigits2_pos; lia).
      unfold M in *. lia.
Qed.

(** The rounding lemma: on a non-negative mantissa presented at an
    exponent not above the target one, [binary_round_aux] returns a zero, an
    infinity or a valid finite number of the given sign, and the binade of
    the result is that of the input or the next one. *)
Lemma binary_round_aux_spec (s : bool) (m e : Z) (l : location) :
  0 <= m -> e <= fexp prec emax (Zdigits2 m + e) ->
  match binary_round_aux prec emax s m e l with
  | S754_zero s' => s' = s /\ Zdigits2 m + e <= -149
  | S754_infinity s' => s' = s /\ 128 <= Zdigits2 m + e
  | S754_finite s' m' e' =>
      s' = s /\ bounded prec emax m' e' = true /\
      Z.max (Zdigits2 m + e) (-148) <= Zpos (digits2_pos m') + e'
        <= Z.max (Zdigits2 m + e) (-149) + 1
  | S754_nan => False
  end.
Proof.
  intros Hm Hpre. unfold binary_round_aux.
  pose proof (shr_fexp_spec m e l Hm Hpre) as S1. cbv zeta in S1.
  destruct (shr_fexp prec emax m e l) as [r1 e1]. cbn [fst snd] in S1.
  set (M := Zdigits2 m + e) in *.
  destruct S1 as [He1 Hq].
  set (m1 := round_nearest_even (shr_m r1) (loc_of_shr_record r1)).
  assert (Hm1 : m1 = shr_m r1 \/ m1 = shr_m r1 + 1)
    by apply round_nearest_even_cases.
  assert (Hm1pos : 0 <= m1) by lia.
  assert (Hpre1 : e1 <= fexp prec emax (Zdigits2 m1 + e1)).
  { rewrite He1, !fexp_eq.
    destruct Hq as [(Hq & Hd & HM)|(Hq & HM)].
    - assert (Zdigits2 (shr_m r1) <= Zdigits2 m1).
      { destruct Hm1 as [->| ->]; [lia|apply Zdigits2_succ; lia]. }
      rewrite fexp_eq in Hd. lia.
    - pose proof (Zdigits2_nonneg m1). lia. }
  pose proof (shr_fexp_spec m1 e1 loc_Exact Hm1pos Hpre1) as S2. cbv zeta in S2.
  destruct (shr_fexp prec emax m1 e1 loc_Exact) as [r2 e2]. cbn [fst snd] in S2.
  destruct S2 as [He2 Hq2].
  assert (HD : (shr_m r1 = 0 /\ M <= -149 /\ Zdigits2 m1 <= 1) \/
               (-148 <= M /\ M <= Zdigits2 m1 + e1 <= M + 1)).
  { destruct Hq as [(Hq & Hd & HM)|(Hq & HM)].
    - right. rewrite <- He1 in Hd. split; [lia|].
      destruct Hm1 as [->| ->]; [lia|].
      pose proof (Zdigits2_succ (shr_m r1)). lia.
    - left. repeat split; try lia.
      destruct Hm1 as [->| ->]; rewrite Hq; cbn; lia. }
  rewrite fexp_eq in *.
  destruct (shr_m r2) as [|m2|m2] eqn:Em2.
  - split; [reflexivity|].
    destruct Hq2 as [(Hq2 & _)|(_ & HM2)]; [lia|].
    pose proof (Zdigits2_nonneg m1). lia.
  - destruct Hq2 as [(_ & Hd2 & HM2)|(Hq2 & _)]; [|lia].
    cbn [Zdigits2] in Hd2.
    change (emax - prec) with 104.
    destruct (Z.leb_spec e2 104) as [Hle|Hgt].
    + split; [reflexivity|]. split.
      * unfold bounded, canonical_mantissa. rewrite fexp_eq.
        change (emax - prec) with 104.
        apply andb_true_intro. split; [apply Z.eqb_eq|apply Z.leb_le]; lia.
      * lia.
    + split; [reflexivity|]. lia.
  - destruct Hq2 as [(Hq2 & _)|(Hq2 & _)]; lia.
Qed.

Lemma binary_round_aux_not_nan (s : bool) (m e : Z) (l : location) :
  0 <= m -> is_nan (binary_round_aux prec emax s m e l) = false.
Proof.
  intros Hm. unfold binary_round_aux, shr_fexp.
  pose proof (shr_spec (shr_record_of_loc m l) e
                (fexp prec emax (Zdigits2 m + e) - e)) as S1.
  rewrite shr_record_of_loc_m in S1. destruct (S1 Hm) as [Sm _]. clear S1.
  destruct (shr (shr_record_of_loc m l) e (fexp prec emax (Zdigits2 m + e) - e))
    as [r1 e1]. cbn [fst] in Sm.
  assert (Hq : 0 <= shr_m r1).
  { rewrite Sm. destruct (Z.ltb_spec 0 (fexp prec emax (Zdigits2 m + e) - e));
      [|exact Hm].
    apply Z.div_pos; [exact Hm|].
    apply Z.pow_pos_nonneg; lia. }
  set (m1 := round_nearest_even (shr_m r1) (loc_of_shr_record r1)).
  assert (Hm1 : 0 <= m1).
  { destruct (round_nearest_even_cases (shr_m r1) (loc_of_shr_record r1));
      subst m1; lia. }
  pose proof (shr_spec (shr_record_of_loc m1 loc_Exact) e1
                (fexp prec emax (Zdigits2 m1 + e1) - e1)) as S2.
  rewrite shr_record_of_loc_m in S2. destruct (S2 Hm1) as [Sm2 _]. clear S2.
  destruct (shr (shr_record_of_loc m1 loc_Exact) e1
              (fexp prec emax (Zdigits2 m1 + e1) - e1)) as [r2 e2].
  cbn [fst] in Sm2.
  assert (Hq2 : 0 <= shr_m r2).
  { rewrite Sm2.
    destruct (Z.ltb_spec 0 (fexp prec emax (Zdigits2 m1 + e1) - e1));
      [|exact Hm1].
    apply Z.div_pos; [exact Hm1|].
    apply Z.pow_pos_nonneg; lia. }
  destruct (shr_m r2) as [|p|p]; try reflexivity; [|lia].
  destruct (e2 <=? emax - prec); reflexivity.
Qed.

(** Rounding a canonical mantissa that was shifted left by [k] bits gives
    the number back. *)
Lemma binary_round_aux_exact (s : bool) (m : positive) (e k : Z) :
  bounded prec emax m e = true -> 0 < k ->
  binary_round_aux prec emax s (Zpos m * 2 ^ k) (e - k) loc_Exact
  = S754_finite s m e.
Proof.
  intros Hb Hk. pose proof (bounded_inv m e Hb) as [Hc He].
  assert (Hp : 0 < 2 ^ k) by (apply Z.pow_pos_nonneg; lia).
  assert (Hd : Zdigits2 (Zpos m * 2 ^ k) = Zpos (digits2_pos m) + k).
  { rewrite Zdigits2_shiftl by lia. reflexivity. }
  unfold binary_round_aux, shr_fexp. rewrite Hd, fexp_eq.
  replace (Z.max (Zpos (digits2_pos m) + k + (e - k) - 24) (-149) - (e - k))
    with k by lia.
  cbn [shr_record_of_loc].
  destruct k as [|p|p]; try lia. cbn [shr].
  rewrite iter_pos_nat.
  replace (Zpos m * 2 ^ Zpos p) with (Zpos m * 2 ^ Z.of_nat (Pos.to_nat p))
    by (rewrite positive_nat_Z; reflexivity).
  rewrite shr_iter_exact by lia.
  cbn [shr_m loc_of_shr_record round_nearest_even shr_record_of_loc Zdigits2].
  rewrite fexp_eq.
  replace (Z.max (Zpos (digits2_pos m) + (e - Zpos p + Zpos p) - 24) (-149)
           - (e - Zpos p + Zpos p)) with 0 by lia.
  cbn [shr shr_m].
  change (emax - prec) with 104.
  destruct (Z.leb_spec (e - Zpos p + Zpos p) 104); [|lia].
  f_equal. lia.
Qed.

(** [binary_round] is the rounding lemma at an exact location. *)
Lemma binary_round_spec (s : bool) (m : positive) (e : Z) :
  match binary_round prec emax s m e with
  | S754_zero s' => s' = s /\ Zpos (digits2_pos m) + e <= -149
  | S754_infinity s' => s' = s /\ 128 <= Zpos (digits2_pos m) + e
  | S754_finite s' m' e' =>
      s' = s /\ bounded prec emax m' e' = true /\
      Z.max (Zpos (digits2_pos m) + e) (-148) <= Zpos (digits2_pos m') + e'
        <= Z.max (Zpos (digits2_pos m) + e) (-149) + 1
  | S754_nan => False
  end.
Proof.
  unfold binary_round.
  pose proof (shl_align_digits m e (fexp prec emax (Zpos (digits2_pos m) + e))) as Hd.
  pose proof (shl_align_spec m e (fexp prec emax (Zpos (digits2_pos m) + e))) as [_ He].
  destruct (shl_align m e (fexp prec emax (Zpos (digits2_pos m) + e))) as [mz ez].
  cbn [fst snd] in *.
  pose proof (binary_round_aux_spec s (Zpos mz) ez loc_Exact) as H.
  rewrite Hd in H. apply H; lia.
Qed.

(** ** Addition *)

Lemma fadd_finite (sx : bool) (mx : positive) (ex : Z)
                  (sy : bool) (my : positive) (ey : Z) :
  fadd (S754_finite sx mx ex) (S754_finite sy my ey)
  = binary_normalize prec emax
      (cond_Zopp sx (Zpos mx * 2 ^ (ex - Z.min ex ey))
       + cond_Zopp sy (Zpos my * 2 ^ (ey - Z.min ex ey)))
      (Z.min ex ey) false.
Proof.
  unfold fadd, SFadd.
  destruct (shl_align_spec mx ex (Z.min ex ey)) as [Hx Hx'].
  destruct (shl_align_spec my ey (Z.min ex ey)) as [Hy Hy'].
  rewrite Hx, Hy, Hx', Hy'.
  replace (Z.min ex (Z.min ex ey)) with (Z.min ex ey) by lia.
  replace (Z.min ey (Z.min ex ey)) with (Z.min ex ey) by lia.
  reflexivity.
Qed.

Lemma fadd_valid (x y : f32) :
  valid x = true -> valid y = true -> valid (fadd x y) = true.
Proof.
  intros Hx Hy.
  destruct x as [sx|sx| |sx mx ex], y as [sy|sy| |sy my ey];
    try (destruct sx, sy; cbn; auto; fail); try exact Hx; try exact Hy.
  rewrite fadd_finite.
  destruct (cond_Zopp sx (Zpos mx * 2 ^ (ex - Z.min ex ey))
            + cond_Zopp sy (Zpos my * 2 ^ (ey - Z.min ex ey))) as [|m|m];
    cbn [binary_normalize]; [reflexivity| |].
  - pose proof (binary_round_spec false m (Z.min ex ey)) as H.
    destruct (binary_round prec emax false m (Z.min ex ey)); cbn; tauto.
  - pose proof (binary_round_spec true m (Z.min ex ey)) as H.
    destruct (binary_round prec emax true m (Z.min ex ey)); cbn; tauto.
Qed.

(** A sum is the negative zero only when both summands are. *)
Lemma fadd_neg_zero (x y : f32) :
  valid x = true -> valid y = true ->
  fadd x y = S754_zero true -> x = S754_zero true /\ y = S754_zero true.
Proof.
  intros Hx Hy.
  destruct x as [sx|sx| |sx mx ex], y as [sy|sy| |sy my ey];
    try (destruct sx, sy; cbn; intros H; try discriminate H; auto; fail);
    try (cbn; intros H; discriminate H).
  rewrite fadd_finite.
  apply bounded_inv in Hx, Hy.
  destruct (cond_Zopp sx (Zpos mx * 2 ^ (ex - Z.min ex ey))
            + cond_Zopp sy (Zpos my * 2 ^ (ey - Z.min ex ey))) as [|m|m];
    cbn [binary_normalize]; [discriminate| |].
  - pose proof (binary_round_spec false m (Z.min ex ey)) as H.
    destruct (binary_round prec emax false m (Z.min ex ey)); try discriminate.
    destruct H as [-> _]. discriminate.
  - pose proof (binary_round_spec true m (Z.min ex ey)) as H.
    destruct (binary_round prec emax true m (Z.min ex ey)); try discriminate.
    destruct H as [_ H]. pose proof (Pos2Z.is_pos (digits2_pos m)). lia.
Qed.

(** Adding a zero to a number that is not the negative zero returns it. *)
Lemma fadd_zero_r (x : f32) (s : bool) :
  x <> S754_zero true -> fadd x (S754_zero s) = x.
Proof.
  destruct x as [[]|sx| |sx mx ex]; destruct s; cbn; congruence.
Qed.

Lemma fadd_f0_l (x : f32) : fadd f0 x = if is_zero x then f0 else x.
Proof. destruct x as [[]|[]| |s m e]; reflexivity. Qed.

Lemma fadd_f0_not_neg_zero (x : f32) : fadd f0 x <> S754_zero true.
Proof. destruct x as [[]|[]| |s m e]; cbn; discriminate. Qed.

(** A finite sum has finite terms only. *)
Lemma fadd_finite_inv (x y : f32) :
  is_finite (fadd x y) = true -> is_finite x = true /\ is_finite y = true.
Proof.
  destruct x as [sx|sx| |sx mx ex], y as [sy|sy| |sy my ey]; cbn [is_finite];
    auto; try (destruct sx, sy; cbn; intros H; discriminate H);
    cbn; intros H; discriminate H.
Qed.

(** The binade of a sum of two positive numbers is at least that of each. *)
Lemma fadd_pos_pos (mx : positive) (ex : Z) (my : positive) (ey : Z) :
  match fadd (S754_finite false mx ex) (S754_finite false my ey) with
  | S754_zero s => s = false /\ Zpos (digits2_pos mx) + ex <= -149
                   /\ Zpos (digits2_pos my) + ey <= -149
  | S754_infinity s => s = false
  | S754_finite s m e =>
      s = false /\ bounded prec emax m e = true /\
      Zpos (digits2_pos mx) + ex <= Zpos (digits2_pos m) + e /\
      Zpos (digits2_pos my) + ey <= Zpos (digits2_pos m) + e
  | S754_nan => False
  end.
Proof.
  rewrite fadd_finite. cbn [cond_Zopp].
  set (ez := Z.min ex ey).
  assert (Hpx : 0 < 2 ^ (ex - ez)) by (apply Z.pow_pos_nonneg; lia).
  assert (Hpy : 0 < 2 ^ (ey - ez)) by (apply Z.pow_pos_nonneg; lia).
  assert (Dx : Zdigits2 (Zpos mx * 2 ^ (ex - ez)) = Zdigits2 (Zpos mx) + (ex - ez))
    by (apply Zdigits2_shiftl; lia).
  assert (Dy : Zdigits2 (Zpos my * 2 ^ (ey - ez)) = Zdigits2 (Zpos my) + (ey - ez))
    by (apply Zdigits2_shiftl; lia).
  destruct (Zpos mx * 2 ^ (ex - ez) + Zpos my * 2 ^ (ey - ez)) as [|m|m] eqn:E;
    try nia.
  cbn [binary_normalize].
  assert (Hx : Zdigits2 (Zpos mx * 2 ^ (ex - ez)) <= Zdigits2 (Zpos m))
    by (apply Zdigits2_le; nia).
  assert (Hy : Zdigits2 (Zpos my * 2 ^ (ey - ez)) <= Zdigits2 (Zpos m))
    by (apply Zdigits2_le; nia).
  rewrite Dx in Hx. rewrite Dy in Hy. cbn [Zdigits2] in Hx, Hy.
  pose proof (binary_round_spec false m ez) as H.
  clearbody ez.
  destruct (binary_round prec emax false m ez); try tauto;
    repeat split; try tauto; lia.
Qed.

Lemma fadd_nonneg (x y : f32) :
  nonneg x = true -> nonneg y = true -> nonneg (fadd x y) = true.
Proof.
  destruct x as [sx|[]| |[] mx ex], y as [sy|[]| |[] my ey];
    cbn [nonneg negb]; try discriminate; intros _ _;
    try reflexivity; try (destruct sx, sy; reflexivity).
  pose proof (fadd_pos_pos mx ex my ey) as H.
  destruct (fadd (S754_finite false mx ex) (S754_finite false my ey));
    cbn [nonneg]; try contradiction.
  - reflexivity.
  - subst s. reflexivity.
  - destruct H as [-> _]. reflexivity.
Qed.

Lemma fadd_zero_or_ge1 (x y : f32) :
  zero_or_ge1 x = true -> is_01 y = true -> zero_or_ge1 (fadd x y) = true.
Proof.
  intros Hx Hy. destruct (is_01_cases y Hy) as [-> | ->].
  - destruct x as [[]|[]| |[] m e]; try discriminate; exact Hx.
  - destruct x as [[]|[]| |[] m e]; try discriminate; try reflexivity.
    cbn [zero_or_ge1 mag] in Hx. apply Z.leb_le in Hx.
    pose proof (fadd_pos_pos m e 8388608 (-23)) as H. fold f1 in H.
    destruct (fadd (S754_finite false m e) f1) as [s|s| |s m' e'];
      try contradiction.
    + lia.
    + subst. reflexivity.
    + destruct H as (-> & _ & Hlo & _). cbn [zero_or_ge1 mag].
      apply Z.leb_le. lia.
Qed.

(** A sum of zeros and ones that contains a one is at least 1. *)
Lemma fadd_ge1 (x y : f32) :
  zero_or_ge1 x = true -> is_zero x = false -> is_01 y = true ->
  is_zero (fadd x y) = false.
Proof.
  intros Hx Hnz Hy.
  pose proof (fadd_zero_or_ge1 x y Hx Hy) as H.
  destruct (is_01_cases y Hy) as [-> | ->].
  - destruct x as [[]|[]| |[] m e]; try discriminate; reflexivity.
  - destruct x as [[]|[]| |[] m e]; try discriminate; try reflexivity.
    cbn [zero_or_ge1 mag] in Hx. apply Z.leb_le in Hx.
    pose proof (fadd_pos_pos m e 8388608 (-23)) as H'. fold f1 in H'.
    destruct (fadd (S754_finite false m e) f1); try reflexivity. lia.
Qed.

(** ** Multiplication *)

Lemma fmul_comm (x y : f32) : fmul x y = fmul y x.
Proof.
  destruct x as [sx|sx| |sx mx ex], y as [sy|sy| |sy my ey]; cbn;
    try rewrite (xorb_comm sx sy); try reflexivity.
  rewrite (Pos.mul_comm mx my), (Z.add_comm ex ey). reflexivity.
Qed.

(** The product of two valid finite numbers meets the precondition of the
    rounding lemma. *)
Lemma fmul_finite_spec (sx : bool) (mx : positive) (ex : Z)
                       (sy : bool) (my : positive) (ey : Z) :
  bounded prec emax mx ex = true -> bounded prec emax my ey = true ->
  match fmul (S754_finite sx mx ex) (S754_finite sy my ey) with
  | S754_zero s => s = xorb sx sy
  | S754_infinity s =>
      s = xorb sx sy /\
      127 <= (Zpos (digits2_pos mx) + ex) + (Zpos (digits2_pos my) + ey)
  | S754_finite s m e =>
      s = xorb sx sy /\ bounded prec emax m e = true /\
      Zpos (digits2_pos m) + e
        <= Z.max ((Zpos (digits2_pos mx) + ex) + (Zpos (digits2_pos my) + ey)) (-149) + 1
  | S754_nan => False
  end.
Proof.
  intros Hx Hy. apply bounded_inv in Hx, Hy.
  unfold fmul, SFmul.
  pose proof (Zdigits2_mul (Zpos mx) (Zpos my) eq_refl eq_refl) as D.
  rewrite <- Pos2Z.inj_mul in D. cbn [Zdigits2] in D.
  pose proof (Pos2Z.is_pos (digits2_pos mx)) as Px.
  pose proof (Pos2Z.is_pos (digits2_pos my)) as Py.
  pose proof (binary_round_aux_spec (xorb sx sy) (Zpos (mx * my)) (ex + ey) loc_Exact) as H.
  cbn [Zdigits2] in H. rewrite fexp_eq in H.
  assert (H0 : 0 <= Zpos (mx * my)) by lia.
  assert (H1 : ex + ey <= Z.max (Zpos (digits2_pos (mx * my)) + (ex + ey) - 24) (-149))
    by lia.
  specialize (H H0 H1).
  destruct (binary_round_aux prec emax (xorb sx sy) (Zpos (mx * my)) (ex + ey) loc_Exact);
    repeat split; try tauto; lia.
Qed.

Lemma fmul_valid (x y : f32) :
  valid x = true -> valid y = true -> valid (fmul x y) = true.
Proof.
  intros Hx Hy.
  destruct x as [sx|sx| |sx mx ex], y as [sy|sy| |sy my ey]; try reflexivity.
  pose proof (fmul_finite_spec sx mx ex sy my ey Hx Hy) as H.
  destruct (fmul (S754_finite sx mx ex) (S754_finite sy my ey)); cbn; tauto.
Qed.

Lemma fmul_finite_not_nan (x y : f32) :
  is_finite x = true -> is_finite y = true -> is_nan (fmul x y) = false.
Proof.
  destruct x as [sx|sx| |sx mx ex], y as [sy|sy| |sy my ey];
    cbn [is_finite]; try discriminate; intros _ _; try reflexivity.
  apply binary_round_aux_not_nan. lia.
Qed.

Lemma fmul_1_r (x : f32) : valid x = true -> fmul x f1 = x.
Proof.
  intros Hx. destruct x as [sx|sx| |sx mx ex]; cbn.
  - rewrite xorb_false_r. reflexivity.
  - rewrite xorb_false_r. reflexivity.
  - reflexivity.
  - change (fmul (S754_finite sx mx ex) f1) with
      (binary_round_aux prec emax (xorb sx false) (Zpos (mx * 8388608)) (ex + -23) loc_Exact).
    rewrite xorb_false_r, Pos2Z.inj_mul.
    change (Zpos 8388608) with (2 ^ 23).
    apply (binary_round_aux_exact sx mx ex 23 Hx). lia.
Qed.

Lemma fmul_1_l (x : f32) : valid x = true -> fmul f1 x = x.
Proof. intros Hx. rewrite fmul_comm. apply fmul_1_r, Hx. Qed.

(** Zero times a finite number is a zero. *)
Lemma fmul_zero_l (s : bool) (x : f32) :
  is_finite x = true -> is_zero (fmul (S754_zero s) x) = true.
Proof. destruct x; cbn; try discriminate; reflexivity. Qed.

Lemma fmul_zero_r (x : f32) (s : bool) :
  is_finite x = true -> is_zero (fmul x (S754_zero s)) = true.
Proof. rewrite fmul_comm. apply fmul_zero_l. Qed.

Lemma fmul_fin_nonneg_0 (x : f32) : fin_nonneg x = true -> fmul x f0 = f0.
Proof. destruct x as [[]|[]| |[] m e]; cbn; try discriminate; reflexivity. Qed.

Lemma fmul_0_fin_nonneg (x : f32) : fin_nonneg x = true -> fmul f0 x = f0.
Proof. destruct x as [[]|[]| |[] m e]; cbn; try discriminate; reflexivity. Qed.

(** Small entries multiply without overflow. *)
Lemma fmul_small (x y : f32) :
  fin_small x = true -> fin_small y = true -> fin_nonneg (fmul x y) = true.
Proof.
  unfold fin_small. intros Hx Hy.
  apply andb_prop in Hx, Hy. destruct Hx as [Hx Mx], Hy as [Hy My].
  apply Z.leb_le in Mx, My.
  destruct x as [[]|[]| |[] mx ex], y as [[]|[]| |[] my ey];
    try discriminate; try reflexivity.
  cbn [fin_nonneg mag] in *.
  pose proof (fmul_finite_spec false mx ex false my ey Hx Hy) as H.
  destruct (fmul (S754_finite false mx ex) (S754_finite false my ey))
    as [s|s| |s m e]; cbn [xorb] in H; try contradiction.
  - subst. reflexivity.
  - lia.
  - destruct H as (-> & Hb & _). exact Hb.
Qed.

Lemma fmul_mod_zero_sign (x w : f32) :
  eq_mod_zero_sign (fmul (fadd f0 x) w) (fmul x w).
Proof.
  rewrite fadd_f0_l. destruct (is_zero x) eqn:Hz; [|left; reflexivity].
  destruct (is_zero_inv x Hz) as [s ->].
  destruct w as [sw|sw| |sw mw ew]; cbn.
  - right. split; reflexivity.
  - left. reflexivity.
  - left. reflexivity.
  - right. split; reflexivity.
Qed.

(** ** Square root and reciprocal *)

(** The square root of a positive finite number. *)
Lemma fsqrt_pos (m : positive) (e : Z) :
  let M := (Zpos (digits2_pos m) + e + 1) / 2 in
  match fsqrt (S754_finite false m e) with
  | S754_zero s => s = false /\ M <= -149
  | S754_infinity s => s = false /\ 128 <= M
  | S754_finite s m' e' =>
      s = false /\ bounded prec emax m' e' = true /\
      Z.max M (-148) <= Zpos (digits2_pos m') + e' <= Z.max M (-149) + 1
  | S754_nan => False
  end.
Proof.
  intros M. unfold fsqrt, SFsqrt, SFsqrt_core_binary.
  cbn [Zdigits2]. rewrite fexp_eq, !Z.div2_div.
  fold M.
  set (e' := Z.min (Z.max (M - 24) (-149)) (e / 2)).
  assert (He2 : 2 * (e / 2) <= e < 2 * (e / 2) + 2).
  { pose proof (Z.div_mod e 2). pose proof (Z.mod_pos_bound e 2). lia. }
  assert (Hs : 0 <= e - 2 * e') by lia.
  set (m' := match e - 2 * e' with
             | 0 => Zpos m
             | Zpos _ => Z.shiftl (Zpos m) (e - 2 * e')
             | Zneg _ => 0
             end).
  assert (Hm' : m' = Zpos m * 2 ^ (e - 2 * e')).
  { subst m'. destruct (e - 2 * e') as [|p|p] eqn:E; try lia.
    rewrite Z.shiftl_mul_pow2 by lia. reflexivity. }
  assert (Hp : 0 < 2 ^ (e - 2 * e')) by (apply Z.pow_pos_nonneg; lia).
  assert (Hm'pos : 0 < m') by nia.
  assert (Hd' : Zdigits2 m' = Zpos (digits2_pos m) + (e - 2 * e')).
  { rewrite Hm', Zdigits2_shiftl by lia. reflexivity. }
  pose proof (Z.sqrtrem_spec m' ltac:(lia)) as Hsr.
  pose proof (Z.sqrtrem_sqrt m') as Hfst.
  destruct (Z.sqrtrem m') as [q r]. cbn [fst] in Hfst. subst q.
  destruct (Zdigits2_sqrt m' Hm'pos) as [Hq Hdq].
  assert (HM : Zdigits2 (Z.sqrt m') + e' = M).
  { rewrite Hdq, Hd'. subst M.
    replace (Zpos (digits2_pos m) + (e - 2 * e') + 1)
      with (Zpos (digits2_pos m) + e + 1 + (- e') * 2) by lia.
    rewrite Z.div_add by lia. lia. }
  match goal with |- match binary_round_aux _ _ _ _ _ ?l with _ => _ end =>
    pose proof (binary_round_aux_spec false (Z.sqrt m') e' l) as H;
    destruct (binary_round_aux prec emax false (Z.sqrt m') e' l)
  end; rewrite HM, fexp_eq in H; apply H; lia.
Qed.

Lemma fsqrt_nonneg_cases (d : f32) :
  nonneg d = true ->
  match fsqrt d with
  | S754_zero _ => True
  | S754_infinity s => s = false
  | S754_finite s m e => s = false
  | S754_nan => False
  end.
Proof.
  destruct d as [s|[]| |[] m e]; cbn [nonneg negb]; try discriminate; intros _;
    try exact I; try reflexivity.
  pose proof (fsqrt_pos m e) as H. cbv zeta in H.
  destruct (fsqrt (S754_finite false m e)); tauto.
Qed.

(** The reciprocal of a positive finite number. *)
Lemma fdiv_1_pos (m : positive) (e : Z) :
  let My := Zpos (digits2_pos m) + e in
  match fdiv f1 (S754_finite false m e) with
  | S754_zero s => s = false
  | S754_infinity s => s = false /\ 126 <= - My
  | S754_finite s m' e' =>
      s = false /\ bounded prec emax m' e' = true /\
      Zpos (digits2_pos m') + e' <= Z.max (2 - My) (-149) + 1
  | S754_nan => False
  end.
Proof.
  intros My. unfold fdiv, f1, SFdiv, SFdiv_core_binary.
  cbn [xorb Zdigits2].
  change (Zpos (digits2_pos 8388608)) with 24.
  replace (24 + -23 - (Zpos (digits2_pos m) + e)) with (1 - My) by (subst My; lia).
  rewrite fexp_eq.
  set (e' := Z.min (Z.max (1 - My - 24) (-149)) (-23 - e)).
  assert (Hs : 0 <= -23 - e - e') by lia.
  set (m' := match -23 - e - e' with
             | 0 => 8388608
             | Zpos _ => Z.shiftl 8388608 (-23 - e - e')
             | Zneg _ => 0
             end).
  assert (Hm' : m' = 2 ^ (23 + (-23 - e - e'))).
  { subst m'. rewrite Z.pow_add_r by lia.
    destruct (-23 - e - e') as [|p|p] eqn:E; try lia.
    rewrite Z.shiftl_mul_pow2 by lia. reflexivity. }
  pose proof (Z_div_mod m' (Zpos m) ltac:(lia)) as Hdm.
  pose proof (Zdigits2_div_pow2 (23 + (-23 - e - e')) (Zpos m)
                ltac:(lia) ltac:(lia)) as Hq.
  cbv zeta in Hq. rewrite <- Hm' in Hq.
  unfold Z.div in Hq.
  destruct (Z.div_eucl m' (Zpos m)) as [q r]. cbn [fst] in Hq.
  destruct Hq as (Hq0 & Hqlo & Hqhi). cbn [Zdigits2] in Hqlo, Hqhi.
  pose proof (Zdigits2_nonneg q) as Hdq.
  match goal with |- match binary_round_aux _ _ _ _ _ ?l with _ => _ end =>
    pose proof (binary_round_aux_spec false q e' l Hq0) as H;
    destruct (binary_round_aux prec emax false q e' l)
  end; rewrite fexp_eq in H; subst My.
  - apply H. lia.
  - assert (H' : e' <= Z.max (Zdigits2 q + e' - 24) (-149)) by lia.
    specialize (H H'). split; [tauto|lia].
  - apply H. lia.
  - assert (H' : e' <= Z.max (Zdigits2 q + e' - 24) (-149)) by lia.
    specialize (H H'). repeat split; try tauto. lia.
Qed.

Lemma fdiv_1_nonneg_cases (y : f32) :
  match y with
  | S754_zero _ => True
  | S754_infinity s => s = false
  | S754_finite s m e => s = false
  | S754_nan => False
  end ->
  is_inf (fdiv f1 y) = true \/ fin_nonneg (fdiv f1 y) = true.
Proof.
  destruct y as [s|s| |s m e]; intros H; try contradiction; subst.
  - left. reflexivity.
  - right. reflexivity.
  - pose proof (fdiv_1_pos m e) as H. cbv zeta in H.
    destruct (fdiv f1 (S754_finite false m e)) as [s|s| |s m' e'];
      try contradiction.
    + right. subst s. reflexivity.
    + left. reflexivity.
    + right. destruct H as (-> & Hb & _). exact Hb.
Qed.

(** ** The reciprocal square root and the masked assignment *)

Lemma pow_neg_half_nonneg (d : f32) :
  nonneg d = true ->
  fin_nonneg (if is_inf (pow_neg_half d) then f0 else pow_neg_half d) = true.
Proof.
  intros Hd. unfold pow_neg_half.
  destruct (fdiv_1_nonneg_cases (fsqrt d) (fsqrt_nonneg_cases d Hd)) as [H|H].
  - rewrite H. reflexivity.
  - destruct (is_inf (fdiv f1 (fsqrt d))); [reflexivity|exact H].
Qed.

(** Zero degrees and only those give an infinite [pow_neg_half]. *)
Lemma pow_neg_half_zero (d : f32) :
  is_zero d = true -> is_inf (pow_neg_half d) = true.
Proof. destruct d; cbn; try discriminate; reflexivity. Qed.

Lemma pow_neg_half_inf_iff (d : f32) :
  valid d = true -> is_inf (pow_neg_half d) = is_zero d.
Proof.
  intros Hv. destruct d as [s|[]| |[] m e]; try reflexivity.
  cbn [is_zero]. unfold pow_neg_half.
  apply bounded_inv in Hv.
  pose proof (Pos2Z.is_pos (digits2_pos m)) as Hd.
  pose proof (fsqrt_pos m e) as H. cbv zeta in H.
  assert (HM : -74 <= (Zpos (digits2_pos m) + e + 1) / 2 <= 65).
  { split; [apply Z.div_le_lower_bound|apply Z.div_le_upper_bound]; lia. }
  destruct (fsqrt (S754_finite false m e)) as [s|s| |s m' e']; try lia.
  destruct H as (-> & _ & Hlo & _).
  pose proof (fdiv_1_pos m' e') as H'. cbv zeta in H'.
  destruct (fdiv f1 (S754_finite false m' e')); try reflexivity. lia.
Qed.

(** A degree that is zero or at least 1 gives an entry below 4. *)
Lemma pow_neg_half_small (d : f32) :
  zero_or_ge1 d = true ->
  fin_small (if is_inf (pow_neg_half d) then f0 else pow_neg_half d) = true.
Proof.
  unfold pow_neg_half, fin_small.
  destruct d as [[]|[]| |[] m e]; cbn [zero_or_ge1 mag]; try discriminate;
    try reflexivity.
  intros Hge. apply Z.leb_le in Hge.
  pose proof (fsqrt_pos m e) as H. cbv zeta in H.
  assert (HM : 1 <= (Zpos (digits2_pos m) + e + 1) / 2).
  { apply Z.div_le_lower_bound; lia. }
  destruct (fsqrt (S754_finite false m e)) as [s|s| |s m' e']; try lia.
  - destruct H as [-> _]. reflexivity.
  - destruct H as (-> & _ & Hlo & _).
    pose proof (fdiv_1_pos m' e') as H'. cbv zeta in H'.
    destruct (fdiv f1 (S754_finite false m' e')) as [s|s| |s m'' e''];
      try contradiction.
    + subst s. reflexivity.
    + reflexivity.
    + destruct H' as (-> & Hb & Hhi). cbn [is_inf fin_nonneg mag].
      rewrite Hb. apply Z.leb_le. lia.
Qed.

(** ** The rectifier *)

Lemma relu1_valid (x : f32) : valid x = true -> valid (relu1 x) = true.
Proof.
  intros H. unfold relu1. destruct (SFcompare x f0) as [[]|]; auto.
Qed.

(** ** Sums *)

Lemma fsum_S (n : nat) (f : nat -> f32) :
  fsum (S n) f = fadd (fsum n f) (f n).
Proof.
  unfold fsum. rewrite seq_S, fold_left_app. reflexivity.
Qed.

Lemma fsum_ext (n : nat) (f g : nat -> f32) :
  (forall k, (k < n)%nat -> f k = g k) -> fsum n f = fsum n g.
Proof.
  induction n as [|n IH]; intros H; [reflexivity|].
  rewrite !fsum_S, IH, H by auto. reflexivity.
Qed.

Lemma fsum_nonneg (n : nat) (f : nat -> f32) :
  (forall k, (k < n)%nat -> nonneg (f k) = true) -> nonneg (fsum n f) = true.
Proof.
  induction n as [|n IH]; intros H; [reflexivity|].
  rewrite fsum_S. apply fadd_nonneg; auto.
Qed.

Lemma fsum_valid (n : nat) (f : nat -> f32) :
  (forall k, (k < n)%nat -> valid (f k) = true) -> valid (fsum n f) = true.
Proof.
  induction n as [|n IH]; intros H; [reflexivity|].
  rewrite fsum_S. apply fadd_valid; auto.
Qed.

Lemma fsum_finite_inv (n : nat) (f : nat -> f32) :
  is_finite (fsum n f) = true ->
  forall k, (k < n)%nat -> is_finite (f k) = true.
Proof.
  induction n as [|n IH]; intros H k Hk; [lia|].
  rewrite fsum_S in H. apply fadd_finite_inv in H. destruct H as [Hs Hn].
  destruct (Nat.eq_dec k n) as [->|Hne]; [exact Hn|].
  apply IH; [exact Hs|lia].
Qed.

Lemma fsum_zero_or_ge1 (n : nat) (f : nat -> f32) :
  (forall k, (k < n)%nat -> is_01 (f k) = true) ->
  zero_or_ge1 (fsum n f) = true.
Proof.
  induction n as [|n IH]; intros H; [reflexivity|].
  rewrite fsum_S. apply fadd_zero_or_ge1; auto.
Qed.

Lemma fsum_with_one (n k : nat) (f : nat -> f32) :
  (forall j, (j < n)%nat -> is_01 (f j) = true) ->
  (k < n)%nat -> f k = f1 ->
  is_zero (fsum n f) = false.
Proof.
  induction n as [|n IH]; intros H Hk Hfk; [lia|].
  rewrite fsum_S. destruct (Nat.eq_dec k n) as [->|Hne].
  - rewrite Hfk.
    pose proof (fsum_zero_or_ge1 n f ltac:(intros; apply H; lia)) as Hs.
    destruct (is_zero (fsum n f)) eqn:Hz.
    + destruct (is_zero_inv _ Hz) as [s ->]. reflexivity.
    + apply fadd_ge1; [exact Hs|exact Hz|reflexivity].
  - apply fadd_ge1.
    + apply fsum_zero_or_ge1. intros j Hj. apply H. lia.
    + apply IH; [intros j Hj; apply H; lia|lia|exact Hfk].
    + apply H. lia.
Qed.

Lemma fsum_zeros (n : nat) (f : nat -> f32) :
  (forall k, (k < n)%nat -> is_zero (f k) = true) -> fsum n f = f0.
Proof.
  induction n as [|n IH]; intros H; [reflexivity|].
  rewrite fsum_S, IH by auto.
  rewrite fadd_f0_l, H by lia. reflexivity.
Qed.

(** A sum whose terms are zeros except at index [i]. *)
Lemma fsum_single (n i : nat) (f : nat -> f32) :
  (i < n)%nat ->
  (forall k, (k < n)%nat -> k <> i -> is_zero (f k) = true) ->
  fsum n f = fadd f0 (f i).
Proof.
  induction n as [|n IH]; intros Hi H; [lia|].
  rewrite fsum_S. destruct (Nat.eq_dec i n) as [->|Hne].
  - rewrite fsum_zeros; [reflexivity|]. intros k Hk. apply H; lia.
  - rewrite IH by (try intros k Hk Hki; try apply H; lia).
    destruct (is_zero_inv (f n) (H n ltac:(lia) ltac:(lia))) as [s ->].
    apply fadd_zero_r, fadd_f0_not_neg_zero.
Qed.

(** The sign of zero terms does not change a sum of binary32 data. *)
Lemma fsum_mod_zero_sign (n : nat) (f g : nat -> f32) :
  (forall k, (k < n)%nat -> valid (f k) = true) ->
  (forall k, (k < n)%nat -> valid (g k) = true) ->
  (forall k, (k < n)%nat -> eq_mod_zero_sign (f k) (g k)) ->
  fsum n f = fsum n g.
Proof.
  intros Hf Hg He.
  assert (H : fsum n f = fsum n g /\ fsum n f <> S754_zero true
              /\ valid (fsum n f) = true).
  { induction n as [|n IH].
    - repeat split. discriminate.
    - destruct IH as (IHe & IHn & IHv); try (intros; auto; fail).
      rewrite !fsum_S, <- IHe.
      assert (Hfn := Hf n ltac:(lia)).
      split; [|split].
      + destruct (He n ltac:(lia)) as [->|[Hzf Hzg]]; [reflexivity|].
        destruct (is_zero_inv _ Hzf) as [s ->].
        destruct (is_zero_inv _ Hzg) as [s' ->].
        rewrite !fadd_zero_r by exact IHn. reflexivity.
      + intros Hz. apply fadd_neg_zero in Hz; try assumption.
        destruct Hz as [Hz _]. contradiction.
      + apply fadd_valid; assumption. }
  apply H.
Qed.

(** * More binary32 arithmetic *)

(** ** Sums of ones *)

Lemma binary_normalize_shifted (m : positive) (e k : Z) :
  bounded prec emax m e = true -> 0 < k ->
  binary_normalize prec emax (Zpos m * 2 ^ k) (e - k) false
  = S754_finite false m e.
Proof.
  intros Hb Hk.
  pose proof (bounded_inv m e Hb) as [Hc He].
  assert (Hp : 0 < 2 ^ k) by (apply Z.pow_pos_nonneg; lia).
  destruct (Zpos m * 2 ^ k) as [|q|q] eqn:Hq; try lia.
  cbn [binary_normalize]. unfold binary_round.
  assert (Hd : Zpos (digits2_pos q) = Zpos (digits2_pos m) + k).
  { change (Zpos (digits2_pos q)) with (Zdigits2 (Zpos q)).
    rewrite <- Hq. rewrite Zdigits2_shiftl by lia. reflexivity. }
  pose proof (shl_align_spec q (e - k)
                (fexp prec emax (Zpos (digits2_pos q) + (e - k)))) as [H1 H2].
  destruct (shl_align q (e - k)
              (fexp prec emax (Zpos (digits2_pos q) + (e - k)))) as [mz ez].
  cbn [fst snd] in H1, H2.
  rewrite fexp_eq in H2.
  assert (Hez : ez = e - k) by lia.
  clear H2. subst ez. rewrite Z.sub_diag in H1. rewrite Z.mul_1_r in H1.
  rewrite H1, <- Hq.
  apply binary_round_aux_exact; assumption.
Qed.

Lemma f32_of_count_pos (z : Z) :
  0 < z -> z < 2 ^ 24 ->
  let D := Zdigits2 z in
  let m := Z.to_pos (z * 2 ^ (24 - D)) in
  f32_of_count z = S754_finite false m (D - 24) /\
  Zpos m = z * 2 ^ (24 - D) /\ 1 <= D <= 24 /\
  bounded prec emax m (D - 24) = true.
Proof.
  intros Hz Hlt D m.
  assert (HD : 1 <= D <= 24).
  { subst D. rewrite Zdigits2_log2 by lia.
    pose proof (Z.log2_nonneg z).
    assert (Z.log2 z < 24) by (apply Z.log2_lt_pow2; lia). lia. }
  assert (Hm : Zpos m = z * 2 ^ (24 - D)).
  { subst m. rewrite Z2Pos.id; [reflexivity|].
    apply Z.mul_pos_pos; [lia|apply Z.pow_pos_nonneg; lia]. }
  split.
  { unfold f32_of_count.
    destruct (Z.leb_spec z 0); [lia|].
    rewrite Z.shiftl_mul_pow2 by (fold D; lia). reflexivity. }
  split; [exact Hm|]. split; [exact HD|].
  unfold bounded, canonical_mantissa.
  change (Zpos (digits2_pos m)) with (Zdigits2 (Zpos m)).
  rewrite Hm, Zdigits2_shiftl by lia. fold D.
  rewrite fexp_eq.
  apply andb_true_intro. split.
  - apply Z.eqb_eq. lia.
  - apply Z.leb_le. change (emax - prec) with 104. lia.
Qed.

Lemma fadd_count_succ (z : Z) :
  0 < z -> z + 1 < 2 ^ 24 ->
  fadd (f32_of_count z) f1 = f32_of_count (z + 1).
Proof.
  intros Hz Hlt.
  destruct (f32_of_count_pos z) as (E & Hm & HD & Hb); [lia|lia|].
  destruct (f32_of_count_pos (z + 1)) as (E' & Hm' & HD' & Hb'); [lia|lia|].
  rewrite E, E'. unfold f1. rewrite fadd_finite. cbn [cond_Zopp].
  set (D := Zdigits2 z) in *. set (D' := Zdigits2 (z + 1)) in *.
  set (m := Z.to_pos (z * 2 ^ (24 - D))) in *.
  set (m' := Z.to_pos ((z + 1) * 2 ^ (24 - D'))) in *.
  assert (HD2 : 2 <= D').
  { subst D'. rewrite Zdigits2_log2 by lia.
    assert (Z.log2 2 <= Z.log2 (z + 1)) by (apply Z.log2_le_mono; lia).
    change (Z.log2 2) with 1 in *. lia. }
  replace (Z.min (D - 24) (-23)) with (-23) by lia.
  replace (D - 24 - -23) with (D - 1) by lia.
  replace (-23 - -23) with 0 by lia.
  assert (Hsum : Zpos m * 2 ^ (D - 1) + Zpos 8388608 * 2 ^ 0
                 = Zpos m' * 2 ^ (D' - 1)).
  { rewrite Hm, Hm'.
    rewrite <- !Z.mul_assoc, <- !Z.pow_add_r by lia.
    replace (24 - D + (D - 1)) with 23 by lia.
    replace (24 - D' + (D' - 1)) with 23 by lia.
    change (Zpos 8388608 * 2 ^ 0) with (2 ^ 23). lia. }
  rewrite Hsum.
  replace (-23) with ((D' - 24) - (D' - 1)) by lia.
  apply binary_normalize_shifted; [exact Hb'|lia].
Qed.

(** Adding [1.0] to a count: exact below [2^24], without effect at
    [2^24]. *)
Lemma fadd_count (z : Z) :
  0 <= z <= 2 ^ 24 ->
  fadd (f32_of_count z) f1 = f32_of_count (Z.min (z + 1) (2 ^ 24)).
Proof.
  intros Hz.
  destruct (Z.eq_dec z 0) as [->|Hz0]; [vm_compute; reflexivity|].
  destruct (Z.eq_dec z (2 ^ 24)) as [->|Hz1]; [vm_compute; reflexivity|].
  destruct (Z.eq_dec z (2 ^ 24 - 1)) as [->|Hz2]; [vm_compute; reflexivity|].
  rewrite Z.min_l by lia. apply fadd_count_succ; lia.
Qed.

Lemma f32_of_count_not_neg_zero (z : Z) : f32_of_count z <> S754_zero true.
Proof.
  unfold f32_of_count. destruct (z <=? 0); discriminate.
Qed.

Lemma f32_of_count_mag (c : Z) :
  1 <= c <= 2 ^ 24 ->
  exists m e,
    f32_of_count c = S754_finite false m e /\
    bounded prec emax m e = true /\
    1 <= Zpos (digits2_pos m) + e <= 25.
Proof.
  intros Hc.
  destruct (Z.eq_dec c (2 ^ 24)) as [->|Hne].
  - eexists. eexists. split; [vm_compute; reflexivity|].
    split; [reflexivity|]. cbn. lia.
  - destruct (f32_of_count_pos c) as (E & Hm & HD & Hb); [lia|lia|].
    eexists. eexists. split; [exact E|]. split; [exact Hb|].
    change (Zpos (digits2_pos (Z.to_pos (c * 2 ^ (24 - Zdigits2 c)))))
      with (Zdigits2 (Zpos (Z.to_pos (c * 2 ^ (24 - Zdigits2 c))))).
    rewrite Hm, Zdigits2_shiftl by lia. lia.
Qed.

Lemma Z_of_f32_of_count (z : Z) :
  0 <= z <= 2 ^ 24 -> Z_of_f32 (f32_of_count z) = Some z.
Proof.
  intros Hz.
  destruct (Z.eq_dec z 0) as [->|Hz0]; [reflexivity|].
  destruct (Z.eq_dec z (2 ^ 24)) as [->|Hz1]; [vm_compute; reflexivity|].
  destruct (f32_of_count_pos z) as (E & Hm & HD & Hb); [lia|lia|].
  rewrite E. unfold Z_of_f32. set (D := Zdigits2 z) in *.
  destruct (Z.leb_spec 0 (D - 24)) as [H0|H0].
  - assert (D = 24) by lia. rewrite Hm.
    replace (24 - D) with 0 by lia. replace (D - 24) with 0 by lia.
    cbn [cond_Zopp]. f_equal. change (2 ^ 0) with 1. lia.
  - rewrite Hm. replace (- (D - 24)) with (24 - D) by lia.
    assert (Hp : 0 < 2 ^ (24 - D)) by (apply Z.pow_pos_nonneg; lia).
    rewrite Z.mod_mul by lia. cbn [Z.eqb cond_Zopp].
    rewrite Z.div_mul by lia. reflexivity.
Qed.

Lemma count_ones_S (n : nat) (f : nat -> f32) :
  count_ones (S n) f =
  (count_ones n f + if f32_eqb (f n) f1 then 1 else 0)%nat.
Proof.
  unfold count_ones. rewrite seq_S, filter_app, length_app.
  cbn [filter Nat.add]. destruct (f32_eqb (f n) f1); reflexivity.
Qed.

Lemma count_ones_ext (n : nat) (f g : nat -> f32) :
  (forall k, (k < n)%nat -> f k = g k) -> count_ones n f = count_ones n g.
Proof.
  induction n as [|n IH]; intros H; [reflexivity|].
  rewrite !count_ones_S, IH, (H n) by auto. reflexivity.
Qed.

Lemma count_ones_window (n a b : nat) :
  (a <= b)%nat ->
  count_ones n (fun k => if Nat.leb a k && Nat.ltb k b then f1 else f0)
  = (Nat.min n b - Nat.min n a)%nat.
Proof.
  intros Hab. induction n as [|n IH]; [reflexivity|].
  rewrite count_ones_S, IH.
  destruct (Nat.leb a n) eqn:E1; destruct (Nat.ltb n b) eqn:E2; cbn [andb];
    [change (f32_eqb f1 f1) with true
    |change (f32_eqb f0 f1) with false
    |change (f32_eqb f0 f1) with false
    |change (f32_eqb f0 f1) with false];
    cbv iota;
    repeat match goal with
    | H : Nat.leb _ _ = true |- _ => apply Nat.leb_le in H
    | H : Nat.leb _ _ = false |- _ => apply Nat.leb_gt in H
    | H : Nat.ltb _ _ = true |- _ => apply Nat.ltb_lt in H
    | H : Nat.ltb _ _ = false |- _ => apply Nat.ltb_ge in H
    end; lia.
Qed.

Lemma count_ones_pos (n l : nat) (f : nat -> f32) :
  (l < n)%nat -> f l = f1 -> (1 <= count_ones n f)%nat.
Proof.
  induction n as [|n IH]; intros Hl Hf; [lia|].
  rewrite count_ones_S.
  destruct (Nat.eq_dec l n) as [->|Hne].
  - rewrite Hf. change (f32_eqb f1 f1) with true. cbv iota. lia.
  - specialize (IH ltac:(lia) Hf). lia.
Qed.

(** A left-to-right sum of zeros and ones is the number of ones, as long
    as that number is below [2^24]; the sum stays at [2^24] from there
    on. *)
Lemma fsum_count (n : nat) (f : nat -> f32) :
  (forall k, (k < n)%nat -> is_01 (f k) = true) ->
  fsum n f = f32_of_count (Z.min (Z.of_nat (count_ones n f)) (2 ^ 24)).
Proof.
  induction n as [|n IH]; intros H01.
  - reflexivity.
  - rewrite fsum_S, IH by (intros k Hk; apply H01; lia).
    rewrite count_ones_S.
    assert (Hp : 0 < 2 ^ 24) by reflexivity.
    destruct (is_01_cases (f n) (H01 n ltac:(lia))) as [E|E]; rewrite E.
    + change (f32_eqb f0 f1) with false. rewrite Nat.add_0_r.
      apply fadd_zero_r, f32_of_count_not_neg_zero.
    + change (f32_eqb f1 f1) with true.
      rewrite fadd_count by lia.
      f_equal. lia.
Qed.

(** ** Magnitudes *)

Lemma within_mono (p q : Z) (x : f32) :
  p <= q -> within p x = true -> within q x = true.
Proof.
  intros Hpq. destruct x; cbn; try discriminate; auto.
  intros H. apply Z.leb_le in H. apply Z.leb_le. lia.
Qed.

Lemma within_finite (p : Z) (x : f32) : within p x = true -> is_finite x = true.
Proof. destruct x; cbn; auto. Qed.

Lemma fin_small_within (x : f32) : fin_small x = true -> within 2 x = true.
Proof.
  unfold fin_small. intros H. apply andb_prop in H. destruct H as [H1 H2].
  destruct x as [s|s| |s m e]; try discriminate H1; [reflexivity|].
  exact H2.
Qed.

Lemma Zdigits2_lt_pow2 (m k : Z) : 0 < m -> m < 2 ^ k -> 0 <= k -> Zdigits2 m <= k.
Proof.
  intros Hm Hlt Hk. rewrite Zdigits2_log2 by exact Hm.
  assert (Z.log2 m < k) by (apply Z.log2_lt_pow2; assumption). lia.
Qed.

Lemma binary_round_within (s : bool) (m : positive) (e p : Z) :
  Zpos (digits2_pos m) + e <= p -> -149 <= p -> p <= 127 ->
  within (p + 1) (binary_round prec emax s m e) = true.
Proof.
  intros Hm Hlo Hhi.
  pose proof (binary_round_spec s m e) as H.
  destruct (binary_round prec emax s m e) as [s'|s'| |s' m' e'];
    try contradiction.
  - reflexivity.
  - lia.
  - cbn [within]. apply Z.leb_le. lia.
Qed.

Lemma fmul_within (p q : Z) (x y : f32) :
  valid x = true -> valid y = true ->
  within p x = true -> within q y = true ->
  -149 <= p + q -> p + q <= 126 ->
  within (p + q + 1) (fmul x y) = true.
Proof.
  intros Vx Vy Hx Hy Hlo Hhi.
  destruct x as [sx|sx| |sx mx ex], y as [sy|sy| |sy my ey];
    try discriminate; try reflexivity.
  cbn [within] in Hx, Hy. apply Z.leb_le in Hx, Hy.
  pose proof (fmul_finite_spec sx mx ex sy my ey Vx Vy) as H.
  destruct (fmul (S754_finite sx mx ex) (S754_finite sy my ey))
    as [s|s| |s m e]; try contradiction.
  - reflexivity.
  - lia.
  - cbn [within]. apply Z.leb_le. lia.
Qed.

Lemma fadd_within (p : Z) (x y : f32) :
  valid x = true -> valid y = true ->
  within p x = true -> within p y = true ->
  -149 <= p -> p <= 125 ->
  within (p + 2) (fadd x y) = true.
Proof.
  intros Vx Vy Hx Hy Hlo Hhi.
  destruct x as [sx|sx| |sx mx ex], y as [sy|sy| |sy my ey];
    try discriminate;
    try (destruct sx, sy; reflexivity);
    try (cbn [fadd SFadd]; apply (within_mono p); [lia|assumption]).
  cbn [within] in Hx, Hy. apply Z.leb_le in Hx, Hy.
  rewrite fadd_finite.
  set (ez := Z.min ex ey).
  assert (Hpx : 0 < 2 ^ (ex - ez)) by (apply Z.pow_pos_nonneg; lia).
  assert (Hpy : 0 < 2 ^ (ey - ez)) by (apply Z.pow_pos_nonneg; lia).
  pose proof (digits2_pos_bounds mx) as [_ Bx].
  pose proof (digits2_pos_bounds my) as [_ By].
  pose proof (Pos2Z.is_pos (digits2_pos mx)) as Px.
  pose proof (Pos2Z.is_pos (digits2_pos my)) as Py.
  apply bounded_inv in Vx, Vy.
  assert (Hb : 0 < 2 ^ (p - ez)) by (apply Z.pow_pos_nonneg; lia).
  assert (Bx' : Zpos mx * 2 ^ (ex - ez) < 2 ^ (p - ez)).
  { apply Z.lt_le_trans with (2 ^ Zpos (digits2_pos mx) * 2 ^ (ex - ez)).
    - apply Z.mul_lt_mono_pos_r; assumption.
    - rewrite <- Z.pow_add_r by lia. apply Z.pow_le_mono_r; lia. }
  assert (By' : Zpos my * 2 ^ (ey - ez) < 2 ^ (p - ez)).
  { apply Z.lt_le_trans with (2 ^ Zpos (digits2_pos my) * 2 ^ (ey - ez)).
    - apply Z.mul_lt_mono_pos_r; assumption.
    - rewrite <- Z.pow_add_r by lia. apply Z.pow_le_mono_r; lia. }
  assert (Hpow : 2 ^ (p - ez + 1) = 2 * 2 ^ (p - ez)).
  { rewrite Z.pow_add_r by lia. lia. }
  assert (Habs : Z.abs (cond_Zopp sx (Zpos mx * 2 ^ (ex - ez))
                        + cond_Zopp sy (Zpos my * 2 ^ (ey - ez)))
                 < 2 ^ (p - ez + 1)).
  { rewrite Hpow. destruct sx, sy; cbn [cond_Zopp]; lia. }
  destruct (cond_Zopp sx (Zpos mx * 2 ^ (ex - ez))
            + cond_Zopp sy (Zpos my * 2 ^ (ey - ez))) as [|m|m];
    cbn [binary_normalize]; [reflexivity| |].
  - replace (p + 2) with (p + 1 + 1) by lia.
    apply binary_round_within; try lia.
    change (Zpos (digits2_pos m)) with (Zdigits2 (Zpos m)).
    assert (Zdigits2 (Zpos m) <= p - ez + 1)
      by (apply Zdigits2_lt_pow2; lia).
    lia.
  - replace (p + 2) with (p + 1 + 1) by lia.
    apply binary_round_within; try lia.
    change (Zpos (digits2_pos m)) with (Zdigits2 (Zpos m)).
    assert (Zdigits2 (Zpos m) <= p - ez + 1)
      by (apply Zdigits2_lt_pow2; lia).
    lia.
Qed.

Lemma fsum_within (p : Z) (n : nat) (f : nat -> f32) :
  (forall k, (k < n)%nat -> valid (f k) = true) ->
  (forall k, (k < n)%nat -> within p (f k) = true) ->
  -149 <= p -> p + 2 * Z.of_nat n <= 127 ->
  within (p + 2 * Z.of_nat n) (fsum n f) = true.
Proof.
  induction n as [|n IH]; intros Hv Hw Hlo Hhi; [reflexivity|].
  rewrite fsum_S.
  replace (p + 2 * Z.of_nat (S n)) with (p + 2 * Z.of_nat n + 2) by lia.
  apply fadd_within; try lia.
  - apply fsum_valid. intros k Hk. apply Hv. lia.
  - apply Hv. lia.
  - apply IH; try lia; intros k Hk; [apply Hv|apply Hw]; lia.
  - apply (within_mono p); [lia|apply Hw; lia].
Qed.

Lemma relu1_within (p : Z) (x : f32) :
  within p x = true -> within p (relu1 x) = true.
Proof.
  intros H. unfold relu1. destruct (SFcompare x f0) as [[]|]; auto.
Qed.

(** ** Lower bounds *)

Lemma fdiv_1_pos_lower (m : positive) (e : Z) :
  bounded prec emax m e = true ->
  let My := Zpos (digits2_pos m) + e in
  match fdiv f1 (S754_finite false m e) with
  | S754_zero _ => False
  | S754_finite _ m' e' => Z.max (1 - My) (-148) <= Zpos (digits2_pos m') + e'
  | _ => True
  end.
Proof.
  intros Hb My. apply bounded_inv in Hb. destruct Hb as [Hc He].
  pose proof (Pos2Z.is_pos (digits2_pos m)) as Pm.
  unfold fdiv, f1, SFdiv, SFdiv_core_binary.
  cbn [xorb Zdigits2].
  change (Zpos (digits2_pos 8388608)) with 24.
  replace (24 + -23 - (Zpos (digits2_pos m) + e)) with (1 - My) by (subst My; lia).
  rewrite fexp_eq.
  set (e' := Z.min (Z.max (1 - My - 24) (-149)) (-23 - e)).
  assert (Hs : 0 <= -23 - e - e') by lia.
  set (m' := match -23 - e - e' with
             | 0 => 8388608
             | Zpos _ => Z.shiftl 8388608 (-23 - e - e')
             | Zneg _ => 0
             end).
  assert (Hm' : m' = 2 ^ (23 + (-23 - e - e'))).
  { subst m'. rewrite Z.pow_add_r by lia.
    destruct (-23 - e - e') as [|p|p] eqn:E; try lia.
    rewrite Z.shiftl_mul_pow2 by lia. reflexivity. }
  pose proof (Zdigits2_div_pow2 (23 + (-23 - e - e')) (Zpos m)
                ltac:(lia) ltac:(lia)) as Hq.
  cbv zeta in Hq. rewrite <- Hm' in Hq.
  unfold Z.div in Hq.
  destruct (Z.div_eucl m' (Zpos m)) as [q r]. cbn [fst] in Hq.
  destruct Hq as (Hq0 & Hqlo & Hqhi). cbn [Zdigits2] in Hqlo, Hqhi.
  assert (Hlo : 1 - My - e' <= Zdigits2 q) by (subst My e'; lia).
  match goal with |- match binary_round_aux _ _ _ _ _ ?l with _ => _ end =>
    pose proof (binary_round_aux_spec false q e' l Hq0) as H;
    destruct (binary_round_aux prec emax false q e' l)
  end; rewrite fexp_eq in H; trivial.
  - assert (H' : e' <= Z.max (Zdigits2 q + e' - 24) (-149)) by (subst My e'; lia).
    specialize (H H'). subst My. lia.
  - assert (H' : e' <= Z.max (Zdigits2 q + e' - 24) (-149)) by (subst My e'; lia).
    specialize (H H'). lia.
Qed.

Lemma fmul_zero_inv (sx : bool) (mx : positive) (ex : Z)
                    (sy : bool) (my : positive) (ey : Z) :
  bounded prec emax mx ex = true -> bounded prec emax my ey = true ->
  is_zero (fmul (S754_finite sx mx ex) (S754_finite sy my ey)) = true ->
  (Zpos (digits2_pos mx) + ex) + (Zpos (digits2_pos my) + ey) <= -148.
Proof.
  intros Hx Hy. apply bounded_inv in Hx, Hy.
  unfold fmul, SFmul.
  pose proof (Zdigits2_mul (Zpos mx) (Zpos my) eq_refl eq_refl) as D.
  rewrite <- Pos2Z.inj_mul in D. cbn [Zdigits2] in D.
  pose proof (Pos2Z.is_pos (digits2_pos mx)) as Px.
  pose proof (Pos2Z.is_pos (digits2_pos my)) as Py.
  pose proof (binary_round_aux_spec (xorb sx sy) (Zpos (mx * my)) (ex + ey) loc_Exact) as H.
  cbn [Zdigits2] in H. rewrite fexp_eq in H.
  assert (H0 : 0 <= Zpos (mx * my)) by lia.
  assert (H1 : ex + ey <= Z.max (Zpos (digits2_pos (mx * my)) + (ex + ey) - 24) (-149))
    by lia.
  specialize (H H0 H1).
  destruct (binary_round_aux prec emax (xorb sx sy) (Zpos (mx * my)) (ex + ey) loc_Exact);
    try discriminate. intros _. lia.
Qed.

(** The reciprocal square root of a count between 1 and [2^24] is a
    positive number, at least [2^-14]: the masked assignment leaves it. *)
Lemma pow_neg_half_count (c : Z) :
  1 <= c <= 2 ^ 24 ->
  exists m e,
    pow_neg_half (f32_of_count c) = S754_finite false m e /\
    bounded prec emax m e = true /\
    -13 <= Zpos (digits2_pos m) + e.
Proof.
  intros Hc. destruct (f32_of_count_mag c Hc) as (md & ed & -> & Hb & Hmag).
  unfold pow_neg_half.
  pose proof (fsqrt_pos md ed) as Hs. cbv zeta in Hs.
  assert (HM : 1 <= (Zpos (digits2_pos md) + ed + 1) / 2 <= 13).
  { split.
    - apply Z.div_le_lower_bound; lia.
    - apply Z.div_le_upper_bound; lia. }
  destruct (fsqrt (S754_finite false md ed)) as [s|s| |s ms es];
    try contradiction; try lia.
  destruct Hs as (-> & Hbs & Hlo & Hhi).
  pose proof (fdiv_1_pos ms es) as Hd. cbv zeta in Hd.
  pose proof (fdiv_1_pos_lower ms es Hbs) as Hl. cbv zeta in Hl.
  destruct (fdiv f1 (S754_finite false ms es)) as [s|s| |s m e];
    try contradiction; try lia.
  destruct Hd as (-> & Hbd & _).
  exists m, e. split; [reflexivity|]. split; [exact Hbd|]. lia.
Qed.

Lemma pow_neg_half_masked_valid (d : f32) :
  valid (if is_inf (pow_neg_half d) then f0 else pow_neg_half d) = true.
Proof.
  destruct (nonneg d) eqn:Hd.
  - apply fin_nonneg_valid, pow_neg_half_nonneg, Hd.
  - destruct d as [s|s| |s m e]; try destruct s; try discriminate Hd;
      reflexivity.
Qed.

(** ** NaN and zeros in products and sums *)

Lemma fadd_nan_l (x : f32) : fadd S754_nan x = S754_nan.
Proof. destruct x; reflexivity. Qed.

Lemma fadd_nan_r (x : f32) : fadd x S754_nan = S754_nan.
Proof. destruct x; reflexivity. Qed.

Lemma fmul_nan_l (x y : f32) : is_nan x = true -> fmul x y = S754_nan.
Proof.
  destruct x; try discriminate. destruct y; reflexivity.
Qed.

Lemma fmul_nan_r (x : f32) : fmul x S754_nan = S754_nan.
Proof. destruct x; reflexivity. Qed.

Lemma fsum_nan (n k : nat) (f : nat -> f32) :
  (k < n)%nat -> f k = S754_nan -> fsum n f = S754_nan.
Proof.
  induction n as [|n IH]; intros Hk Hf; [lia|].
  rewrite fsum_S.
  destruct (Nat.eq_dec k n) as [->|Hne].
  - rewrite Hf. apply fadd_nan_r.
  - rewrite IH by (assumption || lia). apply fadd_nan_l.
Qed.

(** An entry of the normalized adjacency at a position where the
    adjacency is zero is a zero, or NaN when a degree is negative. *)
Lemma adj_norm_entry_zero (x a y : f32) :
  is_inf x = false -> is_inf y = false -> is_zero a = true ->
  is_nan (fmul (fmul x a) y) = true \/ is_zero (fmul (fmul x a) y) = true.
Proof.
  intros Hx Hy Ha.
  destruct x as [sx|sx| |sx mx ex]; try discriminate Hx;
    destruct a as [sa|sa| |sa ma ea]; try discriminate Ha;
    destruct y as [sy|sy| |sy my ey]; try discriminate Hy;
    cbn; auto.
Qed.

(** The features of a node that is not a neighbour contribute a zero, or
    the same NaN, to the aggregation. *)
Lemma aggregation_term_local (e u v : f32) :
  is_nan e = true \/ is_zero e = true ->
  is_finite u = true -> is_finite v = true ->
  eq_mod_zero_sign (fmul e u) (fmul e v).
Proof.
  intros [He|He] Hu Hv.
  - left. rewrite !fmul_nan_l by exact He. reflexivity.
  - right. destruct (is_zero_inv e He) as [s ->].
    split; apply fmul_zero_l; assumption.
Qed.

(** An entry of the normalized adjacency of an unweighted graph is below
    [2^5] (it is at most one; the bound follows the binades). *)
Lemma adj_norm_entry_within (x y a : f32) :
  fin_small x = true -> fin_small y = true -> is_01 a = true ->
  within 5 (fmul (fmul x a) y) = true.
Proof.
  intros Hx Hy Ha. destruct (is_01_cases a Ha) as [-> | ->].
  - rewrite fmul_fin_nonneg_0 by (apply fin_small_nonneg, Hx).
    rewrite fmul_0_fin_nonneg by (apply fin_small_nonneg, Hy). reflexivity.
  - rewrite fmul_1_r by (apply fin_nonneg_valid, fin_small_nonneg, Hx).
    apply (fmul_within 2 2); try lia;
      try (apply fin_nonneg_valid, fin_small_nonneg; assumption);
      apply fin_small_within; assumption.
Qed.

(** ** Values: rounding and the powers of two *)

Lemma shr_fexp_value (m e : Z) (l : location) :
  0 <= m -> e <= fexp prec emax (Zdigits2 m + e) ->
  let n := fexp prec emax (Zdigits2 m + e) - e in
  shr_m (fst (shr_fexp prec emax m e l)) = m / 2 ^ n /\
  snd (shr_fexp prec emax m e l) = e + n.
Proof.
  intros Hm Hpre n. unfold shr_fexp.
  pose proof (shr_spec (shr_record_of_loc m l) e
                (fexp prec emax (Zdigits2 m + e) - e)) as S.
  rewrite shr_record_of_loc_m in S. specialize (S Hm). destruct S as [Sm Se].
  fold n in Sm, Se |- *. rewrite Sm, Se.
  destruct (Z.ltb_spec 0 n) as [Hn|Hn]; [auto|].
  assert (n = 0) by (subst n; lia).
  replace n with 0 by lia. rewrite Z.div_1_r. split; lia.
Qed.

(** The mantissa of a rounded number is the truncated one, or the next
    integer. *)
Lemma binary_round_aux_value (s : bool) (m e : Z) (l : location) :
  0 <= m -> e <= fexp prec emax (Zdigits2 m + e) ->
  match binary_round_aux prec emax s m e l with
  | S754_finite _ m' e' =>
      e <= e' /\ m / 2 ^ (e' - e) <= Zpos m' <= m / 2 ^ (e' - e) + 1
  | _ => True
  end.
Proof.
  intros Hm Hpre. unfold binary_round_aux.
  pose proof (shr_fexp_spec m e l Hm Hpre) as S1. cbv zeta in S1.
  pose proof (shr_fexp_value m e l Hm Hpre) as V1. cbv zeta in V1.
  destruct (shr_fexp prec emax m e l) as [r1 e1]. cbn [fst snd] in S1, V1.
  set (M := Zdigits2 m + e) in *.
  destruct S1 as [He1 Hq]. destruct V1 as [Vq Ve].
  set (n1 := fexp prec emax M - e) in *.
  assert (Hn1 : 0 <= n1) by (subst n1; lia).
  set (m1 := round_nearest_even (shr_m r1) (loc_of_shr_record r1)).
  assert (Hm1 : m1 = shr_m r1 \/ m1 = shr_m r1 + 1)
    by apply round_nearest_even_cases.
  assert (Hq1 : 0 <= shr_m r1).
  { rewrite Vq. apply Z.div_pos; [lia|apply Z.pow_pos_nonneg; lia]. }
  assert (Hm1pos : 0 <= m1) by lia.
  assert (Hpre1 : e1 <= fexp prec emax (Zdigits2 m1 + e1)).
  { rewrite He1, !fexp_eq.
    destruct Hq as [(Hq & Hd & HM)|(Hq & HM)].
    - assert (Zdigits2 (shr_m r1) <= Zdigits2 m1).
      { destruct Hm1 as [->| ->]; [lia|apply Zdigits2_succ; lia]. }
      rewrite fexp_eq in Hd. lia.
    - pose proof (Zdigits2_nonneg m1). lia. }
  pose proof (shr_fexp_value m1 e1 loc_Exact Hm1pos Hpre1) as V2. cbv zeta in V2.
  destruct (shr_fexp prec emax m1 e1 loc_Exact) as [r2 e2]. cbn [fst snd] in V2.
  destruct V2 as [Vq2 Ve2].
  set (n2 := fexp prec emax (Zdigits2 m1 + e1) - e1) in *.
  assert (Hn2 : 0 <= n2) by (subst n2; lia).
  destruct (shr_m r2) as [|m2|m2] eqn:Em2; trivial.
  destruct (e2 <=? emax - prec); trivial.
  assert (Hp1 : 0 < 2 ^ n1) by (apply Z.pow_pos_nonneg; lia).
  assert (Hp2 : 0 < 2 ^ n2) by (apply Z.pow_pos_nonneg; lia).
  replace (e2 - e) with (n1 + n2) by lia.
  rewrite Z.pow_add_r by lia.
  rewrite <- Z.div_div by lia.
  rewrite <- Vq. split; [lia|].
  rewrite Vq2. split.
  - apply Z.div_le_mono; lia.
  - apply Z.le_trans with ((shr_m r1 + 1) / 2 ^ n2).
    + apply Z.div_le_mono; lia.
    + assert (H1 : (shr_m r1 + 1) / 2 ^ n2 <= (shr_m r1 + 1 * 2 ^ n2) / 2 ^ n2)
        by (apply Z.div_le_mono; lia).
      rewrite Z.div_add in H1 by lia. exact H1.
Qed.

(** Rounding does not cross a power of two from below... *)
Lemma binary_round_aux_lt_pow2 (s : bool) (m e t : Z) (l : location) :
  0 <= m -> e <= fexp prec emax (Zdigits2 m + e) ->
  e <= t -> m < 2 ^ (t - e) ->
  match binary_round_aux prec emax s m e l with
  | S754_finite _ m' e' => e' <= t -> Zpos m' <= 2 ^ (t - e')
  | _ => True
  end.
Proof.
  intros Hm Hpre Ht Hlt.
  pose proof (binary_round_aux_value s m e l Hm Hpre) as H.
  destruct (binary_round_aux prec emax s m e l) as [| | |s' m' e']; trivial.
  destruct H as (He & _ & Hup). intros He'.
  assert (Hp : 0 < 2 ^ (e' - e)) by (apply Z.pow_pos_nonneg; lia).
  assert (Hq : m / 2 ^ (e' - e) < 2 ^ (t - e')).
  { apply Z.div_lt_upper_bound; [lia|].
    rewrite <- Z.pow_add_r by lia.
    replace (e' - e + (t - e')) with (t - e) by lia. exact Hlt. }
  lia.
Qed.

(** ... nor from above. *)
Lemma binary_round_aux_ge_pow2 (s : bool) (m e t : Z) (l : location) :
  0 <= m -> e <= fexp prec emax (Zdigits2 m + e) ->
  e <= t -> 2 ^ (t - e) <= m ->
  match binary_round_aux prec emax s m e l with
  | S754_finite _ m' e' => e' <= t -> 2 ^ (t - e') <= Zpos m'
  | _ => True
  end.
Proof.
  intros Hm Hpre Ht Hge.
  pose proof (binary_round_aux_value s m e l Hm Hpre) as H.
  destruct (binary_round_aux prec emax s m e l) as [| | |s' m' e']; trivial.
  destruct H as (He & Hlo & _). intros He'.
  assert (Hp : 0 < 2 ^ (e' - e)) by (apply Z.pow_pos_nonneg; lia).
  assert (Hq : 2 ^ (t - e') <= m / 2 ^ (e' - e)).
  { apply Z.div_le_lower_bound; [lia|].
    rewrite <- Z.pow_add_r by lia.
    replace (e' - e + (t - e')) with (t - e) by lia. exact Hge. }
  lia.
Qed.

(** ** The unit interval *)

Lemma pow2_digits (k : Z) (m : positive) :
  0 <= k -> Zpos m = 2 ^ k -> Zpos (digits2_pos m) = k + 1.
Proof.
  intros Hk Hm. change (Zpos (digits2_pos m)) with (Zdigits2 (Zpos m)).
  rewrite Hm. apply Zdigits2_pow2, Hk.
Qed.

(** A binary32 number in the unit interval is [1.0] or below it. *)
Lemma in_unit_cases (m : positive) (e : Z) :
  bounded prec emax m e = true ->
  in_unit (S754_finite false m e) = true ->
  (m = 8388608%positive /\ e = -23) \/ (e <= 0 /\ Zpos m < 2 ^ (- e)).
Proof.
  intros Hb H. cbn [in_unit] in H. apply andb_prop in H. destruct H as [He Hm].
  apply Z.leb_le in He, Hm.
  destruct (Z.eq_dec (Zpos m) (2 ^ (- e))) as [E|E]; [left|right; lia].
  apply bounded_inv in Hb. destruct Hb as [Hc _].
  rewrite (pow2_digits (- e) m) in Hc by (assumption || lia).
  assert (e = -23) by lia. subst e. split; [|reflexivity].
  change (2 ^ (- -23)) with 8388608 in E. congruence.
Qed.

(** A binary32 number that is at least one is [1.0] or above it. *)
Lemma ge_one_cases (m : positive) (e : Z) :
  bounded prec emax m e = true ->
  ge_one (S754_finite false m e) = true ->
  (m = 8388608%positive /\ e = -23) \/
  (0 <= e /\ 2 <= Zpos m) \/ (e < 0 /\ 2 ^ (- e) < Zpos m).
Proof.
  intros Hb H. cbn [ge_one] in H.
  pose proof (bounded_inv m e Hb) as [Hc _].
  destruct (Z.leb_spec 0 e) as [He|He].
  - right. left. split; [exact He|].
    destruct (Z.eq_dec (Zpos m) 1) as [E|E]; [|lia].
    rewrite (pow2_digits 0 m) in Hc by (assumption || lia). lia.
  - apply Z.leb_le in H.
    destruct (Z.eq_dec (Zpos m) (2 ^ (- e))) as [E|E]; [left|right; right; lia].
    rewrite (pow2_digits (- e) m) in Hc by (lia || assumption).
    assert (e = -23) by lia. subst e. split; [|reflexivity].
    change (2 ^ (- -23)) with 8388608 in E. congruence.
Qed.

Lemma in_unit_mag (m : positive) (e : Z) :
  in_unit (S754_finite false m e) = true ->
  Zpos (digits2_pos m) + e <= 1.
Proof.
  intros H. cbn [in_unit] in H. apply andb_prop in H. destruct H as [He Hm].
  apply Z.leb_le in He, Hm.
  change (Zpos (digits2_pos m)) with (Zdigits2 (Zpos m)).
  assert (Zdigits2 (Zpos m) <= Zdigits2 (2 ^ (- e)))
    by (apply Zdigits2_le; lia).
  rewrite Zdigits2_pow2 in H by lia. lia.
Qed.

(** The product of two numbers of the unit interval is in the unit
    interval: rounding does not exceed [1.0]. *)
Lemma fmul_in_unit (x y : f32) :
  valid x = true -> valid y = true ->
  in_unit x = true -> in_unit y = true -> in_unit (fmul x y) = true.
Proof.
  intros Vx Vy Hx Hy.
  destruct x as [[]|[]| |[] mx ex], y as [[]|[]| |[] my ey];
    try discriminate; try reflexivity.
  destruct (in_unit_cases mx ex Vx Hx) as [[-> ->]|[Hex Hmx]].
  { change (S754_finite false 8388608 (-23)) with f1.
    rewrite fmul_1_l by exact Vy. exact Hy. }
  destruct (in_unit_cases my ey Vy Hy) as [[-> ->]|[Hey Hmy]].
  { change (S754_finite false 8388608 (-23)) with f1.
    rewrite fmul_1_r by exact Vx. exact Hx. }
  pose proof (in_unit_mag mx ex Hx) as Mx.
  pose proof (in_unit_mag my ey Hy) as My.
  pose proof (fmul_finite_spec false mx ex false my ey Vx Vy) as S.
  pose proof (bounded_inv mx ex Vx) as [Cx _].
  pose proof (bounded_inv my ey Vy) as [Cy _].
  pose proof (Zdigits2_mul (Zpos mx) (Zpos my) eq_refl eq_refl) as D.
  rewrite <- Pos2Z.inj_mul in D. cbn [Zdigits2] in D.
  pose proof (Pos2Z.is_pos (digits2_pos mx)) as Px.
  pose proof (Pos2Z.is_pos (digits2_pos my)) as Py.
  assert (Hpre : ex + ey <= fexp prec emax (Zdigits2 (Zpos (mx * my)) + (ex + ey))).
  { rewrite fexp_eq. cbn [Zdigits2]. lia. }
  assert (Hlt : Zpos (mx * my) < 2 ^ (0 - (ex + ey))).
  { replace (0 - (ex + ey)) with (- ex + - ey) by lia.
    rewrite Z.pow_add_r by lia. rewrite Pos2Z.inj_mul.
    apply Z.mul_lt_mono_nonneg; lia. }
  pose proof (binary_round_aux_lt_pow2 false (Zpos (mx * my)) (ex + ey) 0
                loc_Exact ltac:(lia) Hpre ltac:(lia) Hlt) as V.
  unfold fmul, SFmul in *. cbn [xorb] in *.
  destruct (binary_round_aux prec emax false (Zpos (mx * my)) (ex + ey) loc_Exact)
    as [s|s| |s m e].
  - subst s. reflexivity.
  - lia.
  - contradiction.
  - destruct S as (-> & Hb & Hmag).
    apply bounded_inv in Hb. destruct Hb as [Hc _].
    assert (He : e <= 0) by lia.
    cbn [in_unit]. apply andb_true_intro. split; [apply Z.leb_le; lia|].
    apply Z.leb_le. specialize (V He). rewrite Z.sub_0_l in V. exact V.
Qed.

Lemma ge_one_mag (m : positive) (e : Z) :
  ge_one (S754_finite false m e) = true -> 1 <= Zpos (digits2_pos m) + e.
Proof.
  intros H. cbn [ge_one] in H.
  pose proof (Pos2Z.is_pos (digits2_pos m)) as Pm.
  destruct (Z.leb_spec 0 e) as [He|He]; [lia|].
  apply Z.leb_le in H.
  change (Zpos (digits2_pos m)) with (Zdigits2 (Zpos m)).
  assert (Zdigits2 (2 ^ (- e)) <= Zdigits2 (Zpos m))
    by (apply Zdigits2_le; [apply Z.pow_nonneg|]; lia).
  rewrite Zdigits2_pow2 in H0 by lia. lia.
Qed.

(** The square root of a number that is at least one is at least one. *)
Lemma fsqrt_ge_one (m : positive) (e : Z) :
  bounded prec emax m e = true ->
  ge_one (S754_finite false m e) = true ->
  exists m' e',
    fsqrt (S754_finite false m e) = S754_finite false m' e' /\
    bounded prec emax m' e' = true /\
    ge_one (S754_finite false m' e') = true.
Proof.
  intros Hb Hge.
  pose proof (ge_one_mag m e Hge) as Hmag.
  pose proof (bounded_inv m e Hb) as [Hc He104].
  pose proof (Pos2Z.is_pos (digits2_pos m)) as Pm.
  unfold fsqrt, SFsqrt, SFsqrt_core_binary.
  cbn [Zdigits2]. rewrite fexp_eq, !Z.div2_div.
  set (M := (Zpos (digits2_pos m) + e + 1) / 2).
  assert (HM1 : 1 <= M <= 65).
  { subst M. split.
    - apply Z.div_le_lower_bound; lia.
    - apply Z.div_le_upper_bound; lia. }
  set (e' := Z.min (Z.max (M - 24) (-149)) (e / 2)).
  assert (He2 : 2 * (e / 2) <= e < 2 * (e / 2) + 2).
  { pose proof (Z.div_mod e 2). pose proof (Z.mod_pos_bound e 2). lia. }
  assert (Hs : 0 <= e - 2 * e') by lia.
  set (m' := match e - 2 * e' with
             | 0 => Zpos m
             | Zpos _ => Z.shiftl (Zpos m) (e - 2 * e')
             | Zneg _ => 0
             end).
  assert (Hm' : m' = Zpos m * 2 ^ (e - 2 * e')).
  { subst m'. destruct (e - 2 * e') as [|p|p] eqn:E; try lia.
    rewrite Z.shiftl_mul_pow2 by lia. reflexivity. }
  assert (Hp : 0 < 2 ^ (e - 2 * e')) by (apply Z.pow_pos_nonneg; lia).
  assert (Hm'pos : 0 < m') by nia.
  assert (Hd' : Zdigits2 m' = Zpos (digits2_pos m) + (e - 2 * e')).
  { rewrite Hm', Zdigits2_shiftl by lia. reflexivity. }
  pose proof (Z.sqrtrem_sqrt m') as Hfst.
  destruct (Z.sqrtrem m') as [q r]. cbn [fst] in Hfst. subst q.
  destruct (Zdigits2_sqrt m' Hm'pos) as [Hq Hdq].
  assert (HM : Zdigits2 (Z.sqrt m') + e' = M).
  { rewrite Hdq, Hd'. subst M.
    replace (Zpos (digits2_pos m) + (e - 2 * e') + 1)
      with (Zpos (digits2_pos m) + e + 1 + (- e') * 2) by lia.
    rewrite Z.div_add by lia. lia. }
  assert (Hpre : e' <= fexp prec emax (Zdigits2 (Z.sqrt m') + e')).
  { rewrite HM, fexp_eq. lia. }
  assert (Hthr : e' <= 0 -> 2 ^ (0 - e') <= Z.sqrt m').
  { intros He'.
    assert (Hsq : 2 ^ (0 - e') * 2 ^ (0 - e') <= m').
    { rewrite <- Z.pow_add_r by lia. rewrite Hm'.
      cbn [ge_one] in Hge.
      destruct (Z.leb_spec 0 e) as [He|He].
      - apply Z.le_trans with (1 * 2 ^ (e - 2 * e')); [|nia].
        rewrite Z.mul_1_l. apply Z.pow_le_mono_r; lia.
      - apply Z.leb_le in Hge.
        apply Z.le_trans with (2 ^ (- e) * 2 ^ (e - 2 * e')); [|nia].
        rewrite <- Z.pow_add_r by lia. apply Z.pow_le_mono_r; lia. }
    assert (H0 : 0 <= 2 ^ (0 - e')) by (apply Z.pow_nonneg; lia).
    rewrite <- (Z.sqrt_square (2 ^ (0 - e'))) by exact H0.
    apply Z.sqrt_le_mono. exact Hsq. }
  match goal with |- context [binary_round_aux _ _ _ _ _ ?l] =>
    pose proof (binary_round_aux_spec false (Z.sqrt m') e' l ltac:(lia) Hpre) as S;
    pose proof (binary_round_aux_value false (Z.sqrt m') e' l ltac:(lia) Hpre) as V;
    destruct (Z_le_gt_dec e' 0) as [He'|He'];
    [pose proof (binary_round_aux_ge_pow2 false (Z.sqrt m') e' 0 l
                   ltac:(lia) Hpre He' (Hthr He')) as G|];
    destruct (binary_round_aux prec emax false (Z.sqrt m') e' l) as [s|s| |s m2 e2]
  end; rewrite ?HM in S; try contradiction; try lia.
  - destruct S as (-> & Hb2 & _). exists m2, e2.
    split; [reflexivity|]. split; [exact Hb2|].
    cbn [ge_one]. destruct (Z.leb_spec 0 e2) as [H0|H0]; [reflexivity|].
    apply Z.leb_le. rewrite Z.sub_0_l in G. apply G. lia.
  - destruct S as (-> & Hb2 & _). exists m2, e2.
    split; [reflexivity|]. split; [exact Hb2|].
    cbn [ge_one]. destruct (Z.leb_spec 0 e2) as [H0|H0]; [reflexivity|]. lia.
Qed.

(** The reciprocal of a number that is at least one is in the unit
    interval. *)
Lemma fdiv_1_in_unit (m : positive) (e : Z) :
  bounded prec emax m e = true ->
  ge_one (S754_finite false m e) = true ->
  in_unit (fdiv f1 (S754_finite false m e)) = true /\
  valid (fdiv f1 (S754_finite false m e)) = true.
Proof.
  intros Hb Hge.
  destruct (ge_one_cases m e Hb Hge) as [[-> ->]|Hgt].
  { split; vm_compute; reflexivity. }
  pose proof (ge_one_mag m e Hge) as Hmag.
  pose proof (bounded_inv m e Hb) as [Hc He104].
  pose proof (Pos2Z.is_pos (digits2_pos m)) as Pm.
  set (My := Zpos (digits2_pos m) + e) in *.
  unfold fdiv, f1, SFdiv, SFdiv_core_binary.
  cbn [xorb Zdigits2].
  change (Zpos (digits2_pos 8388608)) with 24.
  replace (24 + -23 - (Zpos (digits2_pos m) + e)) with (1 - My) by (subst My; lia).
  rewrite fexp_eq.
  set (e' := Z.min (Z.max (1 - My - 24) (-149)) (-23 - e)).
  assert (He' : e' <= -24) by lia.
  assert (Hs : 0 <= -23 - e - e') by lia.
  set (m' := match -23 - e - e' with
             | 0 => 8388608
             | Zpos _ => Z.shiftl 8388608 (-23 - e - e')
             | Zneg _ => 0
             end).
  assert (Hm' : m' = 2 ^ (- e - e')).
  { subst m'. replace (- e - e') with (23 + (-23 - e - e')) by lia.
    rewrite Z.pow_add_r by lia.
    destruct (-23 - e - e') as [|p|p] eqn:E; try lia.
    rewrite Z.shiftl_mul_pow2 by lia. reflexivity. }
  pose proof (Z_div_mod m' (Zpos m) ltac:(lia)) as Hdm.
  pose proof (Zdigits2_div_pow2 (- e - e') (Zpos m) ltac:(lia) ltac:(lia)) as Hq.
  cbv zeta in Hq. rewrite <- Hm' in Hq.
  unfold Z.div in Hq.
  destruct (Z.div_eucl m' (Zpos m)) as [q r]. cbn [fst] in Hq.
  destruct Hq as (Hq0 & Hqlo & Hqhi). cbn [Zdigits2] in Hqlo, Hqhi.
  destruct Hdm as [Hdm Hr].
  pose proof (Zdigits2_nonneg q) as Hdq.
  assert (Hp' : 0 < 2 ^ (0 - e')) by (apply Z.pow_pos_nonneg; lia).
  assert (Hlt : q < 2 ^ (0 - e')).
  { destruct Hgt as [[He0 Hm2]|[He0 Hm2]].
    - assert (2 ^ (- e - e') <= 2 ^ (0 - e')) by (apply Z.pow_le_mono_r; lia).
      nia.
    - assert (Hsplit : 2 ^ (- e - e') = 2 ^ (- e) * 2 ^ (0 - e')).
      { rewrite <- Z.pow_add_r by lia. f_equal; lia. }
      assert (0 < 2 ^ (- e)) by (apply Z.pow_pos_nonneg; lia).
      destruct (Z_lt_le_dec q (2 ^ (0 - e'))) as [|Hge']; [assumption|].
      exfalso. nia. }
  match goal with |- context [binary_round_aux _ _ _ _ _ ?l] =>
    pose proof (binary_round_aux_spec false q e' l Hq0) as S;
    pose proof (binary_round_aux_lt_pow2 false q e' 0 l Hq0) as V;
    destruct (binary_round_aux prec emax false q e' l) as [s|s| |s m2 e2]
  end; rewrite fexp_eq in S, V.
  - assert (H' : e' <= Z.max (Zdigits2 q + e' - 24) (-149)) by (subst My e'; lia).
    destruct (S H') as [-> _]. split; reflexivity.
  - assert (H' : e' <= Z.max (Zdigits2 q + e' - 24) (-149)) by (subst My e'; lia).
    specialize (S H'). exfalso. subst My. lia.
  - assert (H' : e' <= Z.max (Zdigits2 q + e' - 24) (-149)) by (subst My e'; lia).
    exact (False_ind _ (S H')).
  - assert (H' : e' <= Z.max (Zdigits2 q + e' - 24) (-149)) by (subst My e'; lia).
    destruct (S H') as (-> & Hb2 & Hm2).
    specialize (V H' ltac:(lia) Hlt).
    pose proof (bounded_inv m2 e2 Hb2) as [Hc2 _].
    assert (He2 : e2 <= 0) by (subst My; lia).
    split; [|exact Hb2].
    cbn [in_unit]. apply andb_true_intro.
    split; apply Z.leb_le; [lia|].
    specialize (V He2). rewrite Z.sub_0_l in V. exact V.
Qed.

Lemma f32_of_count_ge_one (c : Z) :
  1 <= c <= 2 ^ 24 ->
  exists m e,
    f32_of_count c = S754_finite false m e /\
    bounded prec emax m e = true /\
    ge_one (S754_finite false m e) = true.
Proof.
  intros Hc.
  destruct (Z.eq_dec c (2 ^ 24)) as [->|Hne].
  - eexists. eexists. split; [vm_compute; reflexivity|].
    split; reflexivity.
  - destruct (f32_of_count_pos c) as (E & Hm & HD & Hb); [lia|lia|].
    eexists. eexists. split; [exact E|]. split; [exact Hb|].
    cbn [ge_one].
    destruct (Z.leb_spec 0 (Zdigits2 c - 24)) as [H0|H0]; [reflexivity|].
    apply Z.leb_le. rewrite Hm.
    replace (- (Zdigits2 c - 24)) with (24 - Zdigits2 c) by lia.
    assert (0 < 2 ^ (24 - Zdigits2 c)) by (apply Z.pow_pos_nonneg; lia).
    nia.
Qed.

Lemma in_unit_not_inf (x : f32) : in_unit x = true -> is_inf x = false.
Proof. destruct x as [[]|[]| |[] m e]; cbn; congruence. Qed.

Lemma is_01_in_unit (a : f32) : is_01 a = true -> in_unit a = true.
Proof. intros H. destruct (is_01_cases a H) as [-> | ->]; reflexivity. Qed.

(** * Tensors *)

Lemma nth_map_seq (A : Type) (f : nat -> A) (n i : nat) (d : A) :
  (i < n)%nat -> nth i (map f (seq 0 n)) d = f i.
Proof.
  intros Hi.
  rewrite (nth_indep _ d (f 0%nat)) by (rewrite length_map, length_seq; exact Hi).
  rewrite (map_nth f (seq 0 n) 0%nat i), seq_nth by exact Hi. reflexivity.
Qed.

Lemma get_tab (r c : nat) (f : nat -> nat -> f32) (i j : nat) :
  (i < r)%nat -> (j < c)%nat -> get (tab r c f) i j = f i j.
Proof.
  intros Hi Hj. unfold get, tab. cbn [elems].
  rewrite (nth_map_seq _ (fun i => map (fun j => f i j) (seq 0 c)) r i [] Hi).
  apply (nth_map_seq _ (fun j => f i j) c j f0 Hj).
Qed.

Lemma tab_ext (r c : nat) (f g : nat -> nat -> f32) :
  (forall i j, (i < r)%nat -> (j < c)%nat -> f i j = g i j) ->
  tab r c f = tab r c g.
Proof.
  intros H. unfold tab. f_equal.
  apply map_ext_in. intros i Hi. apply in_seq in Hi.
  apply map_ext_in. intros j Hj. apply in_seq in Hj.
  apply H; lia.
Qed.

Lemma check_entries_sound (p : f32 -> bool) (t : tensor) :
  check_entries p t = true -> entries p t.
Proof.
  unfold check_entries, entries. intros H i j Hi Hj.
  rewrite forallb_forall in H.
  assert (Hrow := H i ltac:(apply in_seq; lia)).
  rewrite forallb_forall in Hrow.
  apply Hrow, in_seq. lia.
Qed.

Lemma forallb_seq (n : nat) (p : nat -> bool) :
  forallb p (seq 0 n) = true -> forall k, (k < n)%nat -> p k = true.
Proof.
  intros H k Hk. rewrite forallb_forall in H. apply H, in_seq. lia.
Qed.

(** ** Broadcasting, transposition and the identity *)

Lemma bdim_same (n : nat) : bdim n n = Some n.
Proof. unfold bdim. rewrite Nat.eqb_refl. reflexivity. Qed.

Lemma bdim_1_l (n : nat) : bdim 1 n = Some n.
Proof.
  unfold bdim. destruct (Nat.eqb_spec 1 n) as [->|_]; reflexivity.
Qed.

Lemma bdim_1_r (n : nat) : bdim n 1 = Some n.
Proof.
  unfold bdim. destruct (Nat.eqb_spec n 1) as [->|_]; reflexivity.
Qed.

Lemma bidx_lt (n i : nat) : (i < n)%nat -> bidx n i = i.
Proof.
  unfold bidx. intros Hi. destruct (Nat.eqb_spec n 1) as [->|_]; lia.
Qed.

Lemma bidx_1 (i : nat) : bidx 1 i = 0%nat.
Proof. reflexivity. Qed.

Lemma nrows_transpose (t : tensor) : nrows (transpose t) = ncols t.
Proof. reflexivity. Qed.

Lemma ncols_transpose (t : tensor) : ncols (transpose t) = nrows t.
Proof. reflexivity. Qed.

Lemma get_transpose (t : tensor) (i j : nat) :
  (i < ncols t)%nat -> (j < nrows t)%nat -> get (transpose t) i j = get t j i.
Proof.
  intros Hi Hj. unfold transpose. rewrite get_tab by assumption. reflexivity.
Qed.

Lemma get_F_relu (t : tensor) (i j : nat) :
  (i < nrows t)%nat -> (j < ncols t)%nat ->
  get (F_relu t) i j = relu1 (get t i j).
Proof.
  intros Hi Hj. unfold F_relu, tmap. rewrite get_tab by assumption. reflexivity.
Qed.

Lemma F_relu_valid (t : tensor) : entries valid t -> entries valid (F_relu t).
Proof.
  intros H i j Hi Hj. unfold F_relu, tmap in *. cbn [nrows ncols tab] in Hi, Hj.
  rewrite get_tab by assumption. apply relu1_valid, H; assumption.
Qed.

Lemma get_eye (n i j : nat) :
  (i < n)%nat -> (j < n)%nat ->
  get (torch_eye n) i j = if Nat.eqb i j then f1 else f0.
Proof.
  intros Hi Hj. unfold torch_eye. rewrite get_tab by assumption. reflexivity.
Qed.

(** Adding the identity to a square matrix. *)
Lemma torch_add_eye (n : nat) (A : tensor) :
  square n A ->
  torch_add A (torch_eye n) =
  Some (tab n n (fun i j => fadd (get A i j) (get (torch_eye n) i j))).
Proof.
  intros [Hr Hc]. unfold torch_add, broadcast2.
  cbn [nrows ncols torch_eye tab]. rewrite Hr, Hc, bdim_same.
  f_equal. apply tab_ext. intros i j Hi Hj.
  rewrite !(bidx_lt n) by assumption. reflexivity.
Qed.

Lemma torch_add_zeros_eye (n : nat) :
  torch_add (torch_zeros n n) (torch_eye n) = Some (torch_eye n).
Proof.
  rewrite torch_add_eye by (split; reflexivity).
  f_equal. unfold torch_eye at 2. apply tab_ext. intros i j Hi Hj.
  unfold torch_zeros. rewrite get_tab, get_eye by assumption.
  destruct (Nat.eqb i j); reflexivity.
Qed.

(** ** Matrix products *)

Lemma torch_mm_shape (a b : tensor) :
  ncols a = nrows b ->
  torch_mm a b =
  Some (tab (nrows a) (ncols b) (fun i j =>
          fsum (ncols a) (fun k => fmul (get a i k) (get b k j)))).
Proof. intros H. unfold torch_mm. rewrite H, Nat.eqb_refl. reflexivity. Qed.

(** Without bias, [F.linear] is the product with the transposed weight. *)
Lemma F_linear_no_bias (x w : tensor) :
  F_linear x (mkLinear w None) = torch_mm x (transpose w).
Proof.
  unfold F_linear. cbn [weight bias].
  destruct (torch_mm x (transpose w)); reflexivity.
Qed.

Lemma torch_mm_transpose_valid (X w out : tensor) :
  entries valid X -> entries valid w ->
  torch_mm X (transpose w) = Some out -> entries valid out.
Proof.
  intros HX Hw H. unfold torch_mm in H.
  destruct (Nat.eqb_spec (ncols X) (nrows (transpose w))) as [Hc|]; [|discriminate].
  injection H as <-. cbn [nrows ncols transpose tab] in *.
  intros i j Hi Hj. rewrite get_tab by assumption.
  cbn [nrows ncols tab] in Hi, Hj.
  apply fsum_valid. intros k Hk. rewrite get_transpose by lia.
  apply fmul_valid; [apply HX|apply Hw]; lia.
Qed.

(** Aggregation with the identity returns the features, up to the sign of
    zeros, when all of them are finite. *)
Lemma torch_mm_eye (n : nat) (X : tensor) :
  nrows X = n -> entries valid X -> entries is_finite X ->
  torch_mm (torch_eye n) X =
  Some (tab n (ncols X) (fun i j => fadd f0 (get X i j))).
Proof.
  intros Hr Hv Hf. rewrite torch_mm_shape by (cbn; lia).
  cbn [nrows ncols torch_eye tab]. f_equal. apply tab_ext. intros i j Hi Hj.
  rewrite (fsum_single n i).
  - rewrite get_eye, Nat.eqb_refl by assumption.
    rewrite fmul_1_l by (apply Hv; lia). reflexivity.
  - exact Hi.
  - intros k Hk Hne. rewrite get_eye by assumption.
    destruct (Nat.eqb_spec i k); [congruence|].
    apply fmul_zero_l, Hf; lia.
Qed.

(** The projection does not see the sign of zero features. *)
Lemma torch_mm_transpose_mod_zero_sign (X w : tensor) :
  ncols X = ncols w -> entries valid X -> entries valid w ->
  torch_mm (tab (nrows X) (ncols X) (fun i j => fadd f0 (get X i j)))
           (transpose w)
  = torch_mm X (transpose w).
Proof.
  intros Hc HX Hw.
  rewrite !torch_mm_shape by (cbn [nrows ncols tab transpose]; lia).
  cbn [nrows ncols tab transpose]. f_equal. apply tab_ext. intros i j Hi Hj.
  apply fsum_mod_zero_sign.
  - intros k Hk. rewrite get_tab, get_transpose by lia.
    apply fmul_valid; [apply fadd_valid; [reflexivity|]|]; auto.
    apply Hw; lia.
  - intros k Hk. rewrite get_transpose by lia.
    apply fmul_valid; [apply HX|apply Hw]; lia.
  - intros k Hk. rewrite get_tab by lia. apply fmul_mod_zero_sign.
Qed.

(** * The normalizer *)

(** Entries of the locals of [SimpleGCNLayer.forward]. *)

Lemma get_degree (adj : tensor) (i : nat) :
  (i < nrows adj)%nat -> get (degree adj) i 0 = spec_d adj i.
Proof.
  intros Hi. unfold degree, torch_sum_dim1_keepdim.
  rewrite get_tab by lia. reflexivity.
Qed.

Lemma get_degree_inv_sqrt (adj : tensor) (i : nat) :
  (i < nrows adj)%nat ->
  get (degree_inv_sqrt adj) i 0 =
  if is_inf (pow_neg_half (spec_d adj i)) then f0
  else pow_neg_half (spec_d adj i).
Proof.
  intros Hi.
  unfold degree_inv_sqrt, setitem_isinf, torch_pow_neg_half, tmap.
  cbn [nrows ncols tab degree torch_sum_dim1_keepdim].
  rewrite !get_tab by lia.
  rewrite get_degree by exact Hi. reflexivity.
Qed.

Lemma nrows_degree_inv_sqrt (adj : tensor) :
  nrows (degree_inv_sqrt adj) = nrows adj.
Proof. reflexivity. Qed.

Lemma ncols_degree_inv_sqrt (adj : tensor) :
  ncols (degree_inv_sqrt adj) = 1%nat.
Proof. reflexivity. Qed.

(** The two broadcasts of [adj_norm] on a square matrix: the column
    [degree_inv_sqrt] scales the rows, its transpose scales the columns. *)
Lemma adj_norm_square (n : nat) (adj : tensor) :
  square n adj ->
  adj_norm adj =
  Some (tab n n (fun i j =>
    fmul (fmul (get (degree_inv_sqrt adj) i 0) (get adj i j))
         (get (degree_inv_sqrt adj) j 0))).
Proof.
  intros [Hr Hc]. unfold adj_norm, torch_mul, broadcast2.
  rewrite nrows_degree_inv_sqrt, ncols_degree_inv_sqrt, Hr, Hc.
  rewrite bdim_same, bdim_1_l.
  rewrite nrows_transpose, ncols_transpose.
  rewrite nrows_degree_inv_sqrt, ncols_degree_inv_sqrt, Hr.
  cbn [nrows ncols tab]. rewrite bdim_1_r, bdim_same.
  f_equal. apply tab_ext. intros i j Hi Hj.
  rewrite !bidx_1, !(bidx_lt n) by assumption.
  rewrite get_tab by assumption.
  rewrite !bidx_1, !(bidx_lt n) by assumption.
  rewrite get_transpose; [reflexivity| |].
  - rewrite ncols_degree_inv_sqrt. lia.
  - rewrite nrows_degree_inv_sqrt, Hr. exact Hj.
Qed.

Lemma spec_d_valid (A : tensor) (i : nat) :
  entries valid A -> (i < nrows A)%nat -> valid (spec_d A i) = true.
Proof.
  intros HA Hi. unfold spec_d. apply fsum_valid. intros k Hk. apply HA; assumption.
Qed.

(** On binary32 data the test of the code (the power is infinite) and the
    test of the specification (the degree is zero) select the same rows. *)
Lemma get_degree_inv_sqrt_spec (A : tensor) (i : nat) :
  entries valid A -> (i < nrows A)%nat ->
  get (degree_inv_sqrt A) i 0 = spec_d_inv_sqrt A i.
Proof.
  intros HA Hi. rewrite get_degree_inv_sqrt by exact Hi.
  unfold spec_d_inv_sqrt.
  rewrite pow_neg_half_inf_iff by (apply spec_d_valid; assumption).
  reflexivity.
Qed.

Lemma adj_norm_spec_normalizer (n : nat) (A : tensor) :
  square n A -> entries valid A -> adj_norm A = Some (spec_normalizer A).
Proof.
  intros Hsq HA. rewrite (adj_norm_square n A Hsq).
  destruct Hsq as [Hr Hc]. unfold spec_normalizer. rewrite Hr, Hc.
  f_equal. apply tab_ext. intros i j Hi Hj.
  rewrite !get_degree_inv_sqrt_spec by (try exact HA; lia).
  reflexivity.
Qed.

Lemma degree_inv_sqrt_fin_nonneg (A : tensor) (i : nat) :
  (i < nrows A)%nat -> nonneg (spec_d A i) = true ->
  fin_nonneg (get (degree_inv_sqrt A) i 0) = true.
Proof.
  intros Hi Hd. rewrite get_degree_inv_sqrt by exact Hi.
  apply pow_neg_half_nonneg, Hd.
Qed.

Lemma degree_inv_sqrt_fin_small (A : tensor) (i : nat) :
  entries is_01 A -> (i < nrows A)%nat ->
  fin_small (get (degree_inv_sqrt A) i 0) = true.
Proof.
  intros HA Hi. rewrite get_degree_inv_sqrt by exact Hi.
  apply pow_neg_half_small. unfold spec_d. apply fsum_zero_or_ge1.
  intros k Hk. apply HA; assumption.
Qed.

(** Entry [(i, j)] of the normalized unweighted adjacency. *)
Lemma adj_norm_entry_01 (x y a : f32) :
  fin_small x = true -> fin_small y = true -> is_01 a = true ->
  fin_nonneg (fmul (fmul x a) y) = true.
Proof.
  intros Hx Hy Ha. destruct (is_01_cases a Ha) as [-> | ->].
  - rewrite fmul_fin_nonneg_0 by (apply fin_small_nonneg, Hx).
    rewrite fmul_0_fin_nonneg by (apply fin_small_nonneg, Hy). reflexivity.
  - rewrite fmul_1_r by (apply fin_nonneg_valid, fin_small_nonneg, Hx).
    apply fmul_small; assumption.
Qed.

(** The row sums of the identity are [1.0]. *)
Lemma spec_d_eye (n i : nat) : (i < n)%nat -> spec_d (torch_eye n) i = f1.
Proof.
  intros Hi. unfold spec_d. cbn [ncols torch_eye tab].
  rewrite (fsum_single n i).
  - rewrite get_eye, Nat.eqb_refl by assumption. reflexivity.
  - exact Hi.
  - intros k Hk Hne. rewrite get_eye by assumption.
    destruct (Nat.eqb_spec i k); [congruence|reflexivity].
Qed.

Lemma adj_norm_eye (n : nat) : adj_norm (torch_eye n) = Some (torch_eye n).
Proof.
  rewrite (adj_norm_square n) by (split; reflexivity).
  f_equal. unfold torch_eye at 4. apply tab_ext. intros i j Hi Hj.
  rewrite !get_degree_inv_sqrt by assumption.
  rewrite !spec_d_eye by assumption.
  rewrite get_eye by assumption.
  destruct (Nat.eqb i j); reflexivity.
Qed.

(** C2.  For every N x N adjacency matrix [A] holding binary32 data the
    normalizer returns the N x N matrix with
    [A_norm[i,j] = d_inv_sqrt[i] * A[i,j] * d_inv_sqrt[j]], an elementwise
    scaling by the outer product, where [d[i]] is the sum of row [i] and
    [d_inv_sqrt[i]] is [d[i]^(-0.5)], with [0.0] where [d[i] = 0].  When
    [A] is unweighted and includes the self-loops, no degree is zero and
    [d_inv_sqrt[i] = d[i]^(-0.5)] for every row. *)
Theorem C2_normalizer_outer_product_scaling (n : nat) (A : tensor) :
  square n A -> entries valid A ->
  exists A_norm,
    adj_norm A = Some A_norm /\ square n A_norm /\
    (forall i j, (i < n)%nat -> (j < n)%nat ->
       get A_norm i j =
       fmul (fmul (spec_d_inv_sqrt A i) (get A i j)) (spec_d_inv_sqrt A j)) /\
    (entries is_01 A -> (forall i, (i < n)%nat -> get A i i = f1) ->
     forall i, (i < n)%nat ->
       spec_d_inv_sqrt A i = pow_neg_half (spec_d A i)).
Proof.
  intros Hsq HA. exists (spec_normalizer A).
  split; [apply (adj_norm_spec_normalizer n); assumption|].
  destruct Hsq as [Hr Hc].
  split; [split; cbn; assumption|]. split.
  - intros i j Hi Hj. unfold spec_normalizer.
    rewrite get_tab by lia. reflexivity.
  - intros H01 Hdiag i Hi. unfold spec_d_inv_sqrt, spec_d.
    rewrite (fsum_with_one (ncols A) i); [reflexivity| |lia|auto].
    intros j Hj. apply H01; lia.
Qed.

Lemma C2_witness :
  exists A_norm,
    adj_norm adj_toy = Some A_norm /\ square 5 A_norm /\
    (forall i j, (i < 5)%nat -> (j < 5)%nat ->
       get A_norm i j =
       fmul (fmul (spec_d_inv_sqrt adj_toy i) (get adj_toy i j))
            (spec_d_inv_sqrt adj_toy j)) /\
    (entries is_01 adj_toy -> (forall i, (i < 5)%nat -> get adj_toy i i = f1) ->
     forall i, (i < 5)%nat ->
       spec_d_inv_sqrt adj_toy i = pow_neg_half (spec_d adj_toy i)).
Proof.
  apply (C2_normalizer_outer_product_scaling 5 adj_toy).
  - split; reflexivity.
  - apply check_entries_sound. vm_compute. reflexivity.
Defined.

(** C3.  For a row [i] whose sum [d[i]] is zero, [d[i]^(-0.5)] is infinite
    and the normalizer puts [0.0] in its place; the call does not fail, and
    row [i] of the normalized matrix consists of zeros.  No degree is
    negative, as the data model requires. *)
Theorem C3_zero_degree_row_is_zero (n : nat) (A : tensor) (i : nat) :
  square n A -> (i < n)%nat ->
  is_zero (spec_d A i) = true ->
  (forall k, (k < n)%nat -> nonneg (spec_d A k) = true) ->
  exists A_norm,
    adj_norm A = Some A_norm /\
    is_inf (pow_neg_half (spec_d A i)) = true /\
    get (degree_inv_sqrt A) i 0 = f0 /\
    forall j, (j < n)%nat -> is_zero (get A_norm i j) = true.
Proof.
  intros Hsq Hi Hz Hdeg.
  pose proof (pow_neg_half_zero (spec_d A i) Hz) as Hinf.
  assert (Hfin : forall j, (j < n)%nat -> is_finite (get A i j) = true).
  { intros j Hj. apply (fsum_finite_inv (ncols A)).
    - apply is_zero_finite, Hz.
    - destruct Hsq as [_ Hc]. lia. }
  assert (Hdi : get (degree_inv_sqrt A) i 0 = f0).
  { destruct Hsq as [Hr _]. rewrite get_degree_inv_sqrt by lia.
    rewrite Hinf. reflexivity. }
  eexists. split; [apply (adj_norm_square n A Hsq)|].
  split; [exact Hinf|]. split; [exact Hdi|].
  intros j Hj. rewrite get_tab by assumption. rewrite Hdi. unfold f0.
  destruct (is_zero_inv _ (fmul_zero_l false (get A i j) (Hfin j Hj))) as [s ->].
  apply fmul_zero_l, fin_nonneg_finite, degree_inv_sqrt_fin_nonneg.
  - destruct Hsq as [Hr _]. lia.
  - apply Hdeg, Hj.
Qed.

Lemma C3_witness :
  exists A_norm,
    adj_norm adj_isolated = Some A_norm /\
    is_inf (pow_neg_half (spec_d adj_isolated 0)) = true /\
    get (degree_inv_sqrt adj_isolated) 0 0 = f0 /\
    forall j, (j < 2)%nat -> is_zero (get A_norm 0 j) = true.
Proof.
  apply (C3_zero_degree_row_is_zero 2 adj_isolated 0).
  - split; reflexivity.
  - lia.
  - reflexivity.
  - apply (forallb_seq 2 (fun k => nonneg (spec_d adj_isolated k))).
    reflexivity.
Defined.

(** C6.  For every unweighted adjacency matrix (entries [0.0] or [1.0]),
    with or without a nonzero row, the normalized matrix contains no NaN
    and no infinite value. *)
Theorem C6_normalized_adjacency_is_finite (n : nat) (A : tensor) :
  square n A -> entries is_01 A ->
  exists A_norm,
    adj_norm A = Some A_norm /\
    forall i j, (i < n)%nat -> (j < n)%nat ->
      is_nan (get A_norm i j) = false /\ is_inf (get A_norm i j) = false.
Proof.
  intros Hsq HA. eexists. split; [apply (adj_norm_square n A Hsq)|].
  destruct Hsq as [Hr Hc].
  intros i j Hi Hj. rewrite get_tab by assumption.
  assert (H : fin_nonneg
    (fmul (fmul (get (degree_inv_sqrt A) i 0) (get A i j))
          (get (degree_inv_sqrt A) j 0)) = true).
  { apply adj_norm_entry_01.
    - apply degree_inv_sqrt_fin_small; [exact HA|lia].
    - apply degree_inv_sqrt_fin_small; [exact HA|lia].
    - apply HA; lia. }
  apply fin_nonneg_finite in H.
  destruct (fmul _ _); cbn in *; try discriminate; auto.
Qed.

Lemma C6_witness :
  exists A_norm,
    adj_norm adj_toy = Some A_norm /\
    forall i j, (i < 5)%nat -> (j < 5)%nat ->
      is_nan (get A_norm i j) = false /\ is_inf (get A_norm i j) = false.
Proof.
  apply (C6_normalized_adjacency_is_finite 5 adj_toy).
  - split; reflexivity.
  - apply check_entries_sound. vm_compute. reflexivity.
Defined.

(** C7.  For every symmetric unweighted adjacency matrix the output of the
    normalizer is symmetric. *)
Theorem C7_normalizer_preserves_symmetry (n : nat) (A : tensor) :
  square n A -> entries is_01 A -> symmetric A ->
  exists A_norm, adj_norm A = Some A_norm /\ symmetric A_norm.
Proof.
  intros Hsq HA Hsym. eexists. split; [apply (adj_norm_square n A Hsq)|].
  destruct Hsq as [Hr Hc].
  intros i j Hi Hj. cbn [nrows tab] in Hi, Hj.
  rewrite !get_tab by assumption.
  rewrite (Hsym j i) by lia.
  pose proof (degree_inv_sqrt_fin_small A i HA ltac:(lia)) as Hx.
  pose proof (degree_inv_sqrt_fin_small A j HA ltac:(lia)) as Hy.
  apply fin_small_nonneg in Hx, Hy.
  destruct (is_01_cases (get A i j) (HA i j ltac:(lia) ltac:(lia))) as [-> | ->].
  - rewrite !fmul_fin_nonneg_0, !fmul_0_fin_nonneg by assumption. reflexivity.
  - rewrite !fmul_1_r by (apply fin_nonneg_valid; assumption).
    apply fmul_comm.
Qed.

Lemma C7_witness :
  exists A_norm, adj_norm adj_toy = Some A_norm /\ symmetric A_norm.
Proof.
  apply (C7_normalizer_preserves_symmetry 5 adj_toy).
  - split; reflexivity.
  - apply check_entries_sound. vm_compute. reflexivity.
  - intros i j Hi Hj.
    apply f32_eqb_eq.
    apply (forallb_seq 5 (fun j => f32_eqb (get adj_toy i j) (get adj_toy j i)));
      [|exact Hj].
    revert i Hi.
    apply (forallb_seq 5 (fun i => forallb
             (fun j => f32_eqb (get adj_toy i j) (get adj_toy j i)) (seq 0 5))).
    vm_compute. reflexivity.
Defined.

(** C10, amended.  The masked assignment replaces infinite entries of
    [degree^(-0.5)] only.  When the entries are finite, no row sum is
    negative and no scaled entry [d_inv_sqrt[i] * A[i,j]] overflows, the
    output is free of NaN.  For the [1 x 1] adjacency [[-1.0]] the row sum
    is negative, [degree^(-0.5)] is NaN, the infinity test does not select
    it, and the returned matrix contains NaN. *)
Theorem C10_only_infinities_are_replaced :
  (forall (n : nat) (A : tensor),
     square n A -> entries is_finite A ->
     (forall i, (i < n)%nat -> nonneg (spec_d A i) = true) ->
     (forall i j, (i < n)%nat -> (j < n)%nat ->
        is_inf (fmul (get (degree_inv_sqrt A) i 0) (get A i j)) = false) ->
     exists A_norm,
       adj_norm A = Some A_norm /\
       forall i j, (i < n)%nat -> (j < n)%nat -> is_nan (get A_norm i j) = false)
  /\
  (exists A A_norm,
     square 1 A /\ nonneg (spec_d A 0) = false /\
     is_nan (pow_neg_half (spec_d A 0)) = true /\
     is_inf (pow_neg_half (spec_d A 0)) = false /\
     is_nan (get (degree_inv_sqrt A) 0 0) = true /\
     adj_norm A = Some A_norm /\ is_nan (get A_norm 0 0) = true).
Proof.
  split.
  - intros n A Hsq Hfin Hdeg Hovf.
    eexists. split; [apply (adj_norm_square n A Hsq)|].
    destruct Hsq as [Hr Hc].
    intros i j Hi Hj. rewrite get_tab by assumption.
    assert (Hx : is_finite (get (degree_inv_sqrt A) i 0) = true).
    { apply fin_nonneg_finite, degree_inv_sqrt_fin_nonneg; [lia|auto]. }
    assert (Hy : is_finite (get (degree_inv_sqrt A) j 0) = true).
    { apply fin_nonneg_finite, degree_inv_sqrt_fin_nonneg; [lia|auto]. }
    apply fmul_finite_not_nan; [|exact Hy].
    apply not_nan_not_inf_finite; [|apply Hovf; assumption].
    apply fmul_finite_not_nan; [exact Hx|]. apply Hfin; lia.
  - exists (scalar fm1), (scalar S754_nan).
    repeat split; vm_compute; reflexivity.
Qed.

Lemma C10_witness :
  exists A_norm,
    adj_norm adj_toy = Some A_norm /\
    forall i j, (i < 5)%nat -> (j < 5)%nat -> is_nan (get A_norm i j) = false.
Proof.
  apply (proj1 C10_only_infinities_are_replaced 5%nat adj_toy).
  - split; reflexivity.
  - apply check_entries_sound. vm_compute. reflexivity.
  - apply (forallb_seq 5 (fun i => nonneg (spec_d adj_toy i))).
    vm_compute. reflexivity.
  - intros i j Hi Hj.
    apply negb_true_iff.
    apply (forallb_seq 5 (fun j => negb (is_inf
             (fmul (get (degree_inv_sqrt adj_toy) i 0) (get adj_toy i j)))));
      [|exact Hj].
    revert i Hi.
    apply (forallb_seq 5 (fun i => forallb (fun j => negb (is_inf
             (fmul (get (degree_inv_sqrt adj_toy) i 0) (get adj_toy i j))))
             (seq 0 5))).
    vm_compute. reflexivity.
Defined.

(** C10 as stated fails in its first half: non-negative row sums do not
    exclude NaN.  The adjacency [[+inf]] has the row sum [+inf], its
    [degree^(-0.5)] is [0.0] and the output is [0.0 * inf].  The adjacency
    [adj_cancel] has finite entries and the row sums [2^-149, 0, 0]; the
    scaled entry [d_inv_sqrt[0] * A[0,1]] overflows to [-inf] and is
    multiplied by [d_inv_sqrt[1] = 0.0]. *)
Lemma C10_counterexample :
  (nonneg (spec_d (scalar (S754_infinity false)) 0) = true /\
   adj_norm (scalar (S754_infinity false)) = Some (scalar S754_nan))
  /\
  (check_entries is_finite adj_cancel = true /\
   forallb (fun i => nonneg (spec_d adj_cancel i)) (seq 0 3) = true /\
   exists A_norm,
     adj_norm adj_cancel = Some A_norm /\ is_nan (get A_norm 0 1) = true).
Proof.
  split; [split; vm_compute; reflexivity|].
  split; [vm_compute; reflexivity|].
  split; [vm_compute; reflexivity|].
  eexists. split; vm_compute; reflexivity.
Qed.

(** * The layer and the stack *)

(** The layer in terms of its locals. *)
Lemma layer_forward_locals (self : SimpleGCNLayer) (x adj : tensor) :
  SimpleGCNLayer_forward self x adj =
  match adj_norm adj with
  | Some an =>
      match torch_mm an x with
      | Some x1 => F_linear x1 (linear self)
      | None => None
      end
  | None => None
  end.
Proof.
  unfold SimpleGCNLayer_forward, adj_norm, degree_inv_sqrt, degree.
  cbv zeta.
  destruct (torch_mul _ adj) as [scaled|]; reflexivity.
Qed.

Lemma layer_forward_spec_layer (w x adj : tensor) :
  SimpleGCNLayer_forward (SimpleGCNLayer_init w) x adj =
  match adj_norm adj with
  | Some A_norm => spec_layer x A_norm (transpose w)
  | None => None
  end.
Proof.
  rewrite layer_forward_locals. unfold SimpleGCNLayer_init, spec_layer.
  cbn [linear].
  destruct (adj_norm adj) as [an|]; [|reflexivity].
  destruct (torch_mm an x) as [x1|]; [|reflexivity].
  apply F_linear_no_bias.
Qed.

(** C4.  With [A_norm] the normalized adjacency that the layer computes
    from [adj], a single layer returns [(A_norm . X) . W], where [W] is the
    transposed weight of the linear map: the aggregation is a matrix
    product, the projection follows, there is no bias term and no
    nonlinearity, and the result has shape [(N, d_out)]. *)
Theorem C4_layer_aggregates_then_projects
    (n d_in d_out : nat) (w x adj A_norm : tensor) :
  square n adj ->
  nrows x = n -> ncols x = d_in ->
  nrows w = d_out -> ncols w = d_in ->
  adj_norm adj = Some A_norm ->
  exists out,
    SimpleGCNLayer_forward (SimpleGCNLayer_init w) x adj = Some out /\
    spec_layer x A_norm (transpose w) = Some out /\
    nrows out = n /\ ncols out = d_out /\
    forall i j, (i < n)%nat -> (j < d_out)%nat ->
      get out i j =
      fsum d_in (fun k =>
        fmul (fsum n (fun l => fmul (get A_norm i l) (get x l k)))
             (get w j k)).
Proof.
  intros Hsq Hxr Hxc Hwr Hwc Han.
  rewrite layer_forward_spec_layer, Han.
  rewrite (adj_norm_square n adj Hsq) in Han. injection Han as <-.
  unfold spec_layer.
  rewrite torch_mm_shape by (cbn [ncols tab]; lia).
  rewrite torch_mm_shape by (cbn [ncols nrows tab transpose]; lia).
  eexists. split; [reflexivity|]. split; [reflexivity|].
  cbn [nrows ncols tab transpose]. rewrite Hxc, Hwr.
  split; [reflexivity|]. split; [reflexivity|].
  intros i j Hi Hj. rewrite get_tab by assumption.
  apply fsum_ext. intros k Hk.
  rewrite get_tab by assumption.
  rewrite get_transpose by lia. reflexivity.
Qed.

Lemma C4_witness :
  exists out,
    SimpleGCNLayer_forward (SimpleGCNLayer_init w1_toy) x_toy adj_toy = Some out /\
    spec_layer x_toy (spec_normalizer adj_toy) (transpose w1_toy) = Some out /\
    nrows out = 5%nat /\ ncols out = 8%nat /\
    forall i j, (i < 5)%nat -> (j < 8)%nat ->
      get out i j =
      fsum 4 (fun k =>
        fmul (fsum 5 (fun l => fmul (get (spec_normalizer adj_toy) i l)
                                    (get x_toy l k)))
             (get w1_toy j k)).
Proof.
  apply (C4_layer_aggregates_then_projects 5 4 8 w1_toy x_toy adj_toy
           (spec_normalizer adj_toy)).
  - split; reflexivity.
  - reflexivity.
  - reflexivity.
  - reflexivity.
  - reflexivity.
  - vm_compute. reflexivity.
Defined.

Lemma forward_recomputes_adj_norm (self : SimpleGCN) (x adj : tensor) :
  SimpleGCN_forward self x adj = forward_normalize_once self x adj.
Proof.
  unfold SimpleGCN_forward, forward_normalize_once.
  rewrite layer_forward_locals.
  destruct (adj_norm adj) as [an|] eqn:Han; [|reflexivity].
  destruct (torch_mm an x) as [x1|]; [|reflexivity].
  destruct (F_linear x1 (linear (gcn1 self))) as [h|]; [|reflexivity].
  rewrite layer_forward_locals, Han. reflexivity.
Qed.

Lemma forward_two_layers (w1 w2 x adj : tensor) :
  SimpleGCN_forward (SimpleGCN_init w1 w2) x adj =
  match adj_norm adj with
  | Some A_norm => spec_two_layers (transpose w1) (transpose w2) x A_norm
  | None => None
  end.
Proof.
  unfold SimpleGCN_forward, SimpleGCN_init. cbn [gcn1 gcn2].
  rewrite layer_forward_spec_layer.
  destruct (adj_norm adj) as [an|] eqn:Han; [|reflexivity].
  unfold spec_two_layers.
  destruct (spec_layer x an (transpose w1)) as [h|]; [|reflexivity].
  rewrite layer_forward_spec_layer, Han. reflexivity.
Qed.

(** The stack on an adjacency that is taken as given. *)
Lemma forward_spec_two_layers (n : nat) (w1 w2 x adj : tensor) :
  square n adj -> entries valid adj ->
  SimpleGCN_forward (SimpleGCN_init w1 w2) x adj =
  spec_two_layers (transpose w1) (transpose w2) x (spec_normalizer adj).
Proof.
  intros Hsq Hv. rewrite forward_two_layers.
  rewrite (adj_norm_spec_normalizer n adj Hsq Hv). reflexivity.
Qed.

(** C5.  Computing [adj_norm] once and using it in both layers gives the
    output of [SimpleGCN.forward], which computes it again in each layer,
    for every [(X, A, W1, W2)]: the adjacency is the same in both calls. *)
Theorem C5_normalize_once_equals_recompute :
  (forall (self : SimpleGCN) (x adj : tensor),
     SimpleGCN_forward self x adj = forward_normalize_once self x adj)
  /\
  (forall (w1 w2 x adj : tensor),
     SimpleGCN_forward (SimpleGCN_init w1 w2) x adj =
     match adj_norm adj with
     | Some A_norm => spec_two_layers (transpose w1) (transpose w2) x A_norm
     | None => None
     end).
Proof.
  split.
  - exact forward_recomputes_adj_norm.
  - exact forward_two_layers.
Qed.

(** C1, amended.  [SimpleGCN.forward] adds no self-loops: on every N x N
    adjacency [A] it returns the composition of the two layers applied to
    the normalized [A] as it is given.  When the caller passes
    [A_tilde = A + I], this is the stack of the specification on the raw
    [A]. *)
Theorem C1_forward_expects_self_loops
    (n : nat) (w1 w2 x A : tensor) :
  square n A -> entries valid A ->
  SimpleGCN_forward (SimpleGCN_init w1 w2) x A =
    spec_two_layers (transpose w1) (transpose w2) x (spec_normalizer A)
  /\
  exists A_tilde,
    torch_add A (torch_eye n) = Some A_tilde /\
    SimpleGCN_forward (SimpleGCN_init w1 w2) x A_tilde =
      spec_forward (transpose w1) (transpose w2) x A.
Proof.
  intros Hsq Hv. split; [apply (forward_spec_two_layers n); assumption|].
  eexists. split; [apply torch_add_eye, Hsq|].
  unfold spec_forward. destruct Hsq as [Hr Hc]. rewrite Hr.
  rewrite torch_add_eye by (split; assumption).
  apply (forward_spec_two_layers n).
  - split; reflexivity.
  - intros i j Hi Hj. cbn [nrows ncols tab] in Hi, Hj.
    rewrite get_tab by assumption. apply fadd_valid.
    + apply Hv; lia.
    + rewrite get_eye by assumption. destruct (Nat.eqb i j); reflexivity.
Qed.

Lemma C1_witness :
  SimpleGCN_forward (SimpleGCN_init w1_toy w2_toy) x_toy adj_toy =
    spec_two_layers (transpose w1_toy) (transpose w2_toy) x_toy
      (spec_normalizer adj_toy)
  /\
  exists A_tilde,
    torch_add adj_toy (torch_eye 5) = Some A_tilde /\
    SimpleGCN_forward (SimpleGCN_init w1_toy w2_toy) x_toy A_tilde =
      spec_forward (transpose w1_toy) (transpose w2_toy) x_toy adj_toy.
Proof.
  apply (C1_forward_expects_self_loops 5 w1_toy w2_toy x_toy adj_toy).
  - split; reflexivity.
  - apply check_entries_sound. vm_compute. reflexivity.
Defined.

(** C1 as stated fails: on the raw adjacency of one node without edges the
    code returns [0.0], the stack that adds the self-loop returns [1.0]. *)
Lemma C1_counterexample :
  SimpleGCN_forward (SimpleGCN_init (scalar f1) (scalar f1)) (scalar f1)
    (torch_zeros 1 1) = Some (scalar f0)
  /\
  spec_forward (transpose (scalar f1)) (transpose (scalar f1)) (scalar f1)
    (torch_zeros 1 1) = Some (scalar f1)
  /\
  SimpleGCN_forward (SimpleGCN_init (scalar f1) (scalar f1)) (scalar f1)
    (torch_zeros 1 1)
  <> spec_forward (transpose (scalar f1)) (transpose (scalar f1)) (scalar f1)
       (torch_zeros 1 1).
Proof.
  split; [vm_compute; reflexivity|].
  split; [vm_compute; reflexivity|].
  vm_compute. discriminate.
Qed.

(** * The disconnected graph *)

(** A layer on the identity adjacency is the projection alone. *)
Lemma spec_layer_eye (n : nat) (X w : tensor) :
  nrows X = n -> ncols X = ncols w ->
  entries valid X -> entries is_finite X -> entries valid w ->
  spec_layer X (torch_eye n) (transpose w) = torch_mm X (transpose w).
Proof.
  intros Hr Hc Hv Hf Hw. unfold spec_layer.
  rewrite (torch_mm_eye n X Hr Hv Hf), <- Hr.
  apply torch_mm_transpose_mod_zero_sign; assumption.
Qed.

(** On the identity adjacency the stack is the two projections with the
    rectifier in between, when features and hidden activations are
    finite. *)
Lemma forward_eye (n : nat) (w1 w2 X hid : tensor) :
  nrows X = n -> ncols X = ncols w1 -> ncols w2 = nrows w1 ->
  entries valid X -> entries is_finite X ->
  entries valid w1 -> entries valid w2 ->
  torch_mm X (transpose w1) = Some hid ->
  entries is_finite (F_relu hid) ->
  SimpleGCN_forward (SimpleGCN_init w1 w2) X (torch_eye n) =
  torch_mm (F_relu hid) (transpose w2).
Proof.
  intros Hr Hc1 Hc2 HvX HfX Hv1 Hv2 Hhid Hfin.
  rewrite forward_two_layers, adj_norm_eye. unfold spec_two_layers.
  rewrite (spec_layer_eye n X w1 Hr Hc1 HvX HfX Hv1), Hhid.
  assert (Hshape : nrows hid = n /\ ncols hid = nrows w1).
  { unfold torch_mm in Hhid.
    destruct (Nat.eqb (ncols X) (nrows (transpose w1))); [|discriminate].
    injection Hhid as <-. cbn. auto. }
  destruct Hshape as [Hhr Hhc].
  apply spec_layer_eye.
  - cbn. exact Hhr.
  - cbn. lia.
  - apply F_relu_valid. apply (torch_mm_transpose_valid X w1); assumption.
  - exact Hfin.
  - exact Hv2.
Qed.

(** On the identity adjacency the stack is [relu(X . W1) . W2] on the
    whole feature matrix, entry by entry. *)
Lemma forward_eye_entries (n d h o : nat) (w1 w2 X : tensor) :
  nrows X = n -> ncols X = d ->
  nrows w1 = h -> ncols w1 = d ->
  nrows w2 = o -> ncols w2 = h ->
  entries valid X -> entries is_finite X ->
  entries valid w1 -> entries valid w2 ->
  (forall hid, F_linear X (mkLinear w1 None) = Some hid ->
               entries is_finite (F_relu hid)) ->
  let out := tab n o (fun i j =>
    fsum h (fun k =>
      fmul (relu1 (fsum d (fun l => fmul (get X i l) (get w1 k l))))
           (get w2 j k))) in
  SimpleGCN_forward (SimpleGCN_init w1 w2) X (torch_eye n) = Some out /\
  forward_without_aggregation (SimpleGCN_init w1 w2) X = Some out.
Proof.
  intros Hxr Hxc Hw1r Hw1c Hw2r Hw2c HvX HfX Hv1 Hv2 Hhid out.
  assert (Hmm1 : torch_mm X (transpose w1) =
                 Some (tab n h (fun i k =>
                   fsum d (fun l => fmul (get X i l) (get (transpose w1) l k))))).
  { rewrite torch_mm_shape by (cbn [nrows transpose tab]; lia).
    cbn [ncols transpose tab]. rewrite Hxr, Hxc, Hw1r. reflexivity. }
  set (hid := tab n h (fun i k =>
                fsum d (fun l => fmul (get X i l) (get (transpose w1) l k)))) in *.
  assert (Hfin : entries is_finite (F_relu hid)).
  { apply Hhid. rewrite F_linear_no_bias. exact Hmm1. }
  assert (Hout : torch_mm (F_relu hid) (transpose w2) = Some out).
  { rewrite torch_mm_shape
      by (cbn [nrows ncols transpose tab F_relu tmap hid]; lia).
    cbn [nrows ncols transpose tab F_relu tmap hid]. rewrite Hw2r.
    f_equal. apply tab_ext. intros i j Hi Hj.
    apply fsum_ext. intros k Hk.
    rewrite get_F_relu by (unfold hid; cbn [nrows ncols tab]; lia).
    rewrite get_transpose by lia.
    f_equal. f_equal. unfold hid. rewrite get_tab by lia.
    apply fsum_ext. intros l Hl. rewrite get_transpose by lia. reflexivity. }
  split.
  - rewrite (forward_eye n w1 w2 X hid) by (try assumption; lia).
    exact Hout.
  - unfold forward_without_aggregation, SimpleGCN_init.
    cbn [gcn1 gcn2 linear SimpleGCNLayer_init].
    rewrite F_linear_no_bias, Hmm1, F_linear_no_bias. exact Hout.
Qed.

(** C8, amended.  For the graph without edges, adding the self-loops to
    the zero matrix gives the identity, and the normalizer returns the
    identity on it.  When the features and the hidden activations
    [relu(X . W1)] are finite, the output of the two-layer forward pass
    on this adjacency is [relu(X . W1) . W2], the two projections applied
    to the whole feature matrix without aggregation, and row [i] of it
    depends on the features of node [i] only: it is the same for a second
    feature matrix [X'] of the same shape that agrees with [X] on row
    [i].  Features and weights are binary32 data. *)
Theorem C8_disconnected_graph_is_nodewise
    (n d h o : nat) (w1 w2 X X' : tensor) (i : nat) :
  nrows X = n -> ncols X = d ->
  nrows X' = n -> ncols X' = d ->
  nrows w1 = h -> ncols w1 = d ->
  nrows w2 = o -> ncols w2 = h ->
  entries valid X -> entries is_finite X ->
  entries valid X' -> entries is_finite X' ->
  entries valid w1 -> entries valid w2 ->
  (forall hid, F_linear X (mkLinear w1 None) = Some hid ->
               entries is_finite (F_relu hid)) ->
  (forall hid, F_linear X' (mkLinear w1 None) = Some hid ->
               entries is_finite (F_relu hid)) ->
  (i < n)%nat ->
  (forall k, (k < d)%nat -> get X' i k = get X i k) ->
  torch_add (torch_zeros n n) (torch_eye n) = Some (torch_eye n) /\
  adj_norm (torch_eye n) = Some (torch_eye n) /\
  exists out out',
    SimpleGCN_forward (SimpleGCN_init w1 w2) X (torch_eye n) = Some out /\
    forward_without_aggregation (SimpleGCN_init w1 w2) X = Some out /\
    nrows out = n /\ ncols out = o /\
    SimpleGCN_forward (SimpleGCN_init w1 w2) X' (torch_eye n) = Some out' /\
    forall j, (j < o)%nat -> get out' i j = get out i j.
Proof.
  intros Hxr Hxc Hxr' Hxc' Hw1r Hw1c Hw2r Hw2c HvX HfX HvX' HfX' Hv1 Hv2
         Hhid Hhid' Hi Hrow.
  split; [apply torch_add_zeros_eye|]. split; [apply adj_norm_eye|].
  destruct (forward_eye_entries n d h o w1 w2 X Hxr Hxc Hw1r Hw1c Hw2r Hw2c
              HvX HfX Hv1 Hv2 Hhid) as [E1 E2].
  destruct (forward_eye_entries n d h o w1 w2 X' Hxr' Hxc' Hw1r Hw1c Hw2r Hw2c
              HvX' HfX' Hv1 Hv2 Hhid') as [E1' _].
  eexists. eexists.
  split; [exact E1|]. split; [exact E2|].
  split; [reflexivity|]. split; [reflexivity|].
  split; [exact E1'|].
  intros j Hj. rewrite !get_tab by assumption.
  apply fsum_ext. intros k Hk. f_equal. f_equal.
  apply fsum_ext. intros l Hl. rewrite (Hrow l Hl). reflexivity.
Qed.

Lemma C8_witness :
  torch_add (torch_zeros 5 5) (torch_eye 5) = Some (torch_eye 5) /\
  adj_norm (torch_eye 5) = Some (torch_eye 5) /\
  exists out out',
    SimpleGCN_forward (SimpleGCN_init w1_toy w2_toy) x_toy (torch_eye 5)
      = Some out /\
    forward_without_aggregation (SimpleGCN_init w1_toy w2_toy) x_toy
      = Some out /\
    nrows out = 5%nat /\ ncols out = 2%nat /\
    SimpleGCN_forward (SimpleGCN_init w1_toy w2_toy) x_toy' (torch_eye 5)
      = Some out' /\
    forall j, (j < 2)%nat -> get out' 0 j = get out 0 j.
Proof.
  apply (C8_disconnected_graph_is_nodewise 5 4 8 2 w1_toy w2_toy
           x_toy x_toy' 0);
    try reflexivity;
    try (apply check_entries_sound; vm_compute; reflexivity).
  - intros hid H. vm_compute in H. injection H as <-.
    apply check_entries_sound. vm_compute. reflexivity.
  - intros hid H. vm_compute in H. injection H as <-.
    apply check_entries_sound. vm_compute. reflexivity.
  - lia.
Defined.

(** C8 as stated fails when a value is not finite: the aggregation is a
    dense product with the identity, and [0.0 * inf] is NaN.  With the
    finite features [2^100] and [1.0] and [W1 = [[2^100]]] the hidden
    activation of node 0 overflows to [+inf], and the output of node 1 is
    NaN instead of [relu(1.0 * 2^100) * 1.0]; with the feature of node 0
    replaced by [1.0] the output of node 1 is [2^100], so that it depends
    on the features of node 0.  With the features [+inf] and [1.0] and
    [W1 = [[-1.0]]] the output of node 1 is NaN instead of [0.0]. *)
Lemma C8_counterexample :
  (check_entries is_finite x_large = true /\
   exists out ref out',
     SimpleGCN_forward model_large x_large (torch_eye 2) = Some out /\
     forward_without_aggregation model_large x_large = Some ref /\
     get out 1 0 = S754_nan /\ get ref 1 0 = f_2p100 /\
     get out 1 0 <> get ref 1 0 /\
     get x_ones 1 0 = get x_large 1 0 /\
     SimpleGCN_forward model_large x_ones (torch_eye 2) = Some out' /\
     get out' 1 0 = f_2p100 /\ get out' 1 0 <> get out 1 0)
  /\
  (exists out ref,
     SimpleGCN_forward model_neg x_inf (torch_eye 2) = Some out /\
     forward_without_aggregation model_neg x_inf = Some ref /\
     get out 1 0 = S754_nan /\ get ref 1 0 = f0 /\
     get out 1 0 <> get ref 1 0).
Proof.
  split.
  - split; [vm_compute; reflexivity|].
    eexists. eexists. eexists.
    repeat split; try (vm_compute; reflexivity); vm_compute; discriminate.
  - eexists. eexists.
    repeat split; try (vm_compute; reflexivity). vm_compute. discriminate.
Qed.

(** * The store: what a call may change *)

Lemma nth_error_old (s l : heap) (r : ref) (t : tensor) :
  nth_error s r = Some t -> nth_error (s ++ l) r = Some t.
Proof.
  intros H. rewrite nth_error_app1; [exact H|].
  apply nth_error_Some. congruence.
Qed.

Lemma nth_error_new (s l : heap) (t : tensor) :
  nth_error (s ++ t :: l) (length s) = Some t.
Proof.
  rewrite nth_error_app2 by lia. rewrite Nat.sub_diag. reflexivity.
Qed.

Create HintDb heap.
#[local] Hint Resolve nth_error_old nth_error_new : heap.

Lemma load_run (s : heap) (r : ref) (t : tensor) :
  nth_error s r = Some t -> load r s = Some (t, s).
Proof. intros H. unfold load. rewrite H. reflexivity. Qed.

(** Writing into the cell allocated last. *)
Lemma store_last (s : heap) (t t' : tensor) :
  store (length s) t' (s ++ [t]) = Some (tt, s ++ [t']).
Proof.
  unfold store. rewrite length_app. cbn [length].
  destruct (Nat.ltb_spec (length s) (length s + 1)) as [_|H]; [|lia].
  rewrite firstn_app, Nat.sub_diag, firstn_all. cbn [firstn].
  rewrite app_nil_r.
  rewrite skipn_all2 by (rewrite length_app; cbn [length]; lia).
  reflexivity.
Qed.

Lemma st_sum_run (s : heap) (a : ref) (t : tensor) :
  nth_error s a = Some t ->
  st_sum_dim1_keepdim a s = Some (length s, s ++ [torch_sum_dim1_keepdim t]).
Proof.
  intros H. unfold st_sum_dim1_keepdim, bind. rewrite (load_run s a t H).
  reflexivity.
Qed.

Lemma st_pow_run (s : heap) (a : ref) (t : tensor) :
  nth_error s a = Some t ->
  st_pow_neg_half a s = Some (length s, s ++ [torch_pow_neg_half t]).
Proof.
  intros H. unfold st_pow_neg_half, bind. rewrite (load_run s a t H).
  reflexivity.
Qed.

Lemma st_setitem_run (s : heap) (t : tensor) (v : f32) :
  st_setitem_isinf (length s) v (s ++ [t])
  = Some (tt, s ++ [setitem_isinf t v]).
Proof.
  unfold st_setitem_isinf, bind.
  rewrite (load_run (s ++ [t]) (length s) t) by auto with heap.
  apply store_last.
Qed.

Lemma st_transpose_run (s : heap) (a : ref) (t : tensor) :
  nth_error s a = Some t ->
  st_transpose a s = Some (length s, s ++ [transpose t]).
Proof.
  intros H. unfold st_transpose, bind. rewrite (load_run s a t H).
  reflexivity.
Qed.

Lemma st_relu_run (s : heap) (a : ref) (t : tensor) :
  nth_error s a = Some t ->
  st_relu a s = Some (length s, s ++ [F_relu t]).
Proof.
  intros H. unfold st_relu, bind. rewrite (load_run s a t H).
  reflexivity.
Qed.

Lemma st_mul_run (s : heap) (a b : ref) (ta tb : tensor) :
  nth_error s a = Some ta -> nth_error s b = Some tb ->
  st_mul a b s =
  match torch_mul ta tb with
  | Some t => Some (length s, s ++ [t])
  | None => None
  end.
Proof.
  intros Ha Hb. unfold st_mul, bind.
  rewrite (load_run s a ta Ha), (load_run s b tb Hb).
  destruct (torch_mul ta tb); reflexivity.
Qed.

Lemma st_mm_run (s : heap) (a b : ref) (ta tb : tensor) :
  nth_error s a = Some ta -> nth_error s b = Some tb ->
  st_mm a b s =
  match torch_mm ta tb with
  | Some t => Some (length s, s ++ [t])
  | None => None
  end.
Proof.
  intros Ha Hb. unfold st_mm, bind.
  rewrite (load_run s a ta Ha), (load_run s b tb Hb).
  destruct (torch_mm ta tb); reflexivity.
Qed.

Lemma st_linear_run (s : heap) (x : ref) (l : LinearObj) (tx w : tensor) :
  nth_error s x = Some tx -> nth_error s (weight_ref l) = Some w ->
  bias_ref l = None ->
  st_linear x l s =
  match F_linear tx (mkLinear w None) with
  | Some t => Some (length s, s ++ [t])
  | None => None
  end.
Proof.
  intros Hx Hw Hb. unfold st_linear, bind.
  rewrite (load_run s x tx Hx), (load_run s (weight_ref l) w Hw), Hb.
  destruct (F_linear tx (mkLinear w None)); reflexivity.
Qed.

(** One layer over the store, run to its end. *)
Lemma st_layer_eq (s : heap) (self : SimpleGCNLayerObj) (x adj : ref)
                  (X A W : tensor) :
  nth_error s x = Some X -> nth_error s adj = Some A ->
  nth_error s (weight_ref (linear_obj self)) = Some W ->
  bias_ref (linear_obj self) = None ->
  st_SimpleGCNLayer_forward self x adj s =
  match torch_mul (degree_inv_sqrt A) A with
  | Some scaled =>
    match torch_mul scaled (transpose (degree_inv_sqrt A)) with
    | Some an =>
      match torch_mm an X with
      | Some x1 =>
        match F_linear x1 (mkLinear W None) with
        | Some out =>
            Some (length (s ++ [degree A; degree_inv_sqrt A; scaled;
                                transpose (degree_inv_sqrt A); an; x1]),
                  s ++ [degree A; degree_inv_sqrt A; scaled;
                        transpose (degree_inv_sqrt A); an; x1; out])
        | None => None
        end
      | None => None
      end
    | None => None
    end
  | None => None
  end.
Proof.
  intros Hx HA HW Hb. unfold st_SimpleGCNLayer_forward.
  unfold bind at 1. rewrite (st_sum_run s adj A HA).
  unfold bind at 1.
  rewrite (st_pow_run _ _ (torch_sum_dim1_keepdim A)) by auto with heap.
  unfold bind at 1. rewrite st_setitem_run.
  fold (degree A). fold (degree_inv_sqrt A).
  set (s1 := s ++ [degree A]).
  unfold bind at 1.
  rewrite (st_mul_run _ _ _ (degree_inv_sqrt A) A)
    by (subst s1; auto 10 with heap).
  destruct (torch_mul (degree_inv_sqrt A) A) as [scaled|]; [|reflexivity].
  set (s2 := s1 ++ [degree_inv_sqrt A]).
  unfold bind at 1.
  rewrite (st_transpose_run _ _ (degree_inv_sqrt A))
    by (subst s2 s1; auto 10 with heap).
  set (s3 := s2 ++ [scaled]).
  unfold bind at 1.
  rewrite (st_mul_run _ _ _ scaled (transpose (degree_inv_sqrt A)))
    by (subst s3; auto 10 with heap).
  destruct (torch_mul scaled (transpose (degree_inv_sqrt A))) as [an|];
    [|reflexivity].
  set (s4 := s3 ++ [transpose (degree_inv_sqrt A)]).
  unfold bind at 1.
  rewrite (st_mm_run _ _ _ an X)
    by (subst s4 s3 s2 s1; auto 10 with heap).
  destruct (torch_mm an X) as [x1|]; [|reflexivity].
  set (s5 := s4 ++ [an]).
  rewrite (st_linear_run _ _ _ x1 W)
    by (subst s5 s4 s3 s2 s1; auto 10 with heap).
  destruct (F_linear x1 (mkLinear W None)) as [out|]; [|reflexivity].
  subst s5 s4 s3 s2 s1. rewrite <- !app_assoc. reflexivity.
Qed.

(** One layer over the store: the cells of the caller are kept, the
    locals are appended, and the result is the value of the functional
    embedding. *)
Lemma st_layer_run (s : heap) (self : SimpleGCNLayerObj) (x adj : ref)
                   (X A W : tensor) :
  nth_error s x = Some X -> nth_error s adj = Some A ->
  nth_error s (weight_ref (linear_obj self)) = Some W ->
  bias_ref (linear_obj self) = None ->
  match SimpleGCNLayer_forward (SimpleGCNLayer_init W) X A with
  | Some out =>
      exists fresh r,
        st_SimpleGCNLayer_forward self x adj s = Some (r, s ++ fresh) /\
        nth_error (s ++ fresh) r = Some out
  | None => st_SimpleGCNLayer_forward self x adj s = None
  end.
Proof.
  intros Hx HA HW Hb. rewrite (st_layer_eq s self x adj X A W Hx HA HW Hb).
  rewrite layer_forward_locals. unfold SimpleGCNLayer_init, adj_norm.
  cbn [linear].
  destruct (torch_mul (degree_inv_sqrt A) A) as [scaled|]; [|reflexivity].
  destruct (torch_mul scaled (transpose (degree_inv_sqrt A))) as [an|];
    [|reflexivity].
  destruct (torch_mm an X) as [x1|]; [|reflexivity].
  destruct (F_linear x1 (mkLinear W None)) as [out|]; [|reflexivity].
  eexists. eexists. split; [reflexivity|].
  change [degree A; degree_inv_sqrt A; scaled; transpose (degree_inv_sqrt A);
          an; x1; out]
    with ([degree A; degree_inv_sqrt A; scaled; transpose (degree_inv_sqrt A);
           an; x1] ++ [out]).
  rewrite app_assoc. apply nth_error_new.
Qed.

(** The stack over the store. *)
Lemma st_forward_run
    (s : heap) (self : SimpleGCNObj) (x adj : ref) (X A W1 W2 : tensor) :
  nth_error s x = Some X -> nth_error s adj = Some A ->
  nth_error s (weight_ref (linear_obj (gcn1_obj self))) = Some W1 ->
  bias_ref (linear_obj (gcn1_obj self)) = None ->
  nth_error s (weight_ref (linear_obj (gcn2_obj self))) = Some W2 ->
  bias_ref (linear_obj (gcn2_obj self)) = None ->
  match SimpleGCN_forward (SimpleGCN_init W1 W2) X A with
  | Some out =>
      exists fresh r,
        st_SimpleGCN_forward self x adj s = Some (r, s ++ fresh) /\
        nth_error (s ++ fresh) r = Some out
  | None => st_SimpleGCN_forward self x adj s = None
  end.
Proof.
  intros Hx HA HW1 Hb1 HW2 Hb2.
  unfold SimpleGCN_forward, SimpleGCN_init, st_SimpleGCN_forward.
  cbn [gcn1 gcn2].
  pose proof (st_layer_run s (gcn1_obj self) x adj X A W1 Hx HA HW1 Hb1) as L1.
  unfold bind.
  destruct (SimpleGCNLayer_forward (SimpleGCNLayer_init W1) X A) as [h1|];
    [|rewrite L1; reflexivity].
  destruct L1 as (fresh1 & r1 & -> & Hr1).
  rewrite (st_relu_run _ _ h1 Hr1).
  pose proof (st_layer_run ((s ++ fresh1) ++ [F_relu h1]) (gcn2_obj self)
                (length (s ++ fresh1)) adj (F_relu h1) A W2) as L2.
  destruct (SimpleGCNLayer_forward (SimpleGCNLayer_init W2) (F_relu h1) A)
    as [out|].
  - destruct L2 as (fresh2 & r2 & E2 & Hr2); auto 10 with heap.
    exists (fresh1 ++ [F_relu h1] ++ fresh2), r2.
    replace (s ++ fresh1 ++ [F_relu h1] ++ fresh2)
      with (((s ++ fresh1) ++ [F_relu h1]) ++ fresh2)
      by (rewrite <- !app_assoc; reflexivity).
    split; [exact E2|exact Hr2].
  - apply L2; auto 10 with heap.
Qed.

(** C9.  A call of [SimpleGCN.forward] on a store that holds the features,
    the adjacency and the two weights fails exactly when the functional
    embedding does.  Otherwise it returns a store that extends the given
    one: every cell that existed before the call, [X] and [A] among them,
    holds its tensor unchanged, and only fresh cells were written.  The
    result is [SimpleGCN_forward] of [(X, A, W1, W2)], whatever the store
    and the references; a second call on the store that the first one left
    returns an equal output. *)
Theorem C9_forward_is_pure
    (s : heap) (self : SimpleGCNObj) (x adj : ref) (X A W1 W2 : tensor) :
  nth_error s x = Some X -> nth_error s adj = Some A ->
  nth_error s (weight_ref (linear_obj (gcn1_obj self))) = Some W1 ->
  bias_ref (linear_obj (gcn1_obj self)) = None ->
  nth_error s (weight_ref (linear_obj (gcn2_obj self))) = Some W2 ->
  bias_ref (linear_obj (gcn2_obj self)) = None ->
  match SimpleGCN_forward (SimpleGCN_init W1 W2) X A with
  | Some out =>
      exists fresh r,
        st_SimpleGCN_forward self x adj s = Some (r, s ++ fresh) /\
        nth_error (s ++ fresh) r = Some out /\
        nth_error (s ++ fresh) x = Some X /\
        nth_error (s ++ fresh) adj = Some A /\
        (forall l t, nth_error s l = Some t ->
                     nth_error (s ++ fresh) l = Some t) /\
        exists fresh' r',
          st_SimpleGCN_forward self x adj (s ++ fresh)
            = Some (r', (s ++ fresh) ++ fresh') /\
          nth_error ((s ++ fresh) ++ fresh') r' = Some out
  | None => st_SimpleGCN_forward self x adj s = None
  end.
Proof.
  intros Hx HA HW1 Hb1 HW2 Hb2.
  pose proof (st_forward_run s self x adj X A W1 W2 Hx HA HW1 Hb1 HW2 Hb2) as R1.
  destruct (SimpleGCN_forward (SimpleGCN_init W1 W2) X A) as [out|] eqn:E;
    [|exact R1].
  destruct R1 as (fresh & r & Hrun & Hr).
  exists fresh, r. repeat split; auto with heap.
  pose proof (st_forward_run (s ++ fresh) self x adj X A W1 W2) as R2.
  rewrite E in R2. apply R2; auto with heap.
Qed.

Lemma C9_witness :
  match SimpleGCN_forward (SimpleGCN_init w1_toy w2_toy) x_toy adj_toy with
  | Some out =>
      exists fresh r,
        st_SimpleGCN_forward model_toy 0%nat 1%nat store_toy
          = Some (r, store_toy ++ fresh) /\
        nth_error (store_toy ++ fresh) r = Some out /\
        nth_error (store_toy ++ fresh) 0 = Some x_toy /\
        nth_error (store_toy ++ fresh) 1 = Some adj_toy /\
        (forall l t, nth_error store_toy l = Some t ->
                     nth_error (store_toy ++ fresh) l = Some t) /\
        exists fresh' r',
          st_SimpleGCN_forward model_toy 0%nat 1%nat (store_toy ++ fresh)
            = Some (r', (store_toy ++ fresh) ++ fresh') /\
          nth_error ((store_toy ++ fresh) ++ fresh') r' = Some out
  | None => st_SimpleGCN_forward model_toy 0%nat 1%nat store_toy = None
  end.
Proof.
  apply (C9_forward_is_pure store_toy model_toy 0%nat 1%nat
           x_toy adj_toy w1_toy w2_toy); reflexivity.
Defined.

(** * Shapes: when [forward] raises *)

(** The shape of the normalized adjacency, for an adjacency of any shape:
    the second product broadcasts an [(r, c)] tensor against a [(1, r)]
    one. *)
Lemma adj_norm_shape (adj : tensor) :
  adj_norm adj =
  match bdim (ncols adj) (nrows adj) with
  | Some c' =>
      Some (tab (nrows adj) c' (fun i j =>
        fmul (fmul (get (degree_inv_sqrt adj) i 0)
                   (get adj i (bidx (ncols adj) j)))
             (get (degree_inv_sqrt adj) (bidx (nrows adj) j) 0)))
  | None => None
  end.
Proof.
  unfold adj_norm, torch_mul, broadcast2.
  rewrite nrows_degree_inv_sqrt, ncols_degree_inv_sqrt.
  rewrite bdim_same, bdim_1_l.
  cbn [nrows ncols tab].
  rewrite nrows_transpose, ncols_transpose.
  rewrite nrows_degree_inv_sqrt, ncols_degree_inv_sqrt.
  rewrite bdim_1_r.
  destruct (bdim (ncols adj) (nrows adj)) as [c'|] eqn:Hb; [|reflexivity].
  f_equal. apply tab_ext. intros i j Hi Hj.
  rewrite bidx_1.
  assert (Hj' : (bidx (ncols adj) j < ncols adj)%nat).
  { unfold bdim in Hb. unfold bidx.
    destruct (Nat.eqb (ncols adj) (nrows adj)) eqn:E1.
    - injection Hb as <-. destruct (Nat.eqb (ncols adj) 1); lia.
    - destruct (Nat.eqb (ncols adj) 1) eqn:E2.
      + apply Nat.eqb_eq in E2. lia.
      + destruct (Nat.eqb (nrows adj) 1); [|discriminate].
        injection Hb as <-. exact Hj. }
  assert (Hi' : (bidx (nrows adj) i < nrows adj)%nat).
  { unfold bidx. destruct (Nat.eqb (nrows adj) 1) eqn:E; [|exact Hi].
    apply Nat.eqb_eq in E. lia. }
  assert (Hj'' : (bidx (nrows adj) j < nrows adj)%nat).
  { unfold bdim in Hb. unfold bidx.
    destruct (Nat.eqb (nrows adj) 1) eqn:E; [apply Nat.eqb_eq in E; lia|].
    destruct (Nat.eqb (ncols adj) (nrows adj)) eqn:E1.
    - apply Nat.eqb_eq in E1. injection Hb as <-. lia.
    - destruct (Nat.eqb (ncols adj) 1); [|discriminate].
      injection Hb as <-. exact Hj. }
  rewrite get_tab by assumption.
  rewrite bidx_1.
  rewrite get_transpose
    by (rewrite ?nrows_degree_inv_sqrt, ?ncols_degree_inv_sqrt; lia || assumption).
  rewrite !(bidx_lt (nrows adj) i Hi).
  rewrite ?(bidx_lt (ncols adj) (bidx (ncols adj) j) Hj').
  reflexivity.
Qed.

(** X1.  [SimpleGCNLayer.forward] raises a shape error exactly when the
    adjacency is neither square nor a single row nor a single column, or
    the features do not have one row per column of the normalized
    adjacency, or their width is not [in_features]. Otherwise the output
    has one row per row of the adjacency and [out_features] columns. *)
Theorem layer_forward_shape_error (w x adj : tensor) :
  let r := nrows adj in
  let c := ncols adj in
  let c' := if Nat.eqb c 1 then r else c in
  let accepted :=
    (c = r \/ c = 1%nat \/ r = 1%nat) /\ nrows x = c' /\ ncols x = ncols w in
  match SimpleGCNLayer_forward (SimpleGCNLayer_init w) x adj with
  | Some out => accepted /\ nrows out = r /\ ncols out = nrows w
  | None => ~ accepted
  end.
Proof.
  intros r c c' accepted. subst accepted c' r c.
  rewrite layer_forward_locals, adj_norm_shape.
  unfold SimpleGCNLayer_init. cbn [linear].
  destruct (bdim (ncols adj) (nrows adj)) as [c'|] eqn:Hb.
  - assert (Hc' : (ncols adj = nrows adj \/ ncols adj = 1%nat \/ nrows adj = 1%nat)
                  /\ c' = if Nat.eqb (ncols adj) 1 then nrows adj else ncols adj).
    { unfold bdim in Hb.
      destruct (Nat.eqb (ncols adj) (nrows adj)) eqn:E1;
        [apply Nat.eqb_eq in E1|].
      - injection Hb as <-. split; [auto|].
        destruct (Nat.eqb (ncols adj) 1); lia.
      - destruct (Nat.eqb (ncols adj) 1) eqn:E2.
        + apply Nat.eqb_eq in E2. injection Hb as <-. auto.
        + destruct (Nat.eqb (nrows adj) 1) eqn:E3; [|discriminate].
          apply Nat.eqb_eq in E3. injection Hb as <-. auto. }
    destruct Hc' as [Hok Hc']. rewrite <- Hc'. clear Hc' Hb.
    unfold torch_mm at 1. cbn [nrows ncols tab].
    destruct (Nat.eqb c' (nrows x)) eqn:E2;
      [apply Nat.eqb_eq in E2|apply Nat.eqb_neq in E2].
    + rewrite F_linear_no_bias.
      unfold torch_mm. cbn [nrows ncols tab transpose].
      destruct (Nat.eqb (ncols x) (ncols w)) eqn:E3;
        [apply Nat.eqb_eq in E3|apply Nat.eqb_neq in E3].
      * cbn [nrows ncols tab]. repeat split; auto.
      * intros (_ & _ & H). lia.
    + intros (_ & H & _). lia.
  - unfold bdim in Hb.
    destruct (Nat.eqb (ncols adj) (nrows adj)) eqn:E1; [discriminate|].
    destruct (Nat.eqb (ncols adj) 1) eqn:E2; [discriminate|].
    destruct (Nat.eqb (nrows adj) 1) eqn:E3; [discriminate|].
    apply Nat.eqb_neq in E1, E2, E3.
    intros (H & _). lia.
Qed.

(** The layer on a square adjacency: defined exactly when the features
    have one row per node and the width of the weight. *)
Lemma layer_forward_square (n : nat) (w x adj : tensor) :
  square n adj ->
  SimpleGCNLayer_forward (SimpleGCNLayer_init w) x adj =
  if Nat.eqb n (nrows x) && Nat.eqb (ncols x) (ncols w) then
    Some (tab n (nrows w) (fun i j =>
      fsum (ncols x) (fun k =>
        fmul (fsum n (fun l =>
                fmul (fmul (fmul (get (degree_inv_sqrt adj) i 0) (get adj i l))
                           (get (degree_inv_sqrt adj) l 0))
                     (get x l k)))
             (get w j k))))
  else None.
Proof.
  intros Hsq. rewrite layer_forward_spec_layer, (adj_norm_square n adj Hsq).
  unfold spec_layer, torch_mm at 1. cbn [nrows ncols tab].
  destruct (Nat.eqb n (nrows x)) eqn:E1; [|reflexivity].
  unfold torch_mm. cbn [nrows ncols tab transpose andb].
  destruct (Nat.eqb (ncols x) (ncols w)) eqn:E2; [|reflexivity].
  f_equal. apply tab_ext. intros i j Hi Hj.
  apply fsum_ext. intros k Hk.
  rewrite get_tab by assumption.
  rewrite get_transpose by (apply Nat.eqb_eq in E2; lia).
  f_equal. apply fsum_ext. intros l Hl.
  rewrite get_tab by assumption. reflexivity.
Qed.

Lemma layer_forward_dims (n : nat) (w x adj out : tensor) :
  square n adj ->
  SimpleGCNLayer_forward (SimpleGCNLayer_init w) x adj = Some out ->
  nrows x = n /\ ncols x = ncols w /\ nrows out = n /\ ncols out = nrows w.
Proof.
  intros Hsq H. rewrite (layer_forward_square n w x adj Hsq) in H.
  destruct (Nat.eqb n (nrows x)) eqn:E1; [|discriminate].
  destruct (Nat.eqb (ncols x) (ncols w)) eqn:E2; [|discriminate].
  apply Nat.eqb_eq in E1, E2. cbn [andb] in H. injection H as <-.
  cbn [nrows ncols tab]. auto.
Qed.

Lemma layer_forward_defined (n : nat) (w x adj : tensor) :
  square n adj -> nrows x = n -> ncols x = ncols w ->
  exists out, SimpleGCNLayer_forward (SimpleGCNLayer_init w) x adj = Some out.
Proof.
  intros Hsq Hr Hc. rewrite (layer_forward_square n w x adj Hsq).
  rewrite Hr, Hc, !Nat.eqb_refl. cbn [andb]. eexists. reflexivity.
Qed.

(** X2.  [SimpleGCN.forward] on a graph of [n] nodes, for a model built as
    [SimpleGCN(d, h, o)]: the call raises a shape error exactly when the
    features are not of shape [(n, d)], and the output has shape [(n, o)].
    The graph may be empty. *)
Theorem forward_shape_error (n d h o : nat) (w1 w2 x adj : tensor) :
  square n adj ->
  nrows w1 = h -> ncols w1 = d -> nrows w2 = o -> ncols w2 = h ->
  match SimpleGCN_forward (SimpleGCN_init w1 w2) x adj with
  | Some out => nrows x = n /\ ncols x = d /\ nrows out = n /\ ncols out = o
  | None => nrows x <> n \/ ncols x <> d
  end.
Proof.
  intros Hsq H1r H1c H2r H2c.
  unfold SimpleGCN_forward, SimpleGCN_init. cbn [gcn1 gcn2].
  rewrite (layer_forward_square n w1 x adj Hsq).
  destruct (Nat.eqb n (nrows x)) eqn:E1;
    [apply Nat.eqb_eq in E1|apply Nat.eqb_neq in E1; left; cbn; lia].
  destruct (Nat.eqb (ncols x) (ncols w1)) eqn:E2;
    [apply Nat.eqb_eq in E2|apply Nat.eqb_neq in E2; right; cbn; lia].
  cbn [andb].
  rewrite (layer_forward_square n w2 _ adj Hsq).
  cbn [nrows ncols tab F_relu tmap].
  rewrite Nat.eqb_refl.
  replace (Nat.eqb (nrows w1) (ncols w2)) with true
    by (symmetry; apply Nat.eqb_eq; lia).
  cbn [andb nrows ncols tab]. repeat split; lia.
Qed.

Lemma forward_shape_error_witness :
  match SimpleGCN_forward (SimpleGCN_init w1_toy w2_toy) x_toy adj_toy with
  | Some out =>
      nrows x_toy = 5%nat /\ ncols x_toy = 4%nat /\
      nrows out = 5%nat /\ ncols out = 2%nat
  | None => nrows x_toy <> 5%nat \/ ncols x_toy <> 4%nat
  end.
Proof.
  apply (forward_shape_error 5 4 8 2 w1_toy w2_toy x_toy adj_toy).
  - split; reflexivity.
  - reflexivity.
  - reflexivity.
  - reflexivity.
  - reflexivity.
Defined.

(** X3.  An adjacency with a single column is not rejected: the second
    product broadcasts it to an [N x N] matrix, the degree of node [i] is
    the entry [adj[i, 0]] itself, and the output has one row per node. *)
Theorem column_adjacency_is_broadcast (n : nat) (w x adj : tensor) :
  nrows adj = n -> ncols adj = 1%nat ->
  nrows x = n -> ncols x = ncols w ->
  exists A_norm out,
    adj_norm adj = Some A_norm /\
    nrows A_norm = n /\ ncols A_norm = n /\
    (forall i, (i < n)%nat ->
       get (degree adj) i 0 = fadd f0 (get adj i 0)) /\
    (forall i j, (i < n)%nat -> (j < n)%nat ->
       get A_norm i j =
       fmul (fmul (get (degree_inv_sqrt adj) i 0) (get adj i 0))
            (get (degree_inv_sqrt adj) j 0)) /\
    SimpleGCNLayer_forward (SimpleGCNLayer_init w) x adj = Some out /\
    nrows out = n /\ ncols out = nrows w.
Proof.
  intros Hr Hc Hxr Hxc.
  rewrite layer_forward_spec_layer, adj_norm_shape.
  rewrite Hc, Hr. rewrite bdim_1_l.
  eexists. eexists. split; [reflexivity|].
  cbn [nrows ncols tab]. split; [reflexivity|]. split; [reflexivity|].
  split.
  { intros i Hi. rewrite get_degree by lia. unfold spec_d. rewrite Hc.
    reflexivity. }
  split.
  { intros i j Hi Hj. rewrite get_tab by assumption.
    rewrite bidx_1. unfold bidx.
    destruct (Nat.eqb n 1) eqn:E; [|reflexivity].
    apply Nat.eqb_eq in E. replace j with 0%nat by lia. reflexivity. }
  unfold spec_layer.
  rewrite torch_mm_shape by (cbn [nrows ncols tab]; lia).
  rewrite torch_mm_shape by (cbn [nrows ncols tab transpose]; lia).
  split; [reflexivity|]. cbn [nrows ncols tab transpose]. auto.
Qed.

Lemma column_adjacency_is_broadcast_witness :
  exists A_norm out,
    adj_norm (tab 5 1 (fun _ _ => f1)) = Some A_norm /\
    nrows A_norm = 5%nat /\ ncols A_norm = 5%nat /\
    (forall i, (i < 5)%nat ->
       get (degree (tab 5 1 (fun _ _ => f1))) i 0
       = fadd f0 (get (tab 5 1 (fun _ _ => f1)) i 0)) /\
    (forall i j, (i < 5)%nat -> (j < 5)%nat ->
       get A_norm i j =
       fmul (fmul (get (degree_inv_sqrt (tab 5 1 (fun _ _ => f1))) i 0)
                  (get (tab 5 1 (fun _ _ => f1)) i 0))
            (get (degree_inv_sqrt (tab 5 1 (fun _ _ => f1))) j 0)) /\
    SimpleGCNLayer_forward (SimpleGCNLayer_init w1_toy) x_toy
      (tab 5 1 (fun _ _ => f1)) = Some out /\
    nrows out = 5%nat /\ ncols out = nrows w1_toy.
Proof.
  apply (column_adjacency_is_broadcast 5 w1_toy x_toy (tab 5 1 (fun _ _ => f1)));
    reflexivity.
Defined.

(** * The toy graph of the example cell *)

Lemma for_range_S (n : nat) (body : nat -> tensor -> option tensor)
    (t : tensor) :
  for_range (S n) body t =
  match for_range n body t with
  | Some t' => body n t'
  | None => None
  end.
Proof.
  unfold for_range. rewrite seq_S, fold_left_app. reflexivity.
Qed.

Lemma setitem_tab (r c : nat) (f : nat -> nat -> f32) (i j : nat) (v : f32) :
  (i < r)%nat -> (j < c)%nat ->
  setitem (tab r c f) i j v =
  Some (tab r c (fun a b => if Nat.eqb a i && Nat.eqb b j then v else f a b)).
Proof.
  intros Hi Hj. unfold setitem. cbn [nrows ncols tab].
  replace (Nat.ltb i r) with true by (symmetry; apply Nat.ltb_lt; exact Hi).
  replace (Nat.ltb j c) with true by (symmetry; apply Nat.ltb_lt; exact Hj).
  cbn [andb]. f_equal. apply tab_ext. intros a b Ha Hb.
  rewrite get_tab by assumption. reflexivity.
Qed.

(** The first loop after [k] iterations: the edges [(i, i+1)] and
    [(i+1, i)] for [i < k]. *)
Lemma chain_loop (N k : nat) :
  (k <= N - 1)%nat ->
  for_range k
    (fun i adj_toy =>
       match setitem adj_toy i (i + 1) f1 with
       | Some adj_toy => setitem adj_toy (i + 1) i f1
       | None => None
       end) (torch_zeros N N)
  = Some (tab N N (fun a b =>
      if (Nat.eqb (S a) b && Nat.ltb a k) || (Nat.eqb a (S b) && Nat.ltb b k)
      then f1 else f0)).
Proof.
  induction k as [|k IH]; intros Hk.
  - unfold for_range, torch_zeros. cbn [seq fold_left]. f_equal.
    apply tab_ext. intros a b _ _.
    replace (Nat.ltb a 0) with false by (symmetry; apply Nat.ltb_ge; lia).
    replace (Nat.ltb b 0) with false by (symmetry; apply Nat.ltb_ge; lia).
    rewrite !andb_false_r. reflexivity.
  - rewrite for_range_S, IH by lia.
    rewrite setitem_tab by lia. rewrite setitem_tab by lia.
    f_equal. apply tab_ext. intros a b Ha Hb.
    destruct (Nat.eqb a (k + 1)) eqn:E1; destruct (Nat.eqb b k) eqn:E2;
      destruct (Nat.eqb a k) eqn:E3; destruct (Nat.eqb b (k + 1)) eqn:E4;
      destruct (Nat.eqb (S a) b) eqn:E5; destruct (Nat.eqb a (S b)) eqn:E6;
      destruct (Nat.ltb a k) eqn:E7; destruct (Nat.ltb b k) eqn:E8;
      destruct (Nat.ltb a (S k)) eqn:E9; destruct (Nat.ltb b (S k)) eqn:E10;
      cbn [andb orb]; try reflexivity; exfalso;
      repeat match goal with
      | H : Nat.eqb _ _ = true |- _ => apply Nat.eqb_eq in H
      | H : Nat.eqb _ _ = false |- _ => apply Nat.eqb_neq in H
      | H : Nat.ltb _ _ = true |- _ => apply Nat.ltb_lt in H
      | H : Nat.ltb _ _ = false |- _ => apply Nat.ltb_ge in H
      end; lia.
Qed.

(** The second loop after [k] iterations, started on a tensor [t]: the
    diagonal entries below [k] are ones. *)
Lemma self_loop_loop (N k : nat) (f : nat -> nat -> f32) :
  (k <= N)%nat ->
  for_range k (fun i adj_toy => setitem adj_toy i i f1) (tab N N f)
  = Some (tab N N (fun a b =>
      if Nat.eqb a b && Nat.ltb a k then f1 else f a b)).
Proof.
  induction k as [|k IH]; intros Hk.
  - unfold for_range. cbn [seq fold_left]. f_equal.
    apply tab_ext. intros a b _ _.
    replace (Nat.ltb a 0) with false by (symmetry; apply Nat.ltb_ge; lia).
    rewrite andb_false_r. reflexivity.
  - rewrite for_range_S, IH by lia.
    rewrite setitem_tab by lia.
    f_equal. apply tab_ext. intros a b Ha Hb.
    destruct (Nat.eqb a k) eqn:E1; destruct (Nat.eqb b k) eqn:E2;
      destruct (Nat.eqb a b) eqn:E3;
      destruct (Nat.ltb a k) eqn:E4; destruct (Nat.ltb a (S k)) eqn:E5;
      cbn [andb orb]; try reflexivity; exfalso;
      repeat match goal with
      | H : Nat.eqb _ _ = true |- _ => apply Nat.eqb_eq in H
      | H : Nat.eqb _ _ = false |- _ => apply Nat.eqb_neq in H
      | H : Nat.ltb _ _ = true |- _ => apply Nat.ltb_lt in H
      | H : Nat.ltb _ _ = false |- _ => apply Nat.ltb_ge in H
      end; lia.
Qed.

Lemma build_adj_toy_chain (N : nat) : build_adj_toy N = Some (chain_adj N).
Proof.
  unfold build_adj_toy, toy_edges. cbv zeta.
  rewrite (chain_loop N (N - 1)) by lia.
  rewrite (self_loop_loop N N) by lia.
  f_equal. unfold chain_adj. apply tab_ext. intros a b Ha Hb.
  destruct (Nat.eqb a b) eqn:E1; destruct (Nat.eqb (S a) b) eqn:E2;
    destruct (Nat.eqb a (S b)) eqn:E3;
    destruct (Nat.ltb a N) eqn:E4; destruct (Nat.ltb a (N - 1)) eqn:E5;
    destruct (Nat.ltb b (N - 1)) eqn:E6;
    cbn [andb orb]; try reflexivity; exfalso;
    repeat match goal with
    | H : Nat.eqb _ _ = true |- _ => apply Nat.eqb_eq in H
    | H : Nat.eqb _ _ = false |- _ => apply Nat.eqb_neq in H
    | H : Nat.ltb _ _ = true |- _ => apply Nat.ltb_lt in H
    | H : Nat.ltb _ _ = false |- _ => apply Nat.ltb_ge in H
    end; lia.
Qed.

Lemma toy_edges_closed (N : nat) :
  toy_edges N =
  Some (tab N N (fun a b =>
    if Nat.eqb (S a) b || Nat.eqb a (S b) then f1 else f0)).
Proof.
  unfold toy_edges. cbv zeta. rewrite (chain_loop N (N - 1)) by lia.
  f_equal. apply tab_ext. intros a b Ha Hb.
  destruct (Nat.eqb (S a) b) eqn:E2; destruct (Nat.eqb a (S b)) eqn:E3;
    destruct (Nat.ltb a (N - 1)) eqn:E5; destruct (Nat.ltb b (N - 1)) eqn:E6;
    cbn [andb orb]; try reflexivity; exfalso;
    repeat match goal with
    | H : Nat.eqb _ _ = true |- _ => apply Nat.eqb_eq in H
    | H : Nat.eqb _ _ = false |- _ => apply Nat.eqb_neq in H
    | H : Nat.ltb _ _ = true |- _ => apply Nat.ltb_lt in H
    | H : Nat.ltb _ _ = false |- _ => apply Nat.ltb_ge in H
    end; lia.
Qed.

Lemma get_chain_adj (N i j : nat) :
  (i < N)%nat -> (j < N)%nat ->
  get (chain_adj N) i j =
  if Nat.leb (i - 1) j && Nat.ltb j (i + 2) then f1 else f0.
Proof.
  intros Hi Hj. unfold chain_adj. rewrite get_tab by assumption.
  destruct (Nat.eqb i j) eqn:E1; destruct (Nat.eqb (S i) j) eqn:E2;
    destruct (Nat.eqb i (S j)) eqn:E3;
    destruct (Nat.leb (i - 1) j) eqn:E4; destruct (Nat.ltb j (i + 2)) eqn:E5;
    cbn [andb orb]; try reflexivity; exfalso;
    repeat match goal with
    | H : Nat.eqb _ _ = true |- _ => apply Nat.eqb_eq in H
    | H : Nat.eqb _ _ = false |- _ => apply Nat.eqb_neq in H
    | H : Nat.leb _ _ = true |- _ => apply Nat.leb_le in H
    | H : Nat.leb _ _ = false |- _ => apply Nat.leb_gt in H
    | H : Nat.ltb _ _ = true |- _ => apply Nat.ltb_lt in H
    | H : Nat.ltb _ _ = false |- _ => apply Nat.ltb_ge in H
    end; lia.
Qed.

Lemma chain_adj_01 (N : nat) : entries is_01 (chain_adj N).
Proof.
  intros i j Hi Hj. cbn [nrows ncols chain_adj tab] in Hi, Hj.
  unfold chain_adj. rewrite get_tab by assumption.
  destruct (_ || _); reflexivity.
Qed.

Lemma chain_adj_symmetric (N : nat) : symmetric (chain_adj N).
Proof.
  intros i j Hi Hj. cbn [nrows chain_adj tab] in Hi, Hj.
  unfold chain_adj. rewrite !get_tab by assumption.
  rewrite (Nat.eqb_sym j i), (Nat.eqb_sym (S j) i), (Nat.eqb_sym j (S i)).
  destruct (Nat.eqb i j), (Nat.eqb (S i) j), (Nat.eqb i (S j)); reflexivity.
Qed.

Lemma count_ones_chain (N i : nat) :
  (i < N)%nat ->
  count_ones N (get (chain_adj N) i) =
  if Nat.eqb N 1 then 1%nat
  else if Nat.eqb i 0 || Nat.eqb (S i) N then 2%nat else 3%nat.
Proof.
  intros Hi.
  rewrite (count_ones_ext N _
             (fun k => if Nat.leb (i - 1) k && Nat.ltb k (i + 2) then f1 else f0))
    by (intros k Hk; apply get_chain_adj; assumption).
  rewrite count_ones_window by lia.
  destruct (Nat.eqb N 1) eqn:E1; destruct (Nat.eqb i 0) eqn:E2;
    destruct (Nat.eqb (S i) N) eqn:E3; cbn [orb];
    repeat match goal with
    | H : Nat.eqb _ _ = true |- _ => apply Nat.eqb_eq in H
    | H : Nat.eqb _ _ = false |- _ => apply Nat.eqb_neq in H
    end; lia.
Qed.

(** X4.  The two loops of the example cell, for any number [N] of nodes:
    no index is out of range, and the tensor they build has a one at
    [(i, j)] exactly when [i] and [j] are equal or consecutive.  It is
    symmetric, unweighted, and has a self-loop on every node, as the
    docstring of [forward] asks; for [N = 5] it is the adjacency of the
    example. *)
Theorem toy_adjacency_is_the_chain (N : nat) :
  exists A,
    build_adj_toy N = Some A /\ square N A /\
    (forall i j, (i < N)%nat -> (j < N)%nat ->
       get A i j = if Nat.eqb i j || Nat.eqb (S i) j || Nat.eqb i (S j)
                   then f1 else f0) /\
    symmetric A /\ entries is_01 A /\
    (forall i, (i < N)%nat -> get A i i = f1) /\
    (N = 5%nat -> A = adj_toy).
Proof.
  exists (chain_adj N).
  split; [apply build_adj_toy_chain|].
  split; [split; reflexivity|].
  split. { intros i j Hi Hj. unfold chain_adj. apply get_tab; assumption. }
  split; [apply chain_adj_symmetric|].
  split; [apply chain_adj_01|].
  split.
  - intros i Hi. unfold chain_adj. rewrite get_tab by assumption.
    rewrite Nat.eqb_refl. reflexivity.
  - intros ->. reflexivity.
Qed.

(** X5.  The example cell hands [forward] the adjacency [A + I]: writing
    the diagonal in the second loop is the addition of the identity to the
    edges of the first loop, whose diagonal is zero. The call
    [model(x_toy, adj_toy)] therefore computes the two layers on the
    normalized [A + I], with [A] the chain without self-loops. *)
Theorem toy_call_adds_self_loops (N : nat) (w1 w2 x : tensor) :
  exists E A,
    toy_edges N = Some E /\ build_adj_toy N = Some A /\
    (forall i, (i < N)%nat -> get E i i = f0) /\
    torch_add E (torch_eye N) = Some A /\
    SimpleGCN_forward (SimpleGCN_init w1 w2) x A =
      spec_forward (transpose w1) (transpose w2) x E.
Proof.
  eexists. exists (chain_adj N).
  split; [apply toy_edges_closed|].
  split; [apply build_adj_toy_chain|].
  split.
  { intros i Hi. rewrite get_tab by assumption.
    replace (Nat.eqb (S i) i) with false by (symmetry; apply Nat.eqb_neq; lia).
    replace (Nat.eqb i (S i)) with false by (symmetry; apply Nat.eqb_neq; lia).
    reflexivity. }
  assert (Hadd : torch_add (tab N N (fun a b =>
                    if Nat.eqb (S a) b || Nat.eqb a (S b) then f1 else f0))
                   (torch_eye N) = Some (chain_adj N)).
  { rewrite (torch_add_eye N) by (split; reflexivity).
    f_equal. unfold chain_adj. apply tab_ext. intros a b Ha Hb.
    rewrite get_tab, get_eye by assumption.
    destruct (Nat.eqb a b) eqn:E1; destruct (Nat.eqb (S a) b) eqn:E2;
      destruct (Nat.eqb a (S b)) eqn:E3; cbn [orb]; try reflexivity; exfalso;
      repeat match goal with
      | H : Nat.eqb _ _ = true |- _ => apply Nat.eqb_eq in H
      | H : Nat.eqb _ _ = false |- _ => apply Nat.eqb_neq in H
      end; lia. }
  split; [exact Hadd|].
  unfold spec_forward. cbn [nrows tab]. rewrite Hadd.
  apply (forward_spec_two_layers N).
  - split; reflexivity.
  - intros i j Hi Hj. apply is_01_valid, chain_adj_01; assumption.
Qed.

(** * Degrees and weights of an unweighted graph *)

(** X6.  The degree that the layer computes for a node of an unweighted
    graph is the number of ones in its row, exactly, when there are at
    most [2^24] of them: every partial sum is then an integer that
    binary32 holds exactly. *)
Theorem degree_counts_ones (A : tensor) (i : nat) :
  entries is_01 A -> (i < nrows A)%nat ->
  Z.of_nat (count_ones (ncols A) (get A i)) <= 2 ^ 24 ->
  let c := Z.of_nat (count_ones (ncols A) (get A i)) in
  get (degree A) i 0 = f32_of_count c /\
  Z_of_f32 (get (degree A) i 0) = Some c.
Proof.
  intros H01 Hi Hc c.
  assert (E : get (degree A) i 0 = f32_of_count c).
  { rewrite get_degree by exact Hi. unfold spec_d.
    rewrite (fsum_count (ncols A) (get A i))
      by (intros k Hk; apply H01; assumption).
    subst c. rewrite Z.min_l by exact Hc. reflexivity. }
  split; [exact E|].
  rewrite E. apply Z_of_f32_of_count. subst c. lia.
Qed.

Lemma degree_counts_ones_witness :
  get (degree adj_toy) 1 0 = f32_of_count 3 /\
  Z_of_f32 (get (degree adj_toy) 1 0) = Some 3.
Proof.
  apply (degree_counts_ones adj_toy 1).
  - apply check_entries_sound. vm_compute. reflexivity.
  - cbn. lia.
  - vm_compute. discriminate.
Defined.

(** X7.  On the toy graph the degrees are [2.0] at the two ends of the
    chain and [3.0] inside ([1.0] for a single node). No degree is zero:
    the masked assignment of the layer changes nothing. *)
Theorem toy_degrees (N i : nat) (A : tensor) :
  build_adj_toy N = Some A -> (i < N)%nat ->
  get (degree A) i 0 =
    (if Nat.eqb N 1 then f1
     else if Nat.eqb i 0 || Nat.eqb (S i) N then f2 else f3) /\
  get (degree_inv_sqrt A) i 0 = pow_neg_half (get (degree A) i 0) /\
  is_finite (get (degree_inv_sqrt A) i 0) = true.
Proof.
  intros HA Hi. rewrite build_adj_toy_chain in HA. injection HA as <-.
  assert (E : get (degree (chain_adj N)) i 0 =
              if Nat.eqb N 1 then f1
              else if Nat.eqb i 0 || Nat.eqb (S i) N then f2 else f3).
  { rewrite get_degree by exact Hi. unfold spec_d.
    rewrite fsum_count
      by (intros k Hk; apply chain_adj_01; [exact Hi|exact Hk]).
    cbn [ncols chain_adj tab]. rewrite count_ones_chain by exact Hi.
    destruct (Nat.eqb N 1); [reflexivity|].
    destruct (_ || _); reflexivity. }
  split; [exact E|].
  rewrite get_degree_inv_sqrt by exact Hi.
  rewrite <- get_degree by exact Hi. rewrite E.
  destruct (Nat.eqb N 1); [split; reflexivity|].
  destruct (_ || _); split; reflexivity.
Qed.

Lemma toy_degrees_witness :
  get (degree adj_toy) 1 0 =
    (if Nat.eqb 5 1 then f1
     else if Nat.eqb 1 0 || Nat.eqb 2 5 then f2 else f3) /\
  get (degree_inv_sqrt adj_toy) 1 0 = pow_neg_half (get (degree adj_toy) 1 0) /\
  is_finite (get (degree_inv_sqrt adj_toy) 1 0) = true.
Proof.
  apply (toy_degrees 5 1 adj_toy).
  - vm_compute. reflexivity.
  - lia.
Defined.

Lemma degree_inv_sqrt_valid (adj : tensor) (i : nat) :
  (i < nrows adj)%nat -> valid (get (degree_inv_sqrt adj) i 0) = true.
Proof.
  intros Hi. rewrite get_degree_inv_sqrt by exact Hi.
  apply pow_neg_half_masked_valid.
Qed.

Lemma degree_inv_sqrt_not_inf (adj : tensor) (i : nat) :
  (i < nrows adj)%nat -> is_inf (get (degree_inv_sqrt adj) i 0) = false.
Proof.
  intros Hi. rewrite get_degree_inv_sqrt by exact Hi.
  destruct (is_inf (pow_neg_half (spec_d adj i))) eqn:E; [reflexivity|exact E].
Qed.

(** The factor [degree_inv_sqrt[i]] of a node with at least one outgoing
    edge or a self-loop, in an unweighted graph. *)
Lemma degree_inv_sqrt_positive (A : tensor) (i l : nat) :
  entries is_01 A -> (i < nrows A)%nat -> (l < ncols A)%nat ->
  get A i l = f1 ->
  exists m e,
    get (degree_inv_sqrt A) i 0 = S754_finite false m e /\
    bounded prec emax m e = true /\
    -13 <= Zpos (digits2_pos m) + e.
Proof.
  intros H01 Hi Hl Hone.
  rewrite get_degree_inv_sqrt by exact Hi. unfold spec_d.
  rewrite fsum_count by (intros k Hk; apply H01; assumption).
  pose proof (count_ones_pos (ncols A) l (get A i) Hl Hone) as Hc.
  assert (Hp : 0 < 2 ^ 24) by reflexivity.
  destruct (pow_neg_half_count
              (Z.min (Z.of_nat (count_ones (ncols A) (get A i))) (2 ^ 24)))
    as (m & e & E & Hb & Hm); [lia|].
  rewrite E. cbn [is_inf]. exists m, e. auto.
Qed.

(** X8.  The normalizer keeps the edges of an unweighted graph in which
    every node has an outgoing edge or a self-loop: an entry of the
    normalized adjacency is zero exactly where the adjacency is zero. No
    weight underflows, whatever the degrees are. *)
Theorem normalization_keeps_edges (n : nat) (A : tensor) :
  square n A -> entries is_01 A ->
  (forall i, (i < n)%nat -> exists l, (l < n)%nat /\ get A i l = f1) ->
  exists A_norm,
    adj_norm A = Some A_norm /\
    forall i j, (i < n)%nat -> (j < n)%nat ->
      is_zero (get A_norm i j) = is_zero (get A i j).
Proof.
  intros Hsq H01 Hdeg. eexists. split; [apply (adj_norm_square n A Hsq)|].
  destruct Hsq as [Hr Hc].
  intros i j Hi Hj. rewrite get_tab by assumption.
  destruct (Hdeg i Hi) as (li & Hli & Ei).
  destruct (Hdeg j Hj) as (lj & Hlj & Ej).
  destruct (degree_inv_sqrt_positive A i li H01) as (mi & ei & Di & Bi & Mi);
    [lia|lia|exact Ei|].
  destruct (degree_inv_sqrt_positive A j lj H01) as (mj & ej & Dj & Bj & Mj);
    [lia|lia|exact Ej|].
  rewrite Di, Dj.
  destruct (is_01_cases (get A i j) (H01 i j ltac:(lia) ltac:(lia))) as [-> | ->].
  - reflexivity.
  - rewrite fmul_1_r by exact Bi. cbn [is_zero f1].
    destruct (is_zero (fmul (S754_finite false mi ei) (S754_finite false mj ej)))
      eqn:Ez; [|reflexivity].
    pose proof (fmul_zero_inv false mi ei false mj ej Bi Bj Ez). lia.
Qed.

Lemma normalization_keeps_edges_witness :
  exists A_norm,
    adj_norm adj_toy = Some A_norm /\
    forall i j, (i < 5)%nat -> (j < 5)%nat ->
      is_zero (get A_norm i j) = is_zero (get adj_toy i j).
Proof.
  apply (normalization_keeps_edges 5 adj_toy).
  - split; reflexivity.
  - apply check_entries_sound. vm_compute. reflexivity.
  - intros i Hi. exists i. split; [exact Hi|].
    destruct i as [|[|[|[|[|i]]]]]; try lia; reflexivity.
Defined.

(** The factor [degree_inv_sqrt[i]] of an unweighted graph is in the unit
    interval. *)
Lemma degree_inv_sqrt_in_unit (A : tensor) (i : nat) :
  entries is_01 A -> (i < nrows A)%nat ->
  in_unit (get (degree_inv_sqrt A) i 0) = true.
Proof.
  intros H01 Hi.
  rewrite get_degree_inv_sqrt by exact Hi. unfold spec_d.
  rewrite fsum_count by (intros k Hk; apply H01; assumption).
  set (c := Z.min (Z.of_nat (count_ones (ncols A) (get A i))) (2 ^ 24)).
  assert (Hp : 0 < 2 ^ 24) by reflexivity.
  destruct (Z.eq_dec c 0) as [->|Hne]; [reflexivity|].
  destruct (f32_of_count_ge_one c) as (m & e & -> & Hb & Hge); [subst c; lia|].
  unfold pow_neg_half.
  destruct (fsqrt_ge_one m e Hb Hge) as (ms & es & -> & Hbs & Hgs).
  destruct (fdiv_1_in_unit ms es Hbs Hgs) as [Hu _].
  rewrite (in_unit_not_inf _ Hu). exact Hu.
Qed.

(** X17.  The weights of the normalized adjacency of an unweighted graph
    lie between [0.0] and [1.0]: rounding in the square root, the
    reciprocal and the two products never exceeds [1.0]. *)
Theorem normalized_weights_in_unit_interval (n : nat) (A : tensor) :
  square n A -> entries is_01 A ->
  exists A_norm,
    adj_norm A = Some A_norm /\
    forall i j, (i < n)%nat -> (j < n)%nat ->
      in_unit (get A_norm i j) = true.
Proof.
  intros Hsq H01. eexists. split; [apply (adj_norm_square n A Hsq)|].
  destruct Hsq as [Hr Hc].
  intros i j Hi Hj. rewrite get_tab by assumption.
  assert (Vi : valid (get (degree_inv_sqrt A) i 0) = true)
    by (apply degree_inv_sqrt_valid; lia).
  assert (Vj : valid (get (degree_inv_sqrt A) j 0) = true)
    by (apply degree_inv_sqrt_valid; lia).
  assert (Va : valid (get A i j) = true) by (apply is_01_valid, H01; lia).
  apply fmul_in_unit; try assumption.
  - apply fmul_valid; assumption.
  - apply fmul_in_unit; try assumption.
    + apply degree_inv_sqrt_in_unit; [exact H01|lia].
    + apply is_01_in_unit, H01; lia.
  - apply degree_inv_sqrt_in_unit; [exact H01|lia].
Qed.

Lemma normalized_weights_in_unit_interval_witness :
  exists A_norm,
    adj_norm adj_toy = Some A_norm /\
    forall i j, (i < 5)%nat -> (j < 5)%nat ->
      in_unit (get A_norm i j) = true.
Proof.
  apply (normalized_weights_in_unit_interval 5 adj_toy).
  - split; reflexivity.
  - apply check_entries_sound. vm_compute. reflexivity.
Defined.

(** * What the output at a node depends on *)

(** The output of the layer on a square adjacency holds binary32 data. *)
Lemma layer_forward_valid (n : nat) (w x adj out : tensor) :
  square n adj -> entries valid adj -> entries valid x -> entries valid w ->
  SimpleGCNLayer_forward (SimpleGCNLayer_init w) x adj = Some out ->
  entries valid out.
Proof.
  intros Hsq Ha Hx Hw H. rewrite (layer_forward_square n w x adj Hsq) in H.
  destruct (Nat.eqb n (nrows x)) eqn:E1; [|discriminate].
  destruct (Nat.eqb (ncols x) (ncols w)) eqn:E2; [|discriminate].
  apply Nat.eqb_eq in E1, E2. cbn [andb] in H. injection H as <-.
  destruct Hsq as [Hr Hc].
  intros i j Hi Hj. cbn [nrows ncols tab] in Hi, Hj.
  rewrite get_tab by assumption.
  apply fsum_valid. intros k Hk. apply fmul_valid; [|apply Hw; lia].
  apply fsum_valid. intros l Hl. apply fmul_valid; [|apply Hx; lia].
  apply fmul_valid; [apply fmul_valid|].
  - apply degree_inv_sqrt_valid. lia.
  - apply Ha; lia.
  - apply degree_inv_sqrt_valid. lia.
Qed.

(** Row [i] of the layer's output is the same for two feature matrices
    that agree on the rows of the neighbours of [i]. *)
Lemma layer_row_local (n : nat) (w x x' adj out out' : tensor) (i : nat) :
  square n adj -> entries valid adj ->
  entries valid x -> entries is_finite x ->
  entries valid x' -> entries is_finite x' ->
  (i < n)%nat ->
  (forall l, (l < n)%nat -> is_zero (get adj i l) = false ->
     forall k, (k < ncols w)%nat -> get x l k = get x' l k) ->
  SimpleGCNLayer_forward (SimpleGCNLayer_init w) x adj = Some out ->
  SimpleGCNLayer_forward (SimpleGCNLayer_init w) x' adj = Some out' ->
  forall j, (j < nrows w)%nat -> get out i j = get out' i j.
Proof.
  intros Hsq Ha Hx Hfx Hx' Hfx' Hi Hagree H H' j Hj.
  rewrite (layer_forward_square n w x adj Hsq) in H.
  rewrite (layer_forward_square n w x' adj Hsq) in H'.
  destruct (Nat.eqb n (nrows x)) eqn:E1; [|discriminate].
  destruct (Nat.eqb (ncols x) (ncols w)) eqn:E2; [|discriminate].
  destruct (Nat.eqb n (nrows x')) eqn:E1'; [|discriminate].
  destruct (Nat.eqb (ncols x') (ncols w)) eqn:E2'; [|discriminate].
  apply Nat.eqb_eq in E1, E2, E1', E2'. cbn [andb] in H, H'.
  injection H as <-. injection H' as <-.
  destruct Hsq as [Hr Hc].
  rewrite !get_tab by assumption. rewrite E2, E2'.
  apply fsum_ext. intros k Hk. f_equal.
  apply fsum_mod_zero_sign.
  - intros l Hl. apply fmul_valid; [|apply Hx; lia].
    apply fmul_valid; [apply fmul_valid|].
    + apply degree_inv_sqrt_valid; lia.
    + apply Ha; lia.
    + apply degree_inv_sqrt_valid; lia.
  - intros l Hl. apply fmul_valid; [|apply Hx'; lia].
    apply fmul_valid; [apply fmul_valid|].
    + apply degree_inv_sqrt_valid; lia.
    + apply Ha; lia.
    + apply degree_inv_sqrt_valid; lia.
  - intros l Hl.
    destruct (is_zero (get adj i l)) eqn:Hz.
    + apply aggregation_term_local.
      * apply adj_norm_entry_zero; [| |exact Hz];
          apply degree_inv_sqrt_not_inf; lia.
      * apply Hfx; lia.
      * apply Hfx'; lia.
    + left. rewrite (Hagree l Hl Hz k Hk). reflexivity.
Qed.

(** X9.  Message passing is local: with finite features, the output of
    [SimpleGCNLayer.forward] at node [i] depends only on the features of
    the nodes [l] with [adj[i, l]] different from zero. *)
Theorem layer_output_is_local (n : nat) (w x x' adj : tensor) (i : nat) :
  square n adj -> entries valid adj ->
  nrows x = n -> ncols x = ncols w -> nrows x' = n -> ncols x' = ncols w ->
  entries valid x -> entries is_finite x ->
  entries valid x' -> entries is_finite x' ->
  (i < n)%nat ->
  (forall l, (l < n)%nat -> is_zero (get adj i l) = false ->
     forall k, (k < ncols w)%nat -> get x l k = get x' l k) ->
  exists out out',
    SimpleGCNLayer_forward (SimpleGCNLayer_init w) x adj = Some out /\
    SimpleGCNLayer_forward (SimpleGCNLayer_init w) x' adj = Some out' /\
    forall j, (j < nrows w)%nat -> get out i j = get out' i j.
Proof.
  intros Hsq Ha Hxr Hxc Hxr' Hxc' Hx Hfx Hx' Hfx' Hi Hagree.
  destruct (SimpleGCNLayer_forward (SimpleGCNLayer_init w) x adj) as [out|] eqn:E.
  2:{ rewrite (layer_forward_square n w x adj Hsq) in E.
      rewrite Hxr, Hxc, !Nat.eqb_refl in E. discriminate. }
  destruct (SimpleGCNLayer_forward (SimpleGCNLayer_init w) x' adj) as [out'|] eqn:E'.
  2:{ rewrite (layer_forward_square n w x' adj Hsq) in E'.
      rewrite Hxr', Hxc', !Nat.eqb_refl in E'. discriminate. }
  exists out, out'. split; [reflexivity|]. split; [reflexivity|].
  apply (layer_row_local n w x x' adj out out' i); assumption.
Qed.

Lemma layer_output_is_local_witness :
  exists out out',
    SimpleGCNLayer_forward (SimpleGCNLayer_init w1_toy) x_toy adj_toy = Some out /\
    SimpleGCNLayer_forward (SimpleGCNLayer_init w1_toy) x_toy' adj_toy = Some out' /\
    forall j, (j < nrows w1_toy)%nat -> get out 0 j = get out' 0 j.
Proof.
  apply (layer_output_is_local 5 w1_toy x_toy x_toy' adj_toy 0);
    try reflexivity;
    try (apply check_entries_sound; vm_compute; reflexivity).
  - split; reflexivity.
  - lia.
  - intros l Hl Hz k Hk.
    destruct l as [|[|[|[|[|l]]]]]; try lia;
      try (vm_compute in Hz; discriminate Hz);
      destruct k as [|[|[|[|k]]]]; try (cbn in Hk; lia); reflexivity.
Defined.

(** X10.  The receptive field of the two-layer model is the two-hop
    neighbourhood: with finite features and finite hidden activations, the
    output of [SimpleGCN.forward] at node [i] depends only on the features
    of the neighbours of the neighbours of [i]. *)
Theorem forward_receptive_field (n : nat) (w1 w2 x x' adj : tensor) (i : nat) :
  square n adj -> entries valid adj ->
  nrows x = n -> ncols x = ncols w1 -> nrows x' = n -> ncols x' = ncols w1 ->
  ncols w2 = nrows w1 ->
  entries valid x -> entries is_finite x ->
  entries valid x' -> entries is_finite x' ->
  entries valid w1 ->
  (forall h, SimpleGCNLayer_forward (SimpleGCNLayer_init w1) x adj = Some h ->
             entries is_finite (F_relu h)) ->
  (forall h, SimpleGCNLayer_forward (SimpleGCNLayer_init w1) x' adj = Some h ->
             entries is_finite (F_relu h)) ->
  (i < n)%nat ->
  (forall l m, (l < n)%nat -> (m < n)%nat ->
     is_zero (get adj i l) = false -> is_zero (get adj l m) = false ->
     forall k, (k < ncols w1)%nat -> get x m k = get x' m k) ->
  exists out out',
    SimpleGCN_forward (SimpleGCN_init w1 w2) x adj = Some out /\
    SimpleGCN_forward (SimpleGCN_init w1 w2) x' adj = Some out' /\
    forall j, (j < nrows w2)%nat -> get out i j = get out' i j.
Proof.
  intros Hsq Ha Hxr Hxc Hxr' Hxc' Hw Hx Hfx Hx' Hfx' Hw1 Hh Hh' Hi Hagree.
  unfold SimpleGCN_forward, SimpleGCN_init. cbn [gcn1 gcn2].
  destruct (layer_forward_defined n w1 x adj Hsq Hxr Hxc) as [h E].
  destruct (layer_forward_defined n w1 x' adj Hsq Hxr' Hxc') as [h' E'].
  rewrite E, E'.
  destruct (layer_forward_dims n w1 x adj h Hsq E) as (_ & _ & Hhr & Hhc).
  destruct (layer_forward_dims n w1 x' adj h' Hsq E') as (_ & _ & Hhr' & Hhc').
  destruct (layer_forward_defined n w2 (F_relu h) adj Hsq) as [out E2];
    [cbn; exact Hhr|cbn; lia|].
  destruct (layer_forward_defined n w2 (F_relu h') adj Hsq) as [out' E2'];
    [cbn; exact Hhr'|cbn; lia|].
  exists out, out'. split; [exact E2|]. split; [exact E2'|].
  apply (layer_row_local n w2 (F_relu h) (F_relu h') adj out out' i);
    try assumption.
  - apply F_relu_valid. apply (layer_forward_valid n w1 x adj h); assumption.
  - apply Hh, E.
  - apply F_relu_valid. apply (layer_forward_valid n w1 x' adj h'); assumption.
  - apply Hh', E'.
  - intros l Hl Hz k Hk.
    rewrite !get_F_relu by lia. f_equal.
    apply (layer_row_local n w1 x x' adj h h' l); try assumption; [|lia].
    intros m Hm Hzm k' Hk'. apply (Hagree l m); assumption.
Qed.

Lemma forward_receptive_field_witness :
  exists out out',
    SimpleGCN_forward (SimpleGCN_init w1_toy w2_toy) x_toy adj_toy = Some out /\
    SimpleGCN_forward (SimpleGCN_init w1_toy w2_toy) x_toy' adj_toy = Some out' /\
    forall j, (j < nrows w2_toy)%nat -> get out 0 j = get out' 0 j.
Proof.
  apply (forward_receptive_field 5 w1_toy w2_toy x_toy x_toy' adj_toy 0);
    try reflexivity;
    try (apply check_entries_sound; vm_compute; reflexivity).
  - split; reflexivity.
  - intros h H. vm_compute in H. injection H as <-.
    apply check_entries_sound. vm_compute. reflexivity.
  - intros h H. vm_compute in H. injection H as <-.
    apply check_entries_sound. vm_compute. reflexivity.
  - lia.
  - intros l m Hl Hm Hz Hz' k Hk.
    destruct l as [|[|[|[|[|l]]]]]; try lia;
      try (vm_compute in Hz; discriminate Hz);
      destruct m as [|[|[|[|[|m]]]]]; try lia;
      try (vm_compute in Hz'; discriminate Hz');
      destruct k as [|[|[|[|k]]]]; try (cbn in Hk; lia); reflexivity.
Defined.

(** A row of the layer's output whose aggregation terms are all zeros is
    a row of [0.0], for finite weights. *)
Lemma layer_row_zero (n : nat) (w x adj out : tensor) (i : nat) :
  square n adj -> entries is_finite w -> (i < n)%nat ->
  (forall l k, (l < n)%nat -> (k < ncols w)%nat ->
     is_zero (fmul (fmul (fmul (get (degree_inv_sqrt adj) i 0) (get adj i l))
                         (get (degree_inv_sqrt adj) l 0))
                   (get x l k)) = true) ->
  SimpleGCNLayer_forward (SimpleGCNLayer_init w) x adj = Some out ->
  forall j, (j < nrows w)%nat -> get out i j = f0.
Proof.
  intros Hsq Hw Hi Hz H j Hj.
  rewrite (layer_forward_square n w x adj Hsq) in H.
  destruct (Nat.eqb n (nrows x)) eqn:E1; [|discriminate].
  destruct (Nat.eqb (ncols x) (ncols w)) eqn:E2; [|discriminate].
  apply Nat.eqb_eq in E1, E2. cbn [andb] in H. injection H as <-.
  rewrite get_tab by assumption.
  apply fsum_zeros. intros k Hk.
  rewrite fsum_zeros by (intros l Hl; apply Hz; lia).
  apply fmul_zero_l, Hw; lia.
Qed.

(** X11.  A node without edges and without a self-loop gets the output
    [0.0] from the two-layer model, whatever its features are, when
    features, weights and hidden activations are finite. *)
Theorem isolated_node_gets_zero (n : nat) (w1 w2 x adj : tensor) (i : nat) :
  square n adj -> entries is_01 adj ->
  nrows x = n -> ncols x = ncols w1 -> ncols w2 = nrows w1 ->
  entries is_finite x -> entries is_finite w1 -> entries is_finite w2 ->
  (forall h, SimpleGCNLayer_forward (SimpleGCNLayer_init w1) x adj = Some h ->
             entries is_finite (F_relu h)) ->
  (i < n)%nat -> (forall l, (l < n)%nat -> get adj i l = f0) ->
  exists out,
    SimpleGCN_forward (SimpleGCN_init w1 w2) x adj = Some out /\
    forall j, (j < nrows w2)%nat -> get out i j = f0.
Proof.
  intros Hsq H01 Hxr Hxc Hw Hfx Hf1 Hf2 Hh Hi Hiso.
  unfold SimpleGCN_forward, SimpleGCN_init. cbn [gcn1 gcn2].
  destruct (layer_forward_defined n w1 x adj Hsq Hxr Hxc) as [h E].
  rewrite E.
  destruct (layer_forward_dims n w1 x adj h Hsq E) as (_ & _ & Hhr & Hhc).
  destruct (layer_forward_defined n w2 (F_relu h) adj Hsq) as [out E2];
    [cbn; exact Hhr|cbn; lia|].
  exists out. split; [exact E2|].
  apply (layer_row_zero n w2 (F_relu h) adj out i); try assumption.
  intros l k Hl Hk. rewrite (Hiso l Hl).
  destruct Hsq as [Hr Hc].
  rewrite fmul_fin_nonneg_0
    by (apply fin_small_nonneg, degree_inv_sqrt_fin_small; [exact H01|lia]).
  rewrite fmul_0_fin_nonneg
    by (apply fin_small_nonneg, degree_inv_sqrt_fin_small; [exact H01|lia]).
  apply fmul_zero_l. apply (Hh h E); cbn; lia.
Qed.

Lemma isolated_node_gets_zero_witness :
  exists out,
    SimpleGCN_forward (SimpleGCN_init w1_toy w2_toy) x_two adj_isolated = Some out /\
    forall j, (j < nrows w2_toy)%nat -> get out 0 j = f0.
Proof.
  apply (isolated_node_gets_zero 2 w1_toy w2_toy x_two adj_isolated 0);
    try reflexivity;
    try (apply check_entries_sound; vm_compute; reflexivity).
  - split; reflexivity.
  - intros h H. vm_compute in H. injection H as <-.
    apply check_entries_sound. vm_compute. reflexivity.
  - lia.
  - intros l Hl. destruct l as [|[|l]]; [reflexivity|reflexivity|lia].
Defined.

Lemma get_zeros (n m i j : nat) :
  (i < n)%nat -> (j < m)%nat -> get (torch_zeros n m) i j = f0.
Proof. intros Hi Hj. unfold torch_zeros. apply get_tab; assumption. Qed.

Lemma layer_forward_zeros (n : nat) (w adj : tensor) :
  square n adj -> entries is_01 adj -> entries is_finite w ->
  SimpleGCNLayer_forward (SimpleGCNLayer_init w) (torch_zeros n (ncols w)) adj
  = Some (torch_zeros n (nrows w)).
Proof.
  intros Hsq H01 Hw. rewrite (layer_forward_square n w _ adj Hsq).
  cbn [nrows ncols torch_zeros tab]. rewrite !Nat.eqb_refl. cbn [andb].
  f_equal. apply tab_ext. intros i j Hi Hj.
  destruct Hsq as [Hr Hc].
  apply fsum_zeros. intros k Hk.
  rewrite fsum_zeros; [apply fmul_zero_l, Hw; lia|].
  intros l Hl. rewrite get_zeros by assumption.
  rewrite fmul_fin_nonneg_0; [reflexivity|].
  apply adj_norm_entry_01.
  - apply degree_inv_sqrt_fin_small; [exact H01|lia].
  - apply degree_inv_sqrt_fin_small; [exact H01|lia].
  - apply H01; lia.
Qed.

Lemma F_relu_zeros (n m : nat) : F_relu (torch_zeros n m) = torch_zeros n m.
Proof.
  unfold F_relu, tmap, torch_zeros. cbn [nrows ncols tab].
  apply tab_ext. intros i j Hi Hj. rewrite get_tab by assumption. reflexivity.
Qed.

(** X12.  The layers have no bias: on an unweighted graph and with finite
    weights, features that are all [0.0] give an output that is all [0.0]. *)
Theorem zero_features_give_zero_output (n : nat) (w1 w2 adj : tensor) :
  square n adj -> entries is_01 adj -> ncols w2 = nrows w1 ->
  entries is_finite w1 -> entries is_finite w2 ->
  SimpleGCN_forward (SimpleGCN_init w1 w2) (torch_zeros n (ncols w1)) adj
  = Some (torch_zeros n (nrows w2)).
Proof.
  intros Hsq H01 Hw Hf1 Hf2.
  unfold SimpleGCN_forward, SimpleGCN_init. cbn [gcn1 gcn2].
  rewrite (layer_forward_zeros n w1 adj Hsq H01 Hf1).
  rewrite F_relu_zeros, <- Hw.
  apply layer_forward_zeros; assumption.
Qed.

Lemma zero_features_give_zero_output_witness :
  SimpleGCN_forward (SimpleGCN_init w1_toy w2_toy)
    (torch_zeros 5 (ncols w1_toy)) adj_toy
  = Some (torch_zeros 5 (nrows w2_toy)).
Proof.
  apply (zero_features_give_zero_output 5 w1_toy w2_toy adj_toy);
    try reflexivity;
    try (apply check_entries_sound; vm_compute; reflexivity).
  split; reflexivity.
Defined.

(** The layer spreads a NaN: the aggregation is a dense product, so a NaN
    in column [k] of the features reaches column [k] of every aggregated
    row, and from there every entry of the output. *)
Lemma layer_forward_nan (n : nat) (w x adj out : tensor) (l k : nat) :
  square n adj -> (l < n)%nat -> (k < ncols w)%nat ->
  get x l k = S754_nan ->
  SimpleGCNLayer_forward (SimpleGCNLayer_init w) x adj = Some out ->
  forall i j, (i < n)%nat -> (j < nrows w)%nat -> get out i j = S754_nan.
Proof.
  intros Hsq Hl Hk Hnan H i j Hi Hj.
  rewrite (layer_forward_square n w x adj Hsq) in H.
  destruct (Nat.eqb n (nrows x)) eqn:E1; [|discriminate].
  destruct (Nat.eqb (ncols x) (ncols w)) eqn:E2; [|discriminate].
  apply Nat.eqb_eq in E1, E2. cbn [andb] in H. injection H as <-.
  rewrite get_tab by assumption.
  apply (fsum_nan _ k); [lia|].
  rewrite (fsum_nan n l); [reflexivity|exact Hl|].
  rewrite Hnan. apply fmul_nan_r.
Qed.

(** X13.  One NaN among the features makes every entry of the output of
    [SimpleGCN.forward] NaN, for the nodes that are not connected to the
    node that holds it as well. The hidden width is at least one. *)
Theorem nan_feature_reaches_every_output
    (n d h o : nat) (w1 w2 x adj : tensor) (l k : nat) :
  square n adj ->
  nrows x = n -> ncols x = d ->
  nrows w1 = h -> ncols w1 = d -> nrows w2 = o -> ncols w2 = h ->
  (0 < h)%nat -> (l < n)%nat -> (k < d)%nat ->
  get x l k = S754_nan ->
  exists out,
    SimpleGCN_forward (SimpleGCN_init w1 w2) x adj = Some out /\
    forall i j, (i < n)%nat -> (j < o)%nat -> get out i j = S754_nan.
Proof.
  intros Hsq Hxr Hxc H1r H1c H2r H2c Hh Hl Hk Hnan.
  unfold SimpleGCN_forward, SimpleGCN_init. cbn [gcn1 gcn2].
  destruct (layer_forward_defined n w1 x adj Hsq Hxr) as [hid E]; [lia|].
  rewrite E.
  destruct (layer_forward_dims n w1 x adj hid Hsq E) as (_ & _ & Hhr & Hhc).
  destruct (layer_forward_defined n w2 (F_relu hid) adj Hsq) as [out E2];
    [cbn; exact Hhr|cbn; lia|].
  exists out. split; [exact E2|].
  intros i j Hi Hj.
  apply (layer_forward_nan n w2 (F_relu hid) adj out l 0); try assumption; try lia.
  rewrite get_F_relu by lia.
  rewrite (layer_forward_nan n w1 x adj hid l k Hsq Hl ltac:(lia) Hnan E l 0)
    by lia.
  reflexivity.
Qed.

Lemma nan_feature_reaches_every_output_witness :
  exists out,
    SimpleGCN_forward (SimpleGCN_init w1_toy w2_toy) x_nan (torch_eye 5) = Some out /\
    forall i j, (i < 5)%nat -> (j < 2)%nat -> get out i j = S754_nan.
Proof.
  apply (nan_feature_reaches_every_output 5 4 8 2 w1_toy w2_toy x_nan
           (torch_eye 5) 4 0);
    try reflexivity; try lia.
  split; reflexivity.
Defined.

(** Two nodes with the same row of the adjacency have the same row of the
    layer's output. *)
Lemma layer_twin_rows (n : nat) (w x adj out : tensor) (i i' : nat) :
  square n adj -> (i < n)%nat -> (i' < n)%nat ->
  (forall l, (l < n)%nat -> get adj i l = get adj i' l) ->
  SimpleGCNLayer_forward (SimpleGCNLayer_init w) x adj = Some out ->
  forall j, (j < nrows w)%nat -> get out i j = get out i' j.
Proof.
  intros Hsq Hi Hi' Hrow H j Hj.
  rewrite (layer_forward_square n w x adj Hsq) in H.
  destruct (Nat.eqb n (nrows x)) eqn:E1; [|discriminate].
  destruct (Nat.eqb (ncols x) (ncols w)) eqn:E2; [|discriminate].
  cbn [andb] in H. injection H as <-.
  destruct Hsq as [Hr Hc].
  assert (Hd : get (degree_inv_sqrt adj) i 0 = get (degree_inv_sqrt adj) i' 0).
  { rewrite !get_degree_inv_sqrt by lia. unfold spec_d.
    rewrite (fsum_ext (ncols adj) (get adj i) (get adj i'))
      by (intros l Hl; apply Hrow; lia).
    reflexivity. }
  rewrite !get_tab by assumption.
  apply fsum_ext. intros k Hk. f_equal.
  apply fsum_ext. intros l Hl.
  rewrite Hd, (Hrow l Hl). reflexivity.
Qed.

(** X15.  Nodes that have the same neighbours cannot be told apart: when
    rows [i] and [i'] of the adjacency are equal, rows [i] and [i'] of
    the output of [SimpleGCN.forward] are equal, whatever the features of
    the two nodes are. *)
Theorem twin_nodes_get_equal_outputs
    (n d h o : nat) (w1 w2 x adj : tensor) (i i' : nat) :
  square n adj ->
  nrows x = n -> ncols x = d ->
  nrows w1 = h -> ncols w1 = d -> nrows w2 = o -> ncols w2 = h ->
  (i < n)%nat -> (i' < n)%nat ->
  (forall l, (l < n)%nat -> get adj i l = get adj i' l) ->
  exists out,
    SimpleGCN_forward (SimpleGCN_init w1 w2) x adj = Some out /\
    forall j, (j < o)%nat -> get out i j = get out i' j.
Proof.
  intros Hsq Hxr Hxc H1r H1c H2r H2c Hi Hi' Hrow.
  unfold SimpleGCN_forward, SimpleGCN_init. cbn [gcn1 gcn2].
  destruct (layer_forward_defined n w1 x adj Hsq Hxr) as [hid E]; [lia|].
  rewrite E.
  destruct (layer_forward_dims n w1 x adj hid Hsq E) as (_ & _ & Hhr & Hhc).
  destruct (layer_forward_defined n w2 (F_relu hid) adj Hsq) as [out E2];
    [cbn; exact Hhr|cbn; lia|].
  exists out. split; [exact E2|].
  intros j Hj.
  apply (layer_twin_rows n w2 (F_relu hid) adj out i i'); try assumption. lia.
Qed.

Lemma twin_nodes_get_equal_outputs_witness :
  exists out,
    SimpleGCN_forward (SimpleGCN_init w1_toy w2_toy) x_two
      (tab 2 2 (fun _ _ => f1)) = Some out /\
    forall j, (j < 2)%nat -> get out 0 j = get out 1 j.
Proof.
  apply (twin_nodes_get_equal_outputs 2 4 8 2 w1_toy w2_toy x_two
           (tab 2 2 (fun _ _ => f1)) 0 1);
    try reflexivity; try lia.
  split; reflexivity.
Defined.

(** The layer at a node whose only edge is its self-loop, in an unweighted
    graph: the projection of the node's own features. *)
Lemma layer_row_self_loop_only (n : nat) (w x adj out : tensor) (i : nat) :
  square n adj -> entries is_01 adj ->
  entries valid x -> entries is_finite x -> entries valid w ->
  (i < n)%nat ->
  (forall l, (l < n)%nat -> get adj i l = if Nat.eqb l i then f1 else f0) ->
  SimpleGCNLayer_forward (SimpleGCNLayer_init w) x adj = Some out ->
  forall j, (j < nrows w)%nat ->
    get out i j = fsum (ncols w) (fun k => fmul (get x i k) (get w j k)).
Proof.
  intros Hsq H01 Vx Fx Vw Hi Hrow H j Hj.
  rewrite (layer_forward_square n w x adj Hsq) in H.
  destruct (Nat.eqb n (nrows x)) eqn:E1; [|discriminate].
  destruct (Nat.eqb (ncols x) (ncols w)) eqn:E2; [|discriminate].
  apply Nat.eqb_eq in E1, E2. cbn [andb] in H. injection H as <-.
  destruct Hsq as [Hr Hc].
  assert (Hd : get (degree_inv_sqrt adj) i 0 = f1).
  { rewrite get_degree_inv_sqrt by lia. unfold spec_d.
    rewrite (fsum_single (ncols adj) i).
    - rewrite Hrow, Nat.eqb_refl by exact Hi. reflexivity.
    - lia.
    - intros k Hk Hne. rewrite Hrow by lia.
      destruct (Nat.eqb_spec k i); [congruence|reflexivity]. }
  rewrite get_tab by assumption. rewrite E2.
  apply fsum_mod_zero_sign.
  - intros k Hk. apply fmul_valid; [|apply Vw; lia].
    apply fsum_valid. intros l Hl. apply fmul_valid; [|apply Vx; lia].
    apply fin_nonneg_valid, adj_norm_entry_01.
    + apply degree_inv_sqrt_fin_small; [exact H01|lia].
    + apply degree_inv_sqrt_fin_small; [exact H01|lia].
    + apply H01; lia.
  - intros k Hk. apply fmul_valid; [apply Vx|apply Vw]; lia.
  - intros k Hk.
    rewrite (fsum_single n i).
    + rewrite Hd, Hrow, Nat.eqb_refl by exact Hi.
      change (fmul (fmul f1 f1) f1) with f1.
      rewrite fmul_1_l by (apply Vx; lia).
      apply fmul_mod_zero_sign.
    + exact Hi.
    + intros l Hl Hne. rewrite Hd, Hrow by exact Hl.
      destruct (Nat.eqb_spec l i); [congruence|].
      change (fmul f1 f0) with f0.
      rewrite fmul_0_fin_nonneg
        by (apply fin_small_nonneg, degree_inv_sqrt_fin_small; [exact H01|lia]).
      apply fmul_zero_l, Fx; lia.
Qed.

(** X16.  In any unweighted graph, a node whose only edge is its self-loop
    is not affected by the aggregation: with finite features and finite
    hidden activations, its row of the output of [SimpleGCN.forward] is
    its row of [relu(X . W1) . W2], the two projections applied to the
    whole feature matrix without aggregation. *)
Theorem self_loop_only_node_is_nodewise
    (n d h o : nat) (w1 w2 x adj : tensor) (i : nat) :
  square n adj -> entries is_01 adj ->
  nrows x = n -> ncols x = d ->
  nrows w1 = h -> ncols w1 = d -> nrows w2 = o -> ncols w2 = h ->
  entries valid x -> entries is_finite x ->
  entries valid w1 -> entries valid w2 ->
  (forall hid, SimpleGCNLayer_forward (SimpleGCNLayer_init w1) x adj = Some hid ->
               entries is_finite (F_relu hid)) ->
  (i < n)%nat ->
  (forall l, (l < n)%nat -> get adj i l = if Nat.eqb l i then f1 else f0) ->
  exists out ref,
    SimpleGCN_forward (SimpleGCN_init w1 w2) x adj = Some out /\
    forward_without_aggregation (SimpleGCN_init w1 w2) x = Some ref /\
    nrows ref = n /\ ncols ref = o /\
    forall j, (j < o)%nat -> get out i j = get ref i j.
Proof.
  intros Hsq H01 Hxr Hxc H1r H1c H2r H2c Vx Fx V1 V2 Hh Hi Hrow.
  unfold SimpleGCN_forward, forward_without_aggregation, SimpleGCN_init.
  cbn [gcn1 gcn2 linear SimpleGCNLayer_init].
  destruct (layer_forward_defined n w1 x adj Hsq Hxr) as [hid E]; [lia|].
  rewrite E.
  destruct (layer_forward_dims n w1 x adj hid Hsq E) as (_ & _ & Hhr & Hhc).
  destruct (layer_forward_defined n w2 (F_relu hid) adj Hsq) as [out E2];
    [cbn; exact Hhr|cbn; lia|].
  exists out.
  rewrite F_linear_no_bias.
  rewrite torch_mm_shape by (cbn [nrows ncols transpose tab]; lia).
  rewrite F_linear_no_bias.
  rewrite torch_mm_shape
    by (cbn [nrows ncols transpose tab F_relu tmap]; lia).
  eexists. split; [exact E2|]. split; [reflexivity|].
  cbn [nrows ncols transpose tab F_relu tmap].
  split; [exact Hxr|]. split; [exact H2r|].
  intros j Hj.
  assert (Vh : entries valid hid)
    by (apply (layer_forward_valid n w1 x adj hid); try assumption;
        intros a b Ha Hb; apply is_01_valid, H01; assumption).
  rewrite (layer_row_self_loop_only n w2 (F_relu hid) adj out i Hsq H01
             (F_relu_valid hid Vh) (Hh hid E) V2 Hi Hrow E2 j ltac:(lia)).
  rewrite get_tab by lia.
  rewrite H2c, H1r. apply fsum_ext. intros k Hk.
  rewrite !get_F_relu by (cbn [nrows ncols tab]; lia).
  rewrite get_tab by lia. rewrite get_transpose by lia.
  f_equal. f_equal.
  rewrite (layer_row_self_loop_only n w1 x adj hid i Hsq H01 Vx Fx V1 Hi Hrow E
             k ltac:(lia)).
  rewrite H1c, Hxc. apply fsum_ext. intros l Hl.
  rewrite get_transpose by lia. reflexivity.
Qed.

Lemma self_loop_only_node_is_nodewise_witness :
  exists out ref,
    SimpleGCN_forward (SimpleGCN_init w1_toy w2_toy) x_two adj_isolated
      = Some out /\
    forward_without_aggregation (SimpleGCN_init w1_toy w2_toy) x_two
      = Some ref /\
    nrows ref = 2%nat /\ ncols ref = 2%nat /\
    forall j, (j < 2)%nat -> get out 1 j = get ref 1 j.
Proof.
  apply (self_loop_only_node_is_nodewise 2 4 8 2 w1_toy w2_toy x_two
           adj_isolated 1);
    try reflexivity;
    try (apply check_entries_sound; vm_compute; reflexivity);
    try lia.
  - split; reflexivity.
  - intros hid H. vm_compute in H. injection H as <-.
    apply check_entries_sound. vm_compute. reflexivity.
  - intros l Hl. destruct l as [|[|l]]; [reflexivity|reflexivity|lia].
Defined.

(** * Magnitudes: when the output is finite *)

(** The layer on an unweighted graph: features below [2^px] and weights
    below [2^pw] give an output below [2^(px + pw + 2n + 2d + 7)]. *)
Lemma layer_forward_within (n d : nat) (px pw : Z) (w x adj out : tensor) :
  square n adj -> entries is_01 adj ->
  ncols w = d ->
  entries valid x -> entries valid w ->
  entries (within px) x -> entries (within pw) w ->
  0 <= px -> 0 <= pw ->
  px + pw + 2 * Z.of_nat n + 2 * Z.of_nat d + 7 <= 127 ->
  SimpleGCNLayer_forward (SimpleGCNLayer_init w) x adj = Some out ->
  entries (within (px + pw + 2 * Z.of_nat n + 2 * Z.of_nat d + 7)) out.
Proof.
  intros Hsq H01 Hd Vx Vw Hx Hw Hpx Hpw Hb H.
  rewrite (layer_forward_square n w x adj Hsq) in H.
  destruct (Nat.eqb n (nrows x)) eqn:E1; [|discriminate].
  destruct (Nat.eqb (ncols x) (ncols w)) eqn:E2; [|discriminate].
  apply Nat.eqb_eq in E1, E2. cbn [andb] in H. injection H as <-.
  destruct Hsq as [Hr Hc].
  intros i j Hi Hj. cbn [nrows ncols tab] in Hi, Hj.
  rewrite get_tab by assumption. rewrite E2, Hd.
  assert (Van : forall l, (l < n)%nat ->
            valid (fmul (fmul (get (degree_inv_sqrt adj) i 0) (get adj i l))
                        (get (degree_inv_sqrt adj) l 0)) = true).
  { intros l Hl. apply fin_nonneg_valid, adj_norm_entry_01.
    - apply degree_inv_sqrt_fin_small; [exact H01|lia].
    - apply degree_inv_sqrt_fin_small; [exact H01|lia].
    - apply H01; lia. }
  assert (Wan : forall l, (l < n)%nat ->
            within 5 (fmul (fmul (get (degree_inv_sqrt adj) i 0) (get adj i l))
                           (get (degree_inv_sqrt adj) l 0)) = true).
  { intros l Hl. apply adj_norm_entry_within.
    - apply degree_inv_sqrt_fin_small; [exact H01|lia].
    - apply degree_inv_sqrt_fin_small; [exact H01|lia].
    - apply H01; lia. }
  replace (px + pw + 2 * Z.of_nat n + 2 * Z.of_nat d + 7)
    with ((px + 2 * Z.of_nat n + 6 + pw + 1) + 2 * Z.of_nat d) by lia.
  apply fsum_within; try lia.
  - intros k Hk. apply fmul_valid; [|apply Vw; lia].
    apply fsum_valid. intros l Hl. apply fmul_valid; [apply Van; lia|apply Vx; lia].
  - intros k Hk. apply fmul_within; try lia.
    + apply fsum_valid. intros l Hl.
      apply fmul_valid; [apply Van; lia|apply Vx; lia].
    + apply Vw; lia.
    + replace (px + 2 * Z.of_nat n + 6) with ((5 + px + 1) + 2 * Z.of_nat n) by lia.
      apply fsum_within; try lia.
      * intros l Hl. apply fmul_valid; [apply Van; lia|apply Vx; lia].
      * intros l Hl. apply fmul_within; try lia.
        -- apply Van; lia.
        -- apply Vx; lia.
        -- apply Wan; lia.
        -- apply Hx; lia.
    + apply Hw; lia.
Qed.

(** X14.  No overflow on bounded data. On an unweighted graph of [n]
    nodes, with features below [2^px] in magnitude and weights below
    [2^p1] and [2^p2], the output of [SimpleGCN.forward] has no NaN and no
    infinity as long as [px + p1 + p2 + 4n + 2d + 2h + 14 <= 127]. *)
Theorem forward_is_finite (n d h o : nat) (px p1 p2 : Z)
    (w1 w2 x adj : tensor) :
  square n adj -> entries is_01 adj ->
  nrows x = n -> ncols x = d ->
  nrows w1 = h -> ncols w1 = d -> nrows w2 = o -> ncols w2 = h ->
  entries valid x -> entries valid w1 -> entries valid w2 ->
  entries (within px) x -> entries (within p1) w1 -> entries (within p2) w2 ->
  0 <= px -> 0 <= p1 -> 0 <= p2 ->
  px + p1 + p2 + 4 * Z.of_nat n + 2 * Z.of_nat d + 2 * Z.of_nat h + 14 <= 127 ->
  exists out,
    SimpleGCN_forward (SimpleGCN_init w1 w2) x adj = Some out /\
    nrows out = n /\ ncols out = o /\
    entries is_finite out.
Proof.
  intros Hsq H01 Hxr Hxc H1r H1c H2r H2c Vx V1 V2 Wx W1 W2 Hpx Hp1 Hp2 Hb.
  unfold SimpleGCN_forward, SimpleGCN_init. cbn [gcn1 gcn2].
  destruct (layer_forward_defined n w1 x adj Hsq Hxr) as [hid E]; [lia|].
  rewrite E.
  destruct (layer_forward_dims n w1 x adj hid Hsq E) as (_ & _ & Hhr & Hhc).
  destruct (layer_forward_defined n w2 (F_relu hid) adj Hsq) as [out E2];
    [cbn; exact Hhr|cbn; lia|].
  exists out. split; [exact E2|].
  destruct (layer_forward_dims n w2 (F_relu hid) adj out Hsq E2)
    as (_ & _ & Hor & Hoc).
  split; [exact Hor|]. split; [lia|].
  assert (Wh : entries (within (px + p1 + 2 * Z.of_nat n + 2 * Z.of_nat d + 7)) hid).
  { apply (layer_forward_within n d px p1 w1 x adj hid); try assumption; lia. }
  assert (Vh : entries valid hid)
    by (apply (layer_forward_valid n w1 x adj hid); try assumption;
        intros i j Hi Hj; apply is_01_valid, H01; assumption).
  assert (Wo : entries (within ((px + p1 + 2 * Z.of_nat n + 2 * Z.of_nat d + 7)
                                + p2 + 2 * Z.of_nat n + 2 * Z.of_nat h + 7)) out).
  { apply (layer_forward_within n h _ p2 w2 (F_relu hid) adj out);
      try assumption; try lia.
    - apply F_relu_valid, Vh.
    - intros i j Hi Hj. cbn [nrows ncols F_relu tmap tab] in Hi, Hj.
      rewrite get_F_relu by assumption. apply relu1_within, Wh; assumption. }
  intros i j Hi Hj. apply (within_finite _ _ (Wo i j Hi Hj)).
Qed.

Lemma forward_is_finite_witness :
  exists out,
    SimpleGCN_forward (SimpleGCN_init w1_toy w2_toy) x_toy adj_toy = Some out /\
    nrows out = 5%nat /\ ncols out = 2%nat /\
    entries is_finite out.
Proof.
  apply (forward_is_finite 5 4 8 2 2 2 2 w1_toy w2_toy x_toy adj_toy);
    try reflexivity;
    try (apply check_entries_sound; vm_compute; reflexivity);
    try lia.
  split; reflexivity.
Defined.

(** * Outside the data model

    The specification restricts adjacency matrices to entries [0.0] and
    [1.0] with non-negative degrees.  The code accepts any tensor; the
    following computations show what the restrictions exclude. *)

(** Weights: on the symmetric matrix [[2, 3], [3, 4]] the two products
    [(d_inv_sqrt[0] * 3) * d_inv_sqrt[1]] and
    [(d_inv_sqrt[1] * 3) * d_inv_sqrt[0]] round differently, and the
    normalized matrix is symmetric up to one unit in the last place only. *)
Remark weighted_symmetric_rounding :
  check_entries valid adj_weighted = true /\
  get adj_weighted 0 1 = get adj_weighted 1 0 /\
  exists A_norm,
    adj_norm adj_weighted = Some A_norm /\
    get A_norm 0 1 = S754_finite false 8507601 (-24) /\
    get A_norm 1 0 = S754_finite false 8507602 (-24).
Proof.
  split; [vm_compute; reflexivity|]. split; [reflexivity|].
  eexists. repeat split; vm_compute; reflexivity.
Qed.

(** A negative weight: the first row of [[0, 0], [0, -1]] has degree zero,
    the second one has a negative degree, and the first row of the
    normalized matrix holds a NaN. *)
Remark negative_degree_reaches_zero_row :
  adj_norm (tab 2 2 (fun i j => if Nat.eqb i 1 && Nat.eqb j 1 then fm1 else f0))
  = Some (tab 2 2 (fun i j => if Nat.eqb i 0 && Nat.eqb j 0 then f0
                              else S754_nan)).
Proof. vm_compute. reflexivity. Qed.
